(** * Chemical formula parser: tokenizer, lexer and recursive-descent parser

    A shallow embedding of [chemical_formula.py].

    Modelling decisions.
    - A Python [str] is a Rocq [string]; its characters are read as the code
      points 0..255 (Latin-1).  On that range [str.isalpha], [str.isdecimal]
      and the regular-expression classes [[A-Z]], [[a-z]] and [\d] are
      written out exactly.
    - A Python [int] is a [Z].
    - A [dict] / [Counter] is an association list in insertion order, with
      the item operations of the Python objects ([d[k]], [d[k] = v],
      [del d[k]]) written out.
    - An exception leaves the mutations made before it in place, so every
      method is a function from the object's state to an outcome and the new
      state.  The two mutually recursive methods of the parser recurse on a
      depth bound; [recursion_bound] gives a bound which is proved to be
      enough for every lexer state, so the [None] of the bound never shows.
      The interpreter's own limits (stack depth, digits of an integer
      literal) are not part of the model. *)

From Stdlib Require Import String Ascii List ZArith NArith Lia Bool.
Import ListNotations.

Open Scope string_scope.
Open Scope Z_scope.

(** ** Characters *)

Module Char.

Definition code (c : ascii) : N := N_of_ascii c.

Definition between (lo hi : N) (c : ascii) : bool :=
  ((lo <=? code c) && (code c <=? hi))%N.

(** The class [[A-Z]] of the extraction pattern. *)
Definition is_upper (c : ascii) : bool := between 65 90 c.

(** The class [[a-z]] of the extraction pattern. *)
Definition is_lower (c : ascii) : bool := between 97 122 c.

(** [\d] of the extraction pattern and [str.isdecimal] on one character:
    the category Nd, which below 256 is the digits 0 to 9. *)
Definition isdecimal (c : ascii) : bool := between 48 57 c.

(** [str.isalpha] on one character: the letter categories, which below 256
    are the ASCII letters, the ordinal indicators, the micro sign and the
    accented letters (the multiplication and division signs excluded). *)
Definition isalpha (c : ascii) : bool :=
  is_upper c || is_lower c
  || (code c =? 170)%N || (code c =? 181)%N || (code c =? 186)%N
  || between 192 214 c || between 216 246 c || between 248 255 c.

Definition is_opening (c : ascii) : bool :=
  (code c =? 40)%N || (code c =? 123)%N || (code c =? 91)%N.

Definition is_closing (c : ascii) : bool :=
  (code c =? 41)%N || (code c =? 125)%N || (code c =? 93)%N.

(** The class [[\[({})\]]] of the extraction pattern. *)
Definition is_bracket (c : ascii) : bool := is_opening c || is_closing c.

(** The value of a decimal digit. *)
Definition digit (c : ascii) : Z := Z.of_N (code c) - 48.

End Char.

(** ** Strings *)

Fixpoint string_forallb (f : ascii -> bool) (s : string) : bool :=
  match s with
  | EmptyString => true
  | String c s' => f c && string_forallb f s'
  end.

(** [str.isalpha]: every character alphabetic and at least one character. *)
Definition isalpha (s : string) : bool :=
  match s with
  | EmptyString => false
  | _ => string_forallb Char.isalpha s
  end.

(** [str.isdecimal]: every character decimal and at least one character. *)
Definition isdecimal (s : string) : bool :=
  match s with
  | EmptyString => false
  | _ => string_forallb Char.isdecimal s
  end.

(** ** Tokens and exceptions *)

Inductive TokenType : Type :=
| ATOM
| FACTOR
| OPENING_BRACKET
| CLOSING_BRACKET
| EOF.

Record Token : Type := mkToken { value : string; token_type : TokenType }.

Inductive Exception : Type :=
| TokenizerException (token : string)
| ParsingException (token : Token) (position : Z)
| ValueError (literal : string).

Inductive result (A : Type) : Type :=
| Return (a : A)
| Raise (e : Exception).

Arguments Return {A} a.
Arguments Raise {A} e.

(** ** tokenize *)

Definition tokenize (token : string) : result Token :=
  if (token =? "")%string then Return (mkToken token EOF)
  else if isalpha token then Return (mkToken token ATOM)
  else if isdecimal token then Return (mkToken token FACTOR)
  else if ((token =? "(") || (token =? "{") || (token =? "["))%string
  then Return (mkToken token OPENING_BRACKET)
  else if ((token =? ")") || (token =? "}") || (token =? "]"))%string
  then Return (mkToken token CLOSING_BRACKET)
  else Raise (TokenizerException token).

(** ** The extraction pattern of the lexer

    [re.findall(r'[A-Z][a-z]?|\d+|[\[({})\]]', formula)]: at each place of the
    input the alternatives are tried in order; the first that matches gives a
    span and the scan goes on after it; where none matches, one character is
    skipped. *)

Module Pattern.

(** [[A-Z][a-z]?], the optional part greedy. *)
Definition match_atom (s : string) : option (string * string) :=
  match s with
  | String c rest =>
      if Char.is_upper c then
        match rest with
        | String d rest' =>
            if Char.is_lower d
            then Some (String c (String d EmptyString), rest')
            else Some (String c EmptyString, rest)
        | EmptyString => Some (String c EmptyString, rest)
        end
      else None
  | EmptyString => None
  end.

(** The longest prefix of decimal characters, and what follows it. *)
Fixpoint span_decimal (s : string) : string * string :=
  match s with
  | String c rest =>
      if Char.isdecimal c
      then let (ds, r) := span_decimal rest in (String c ds, r)
      else (EmptyString, s)
  | EmptyString => (EmptyString, EmptyString)
  end.

(** [\d+], greedy. *)
Definition match_factor (s : string) : option (string * string) :=
  match span_decimal s with
  | (EmptyString, _) => None
  | (ds, rest) => Some (ds, rest)
  end.

(** [[\[({})\]]]. *)
Definition match_bracket (s : string) : option (string * string) :=
  match s with
  | String c rest =>
      if Char.is_bracket c then Some (String c EmptyString, rest) else None
  | EmptyString => None
  end.

(** The alternation, in the order of the pattern. *)
Definition match_here (s : string) : option (string * string) :=
  match match_atom s with
  | Some r => Some r
  | None =>
      match match_factor s with
      | Some r => Some r
      | None => match_bracket s
      end
  end.

(** The scan; [n] bounds the number of places visited. *)
Fixpoint findall_from (n : nat) (s : string) : list string :=
  match n with
  | O => []
  | S n' =>
      match s with
      | EmptyString => []
      | String _ s' =>
          match match_here s with
          | Some (tok, rest) => tok :: findall_from n' rest
          | None => findall_from n' s'
          end
      end
  end.

(** Every step of the scan leaves a shorter input, so the length of the
    input bounds the places visited. *)
Definition findall (s : string) : list string :=
  findall_from (String.length s) s.

End Pattern.

(** ** Lexer *)

Record Lexer : Type := mkLexer { _tokens : list string; position : Z }.

(** [Lexer.__init__]. *)
Definition Lexer_init (formula : string) : Lexer :=
  {| _tokens := Pattern.findall formula; position := 0 |}.

(** [l[i]] on a Python list: a negative index counts from the end; [None] is
    the [IndexError]. *)
Definition list_getitem {A : Type} (l : list A) (i : Z) : option A :=
  let n := Z.of_nat (List.length l) in
  if 0 <=? i then nth_error l (Z.to_nat i)
  else if 0 <=? n + i then nth_error l (Z.to_nat (n + i))
  else None.

(** ** Methods as state transformers

    [M S A] is a method on an object of state [S] that returns an [A] or
    raises; [None] is the depth bound of the recursive methods running out. *)

Definition M (S A : Type) : Type := S -> option (result A * S).

Definition ret {S A : Type} (a : A) : M S A := fun s => Some (Return a, s).

Definition raise {S A : Type} (e : Exception) : M S A :=
  fun s => Some (Raise e, s).

Definition bind {S A B : Type} (m : M S A) (k : A -> M S B) : M S B :=
  fun s =>
    match m s with
    | Some (Return a, s') => k a s'
    | Some (Raise e, s') => Some (Raise e, s')
    | None => None
    end.

Definition out_of_depth {S A : Type} : M S A := fun _ => None.

Declare Scope method_scope.
Delimit Scope method_scope with method.
Notation "x <- m ;; k" := (bind m (fun x => k))
  (at level 100, m at next level, right associativity) : method_scope.
Open Scope method_scope.

(** [Lexer.peek]: the token at the cursor, or the token of the empty string
    when the index is out of range. *)
Definition peek : M Lexer Token :=
  fun self =>
    match list_getitem (_tokens self) (position self) with
    | Some raw => Some (tokenize raw, self)
    | None => Some (tokenize "", self)
    end.

(** [Lexer.get_next_token]: [peek], then [self.position += 1]. *)
Definition get_next_token : M Lexer Token :=
  token <- peek ;;
  fun self =>
    Some (Return token,
          {| _tokens := _tokens self; position := position self + 1 |}).

(** Reading [self._lexer.position]. *)
Definition get_position : M Lexer Z := fun self => Some (Return (position self), self).

(** ** dict and Counter

    Keys in insertion order; the operations keep the keys distinct. *)

Definition dict : Type := list (string * Z).
Definition Counter : Type := list (string * Z).

Definition keys (d : dict) : list string := map fst d.

Fixpoint dict_get (d : dict) (key : string) : option Z :=
  match d with
  | [] => None
  | (k, v) :: d' => if (k =? key)%string then Some v else dict_get d' key
  end.

(** [counter[key]]: a missing key reads as 0 ([Counter.__missing__]). *)
Definition counter_getitem (c : Counter) (key : string) : Z :=
  match dict_get c key with
  | Some v => v
  | None => 0
  end.

(** [d[key] = v]: the value of a present key is replaced where it stands, a
    new key goes to the end. *)
Fixpoint dict_setitem (d : dict) (key : string) (v : Z) : dict :=
  match d with
  | [] => [(key, v)]
  | (k, w) :: d' =>
      if (k =? key)%string then (k, v) :: d'
      else (k, w) :: dict_setitem d' key v
  end.

(** [del d[key]]. *)
Fixpoint dict_delitem (d : dict) (key : string) : dict :=
  match d with
  | [] => []
  | (k, w) :: d' =>
      if (k =? key)%string then d' else (k, w) :: dict_delitem d' key
  end.

(** [Counter._keep_positive]: the keys whose count is not above 0 are
    collected, then deleted one by one. *)
Definition _keep_positive (self : Counter) : Counter :=
  let nonpositive := keys (filter (fun kv => negb (0 <? snd kv)) self) in
  fold_left dict_delitem nonpositive self.

(** [self[elem] += count], the body of the loop of [Counter.__iadd__]. *)
Definition add_item (self : Counter) (item : string * Z) : Counter :=
  let (elem, count) := item in
  dict_setitem self elem (counter_getitem self elem + count).

(** [self += other] on counters ([Counter.__iadd__]): every item of [other]
    is added in, then [_keep_positive]. *)
Definition Counter_iadd (self other : Counter) : Counter :=
  _keep_positive (fold_left add_item other self).

(** [Counter({key: 1})]. *)
Definition Counter_singleton (key : string) : Counter := [(key, 1)].

(** [for key in counter.keys(): counter[key] = counter[key] * factor]. *)
Definition scale_in_place (counter : Counter) (factor : Z) : Counter :=
  fold_left
    (fun c key => dict_setitem c key (counter_getitem c key * factor))
    (keys counter) counter.

(** [dict(counter)]: a copy with the same items. *)
Definition dict_of_Counter (c : Counter) : dict := c.

(** The value of a string of decimal digits, most significant first. *)
Fixpoint decimal_value (acc : Z) (s : string) : Z :=
  match s with
  | EmptyString => acc
  | String c s' => decimal_value (10 * acc + Char.digit c) s'
  end.

(** [int(s)].  On a string of decimal digits it is the value of the digits,
    which is all the parser asks for: it converts tokens of type FACTOR only.
    The model raises [ValueError] on every other string (the interpreter
    also reads a sign, blanks and underscores). *)
Definition int (s : string) : result Z :=
  if isdecimal s then Return (decimal_value 0 s) else Raise (ValueError s).

(** ** Parser *)

Record Parser : Type := mkParser { _lexer : Lexer; _result : option dict }.

(** [Parser.__init__]. *)
Definition Parser_init (lexer : Lexer) : Parser :=
  {| _lexer := lexer; _result := None |}.

Definition starts_group (token : Token) : bool :=
  match token_type token with
  | OPENING_BRACKET | ATOM => true
  | _ => false
  end.

(** [Parser._consume_opening_bracket]. *)
Definition _consume_opening_bracket : M Lexer unit :=
  _ <- get_next_token ;; ret tt.

(** [Parser._consume_closing_bracket]. *)
Definition _consume_closing_bracket : M Lexer unit :=
  token <- get_next_token ;;
  match token_type token with
  | CLOSING_BRACKET => ret tt
  | _ => pos <- get_position ;; raise (ParsingException token pos)
  end.

(** [Parser._parse_atom]. *)
Definition _parse_atom : M Lexer Counter :=
  token <- get_next_token ;;
  ret (Counter_singleton (value token)).

(** [Parser._parse_factor]. *)
Definition _parse_factor : M Lexer Z :=
  token <- get_next_token ;;
  match int (value token) with
  | Return n => ret n
  | Raise e => raise e
  end.

(** [Parser._parse_molecule] and [Parser._parse_group]; [depth] bounds the
    nesting of the calls. *)
Fixpoint _parse_molecule (depth : nat) : M Lexer Counter :=
  match depth with
  | O => out_of_depth
  | S depth' =>
      let outer_counter : Counter := [] in
      token <- peek ;;
      outer_counter <-
        (if starts_group token then
           inner_counter <- _parse_group depth' ;;
           ret (Counter_iadd outer_counter inner_counter)
         else
           pos <- get_position ;; raise (ParsingException token pos)) ;;
      token <- peek ;;
      if starts_group token then
        inner_counter <- _parse_molecule depth' ;;
        ret (Counter_iadd outer_counter inner_counter)
      else ret outer_counter
  end
with _parse_group (depth : nat) : M Lexer Counter :=
  match depth with
  | O => out_of_depth
  | S depth' =>
      token <- peek ;;
      counter <-
        match token_type token with
        | OPENING_BRACKET =>
            _ <- _consume_opening_bracket ;;
            counter <- _parse_molecule depth' ;;
            _ <- _consume_closing_bracket ;;
            ret counter
        | ATOM => _parse_atom
        | _ => pos <- get_position ;; raise (ParsingException token pos)
        end ;;
      token <- peek ;;
      match token_type token with
      | FACTOR =>
          factor <- _parse_factor ;;
          if factor =? 1 then ret counter
          else ret (scale_in_place counter factor)
      | _ => ret counter
      end
  end.

(** The tokens still ahead of the cursor (a negative cursor first walks up to
    the start of the list). *)
Definition remaining (l : Lexer) : nat :=
  Z.to_nat (Z.of_nat (List.length (_tokens l)) - position l).

(** A nesting depth that is enough for the lexer state [l]. *)
Definition recursion_bound (l : Lexer) : nat := 2 * remaining l + 1.

(** [self._parse_molecule()] as called by [parse_formula]. *)
Definition parse_molecule : M Lexer Counter :=
  fun l => _parse_molecule (recursion_bound l) l.

(** Running a method of the lexer on [self._lexer]. *)
Definition on_lexer {A : Type} (m : M Lexer A) : M Parser A :=
  fun self =>
    match m (_lexer self) with
    | Some (r, l) => Some (r, {| _lexer := l; _result := _result self |})
    | None => None
    end.

Definition set_result (d : dict) : M Parser unit :=
  fun self => Some (Return tt, {| _lexer := _lexer self; _result := Some d |}).

(** [Parser.parse_formula]. *)
Definition parse_formula : M Parser dict :=
  fun self =>
    match _result self with
    | None =>
        (counter <- on_lexer parse_molecule ;;
         _ <- set_result (dict_of_Counter counter) ;;
         token <- on_lexer peek ;;
         match token_type token with
         | EOF => ret (dict_of_Counter counter)
         | _ => pos <- on_lexer get_position ;;
                raise (ParsingException token pos)
         end) self
    | Some d => Some (Return d, self)
    end.

(** A fresh lexer and parser on [formula], and one call of [parse_formula]. *)
Definition parse (formula : string) : option (result dict * Parser) :=
  parse_formula (Parser_init (Lexer_init formula)).

Definition outcome {S A : Type} (r : option (result A * S)) : option (result A) :=
  match r with
  | Some (a, _) => Some a
  | None => None
  end.

(** ** Notions used by the statements *)

(** The raw substring that [peek] classifies: the one at the cursor, or the
    empty string when the index is out of range. *)
Definition raw_at (l : Lexer) : string :=
  match list_getitem (_tokens l) (position l) with
  | Some raw => raw
  | None => ""
  end.

(** The lexer after one [get_next_token]. *)
Definition advance (l : Lexer) : Lexer :=
  {| _tokens := _tokens l; position := position l + 1 |}.

(** The shape [[A-Z][a-z]?] of an atom symbol. *)
Definition is_atom_symbol (s : string) : bool :=
  match s with
  | String c EmptyString => Char.is_upper c
  | String c (String d EmptyString) => Char.is_upper c && Char.is_lower d
  | _ => false
  end.

(** A string made of one bracket character. *)
Definition is_opening_bracket (s : string) : bool :=
  match s with
  | String c EmptyString => Char.is_opening c
  | _ => false
  end.

Definition is_closing_bracket (s : string) : bool :=
  match s with
  | String c EmptyString => Char.is_closing c
  | _ => false
  end.

(** The spans the extraction pattern can give. *)
Definition is_lexeme (s : string) : bool :=
  is_atom_symbol s || isdecimal s || is_opening_bracket s || is_closing_bracket s.

(** The type of the token of a span of the pattern, by the alternative that gave it. *)
Definition lexeme_type (s : string) : TokenType :=
  if is_atom_symbol s then ATOM
  else if isdecimal s then FACTOR
  else if is_opening_bracket s then OPENING_BRACKET
  else CLOSING_BRACKET.

(** The second half of [_parse_group]: the optional factor after the atom or
    the bracketed molecule that gave [counter]. *)
Definition group_factor (counter : Counter) (l : Lexer) : option (result Counter * Lexer) :=
  match tokenize (raw_at l) with
  | Raise e => Some (Raise e, l)
  | Return token =>
      match token_type token with
      | FACTOR =>
          match int (value token) with
          | Return factor =>
              Some (Return (if factor =? 1 then counter
                            else scale_in_place counter factor), advance l)
          | Raise e => Some (Raise e, advance l)
          end
      | _ => Some (Return counter, l)
      end
  end.

(** The closing bracket after a bracketed molecule that gave [counter]. *)
Definition group_close (counter : Counter) (l : Lexer) : option (result Counter * Lexer) :=
  match tokenize (raw_at l) with
  | Raise e => Some (Raise e, l)
  | Return token =>
      match token_type token with
      | CLOSING_BRACKET => Some (Return counter, advance l)
      | _ => Some (Raise (ParsingException token (position l + 1)), advance l)
      end
  end.

(** The keys of [c] are alphabetic substrings of the lexer's sequence. *)
Definition atom_keys (toks : list string) (c : Counter) : Prop :=
  forall k, In k (keys c) -> In k toks /\ isalpha k = true.

(** The cursor is on a substring or just after the last one. *)
Definition in_bounds (l : Lexer) : Prop :=
  0 <= position l <= Z.of_nat (List.length (_tokens l)).

(** The lexer [l] seen inside a longer sequence: [before] comes first, then
    the substrings of [l], then [after]; the cursor is on the same substring. *)
Definition embed (before after : list string) (l : Lexer) : Lexer :=
  {| _tokens := (before ++ _tokens l ++ after)%list;
     position := Z.of_nat (List.length before) + position l |}.

(** The formula [M] between the bracket characters [o] and [c], followed by
    [n]. *)
Definition bracketed (o : ascii) (M : string) (c : ascii) (n : string) : string :=
  String o (M ++ String c n).

(** [token] is the token at index [i] of the lexer's sequence. *)
Definition token_at (l : Lexer) (i : Z) (token : Token) : Prop :=
  tokenize (raw_at {| _tokens := _tokens l; position := i |}) = Return token.

(** Every value of a count map multiplied by [n]. *)
Definition scale_values (n : Z) (c : dict) : dict :=
  map (fun kv => (fst kv, snd kv * n)) c.

(** What a call leaves of the lexer: the same substrings, and no more of them
    ahead; [strict] when one at least was consumed. *)
Definition consumed (strict : bool) (l l' : Lexer) : Prop :=
  _tokens l' = _tokens l /\
  position l <= position l' /\
  (remaining l' <= remaining l)%nat /\
  (strict = true -> (remaining l' < remaining l)%nat).

Definition returned {A : Type} (r : result A) : bool :=
  match r with
  | Return _ => true
  | Raise _ => false
  end.

(** A grammar error carries the cursor of the lexer as it is left, and its
    token is the one at that index, still to be consumed, or the one just
    before it, consumed as a closing bracket that it is not. *)
Definition error_points_at (l' : Lexer) (token : Token) (pos : Z) : Prop :=
  pos = position l' /\
  (token_at l' pos token \/
   (token_at l' (pos - 1) token /\ token_type token <> CLOSING_BRACKET)).

(** ** The grammar of the module

    [formula := molecule EOF], [molecule := group molecule?],
    [group := ATOM FACTOR? | OPENING_BRACKET molecule CLOSING_BRACKET FACTOR?],
    with the tokens [ATOM: [A-Z][a-z]?], [FACTOR: \d+] and the brackets, as
    the head of the module states it.  [derives r toks f]: the substrings
    [toks] form a sentence of the rule [r], in which the atom [k] occurs
    [f k] times, the factors of the groups around an occurrence multiplied
    in. *)

Inductive Rule : Type := MOLECULE | GROUP.

Definition one_atom (a : string) : string -> Z :=
  fun k => if (a =? k)%string then 1 else 0.

Inductive derives : Rule -> list string -> (string -> Z) -> Prop :=
| group_atom (a : string) :
    is_atom_symbol a = true ->
    derives GROUP [a] (one_atom a)
| group_atom_factor (a n : string) :
    is_atom_symbol a = true -> isdecimal n = true ->
    derives GROUP [a; n] (fun k => one_atom a k * decimal_value 0 n)
| group_bracket (o c : string) (m : list string) (f : string -> Z) :
    is_opening_bracket o = true -> is_closing_bracket c = true ->
    derives MOLECULE m f ->
    derives GROUP (o :: m ++ [c])%list f
| group_bracket_factor (o c n : string) (m : list string) (f : string -> Z) :
    is_opening_bracket o = true -> is_closing_bracket c = true ->
    isdecimal n = true ->
    derives MOLECULE m f ->
    derives GROUP (o :: m ++ [c; n])%list (fun k => f k * decimal_value 0 n)
| molecule_group (g : list string) (f : string -> Z) :
    derives GROUP g f ->
    derives MOLECULE g f
| molecule_more (g m : list string) (f h : string -> Z) :
    derives GROUP g f -> derives MOLECULE m h ->
    derives MOLECULE (g ++ m)%list (fun k => f k + h k).

(** The count map [c] gives every atom the count [f] gives it, an atom that
    is no key counting as 0 ([c.get(k, 0)]). *)
Definition agrees (c : Counter) (f : string -> Z) : Prop :=
  forall k, counter_getitem c k = f k.

(** The lexer that has consumed [pre] and has [rest] ahead. *)
Definition lexer_at (pre rest : list string) : Lexer :=
  {| _tokens := (pre ++ rest)%list; position := Z.of_nat (List.length pre) |}.

(** The method of the parser for a rule of the grammar. *)
Definition run (r : Rule) : nat -> M Lexer Counter :=
  match r with
  | MOLECULE => _parse_molecule
  | GROUP => _parse_group
  end.

(** What may follow a sentence of the rule [r] for the parser to stop after
    it: no factor, and after a molecule nothing that starts a group. *)
Definition follows (r : Rule) (rest : list string) : Prop :=
  exists t,
    tokenize (hd ""%string rest) = Return t /\
    token_type t <> FACTOR /\
    (r = MOLECULE -> starts_group t = false).

(** The first character of [s] is a small letter. *)
Definition starts_lower (s : string) : bool :=
  match s with
  | String c _ => Char.is_lower c
  | EmptyString => false
  end.

(** The first character of [s] is a decimal digit. *)
Definition starts_decimal (s : string) : bool :=
  match s with
  | String c _ => Char.isdecimal c
  | EmptyString => false
  end.

(** No two factors stand next to each other in [toks]. *)
Fixpoint no_adjacent_factors (toks : list string) : bool :=
  match toks with
  | t :: (u :: _) as rest =>
      negb (isdecimal t && isdecimal u) && no_adjacent_factors rest
  | _ => true
  end.

(** The loop of the tests of the lexer,
    [while lexer.peek().token_type is not EOF: position = lexer.position;
    ... lexer.get_next_token().value ...]: the positions and the values it
    goes through; [fuel] bounds the number of turns. *)
Fixpoint read_until_eof (fuel : nat) : M Lexer (list (Z * string)) :=
  match fuel with
  | O => out_of_depth
  | S fuel' =>
      token <- peek ;;
      match token_type token with
      | EOF => ret []
      | _ =>
          pos <- get_position ;;
          token <- get_next_token ;;
          rest <- read_until_eof fuel' ;;
          ret ((pos, value token) :: rest)
      end
  end.

(** [k] calls of [get_next_token] in a row, and the tokens they return. *)
Fixpoint get_next_tokens (k : nat) : M Lexer (list Token) :=
  match k with
  | O => ret []
  | S k' =>
      token <- get_next_token ;;
      rest <- get_next_tokens k' ;;
      ret (token :: rest)
  end.

(** [s] is [t] with some of its characters left out. *)
Inductive subsequence : string -> string -> Prop :=
| sub_empty : subsequence "" ""
| sub_skip (c : ascii) (s t : string) :
    subsequence s t -> subsequence s (String c t)
| sub_keep (c : ascii) (s t : string) :
    subsequence s t -> subsequence (String c s) (String c t).

(** An exception with its position moved by [k]. *)
Definition shift_exception (k : Z) (e : Exception) : Exception :=
  match e with
  | ParsingException token pos => ParsingException token (k + pos)
  | _ => e
  end.

(** What a method gives on a lexer, seen on the lexer that has [before] in
    front of its substrings: the same mapping or the same error, with the
    positions moved by the length of [before]. *)
Definition shift_outcome {A : Type} (before : list string)
  (o : option (result A * Lexer)) : option (result A * Lexer) :=
  match o with
  | Some (Return a, l) => Some (Return a, embed before [] l)
  | Some (Raise e, l) =>
      Some (Raise (shift_exception (Z.of_nat (List.length before)) e),
            embed before [] l)
  | None => None
  end.

(** The bracket characters brought to the round ones. *)
Definition round_bracket (c : ascii) : ascii :=
  if Char.is_opening c then "("%char
  else if Char.is_closing c then ")"%char
  else c.

Fixpoint round_brackets (s : string) : string :=
  match s with
  | EmptyString => EmptyString
  | String c s' => String (round_bracket c) (round_brackets s')
  end.

(** A span and the rest of the input, with the brackets made round. *)
Definition round_span (m : option (string * string)) : option (string * string) :=
  match m with
  | Some (tok, rest) => Some (round_brackets tok, round_brackets rest)
  | None => None
  end.

(** Two substrings that the parser cannot tell apart: the same substring, or
    two opening brackets, or two closing brackets. *)
Definition same_kind (t t' : string) : Prop :=
  t = t' \/
  (is_opening_bracket t = true /\ is_opening_bracket t' = true) \/
  (is_closing_bracket t = true /\ is_closing_bracket t' = true).

(** Case analysis on the 256 characters. *)
Ltac by_char c := destruct c as [[] [] [] [] [] [] [] []]; vm_compute; congruence.

(** * Properties *)

(** ** Characters and tokenize *)

Lemma decimal_not_alpha (c : ascii) :
  Char.isdecimal c = true -> Char.isalpha c = false.
Proof. by_char c. Qed.

Lemma upper_is_alpha (c : ascii) : Char.is_upper c = true -> Char.isalpha c = true.
Proof. by_char c. Qed.

Lemma lower_is_alpha (c : ascii) : Char.is_lower c = true -> Char.isalpha c = true.
Proof. by_char c. Qed.

Lemma bracket_not_decimal (c : ascii) :
  Char.is_bracket c = true -> Char.isdecimal c = false.
Proof. by_char c. Qed.

Lemma bracket_not_lower (c : ascii) :
  Char.is_bracket c = true -> Char.is_lower c = false.
Proof. by_char c. Qed.

Lemma bracket_not_upper (c : ascii) :
  Char.is_bracket c = true -> Char.is_upper c = false.
Proof. by_char c. Qed.

Lemma opening_cases (c : ascii) :
  Char.is_opening c = true -> c = "("%char \/ c = "{"%char \/ c = "["%char.
Proof. destruct c as [[] [] [] [] [] [] [] []]; vm_compute; auto; congruence. Qed.

Lemma closing_cases (c : ascii) :
  Char.is_closing c = true -> c = ")"%char \/ c = "}"%char \/ c = "]"%char.
Proof. destruct c as [[] [] [] [] [] [] [] []]; vm_compute; auto; congruence. Qed.

Lemma digit_range (c : ascii) : Char.isdecimal c = true -> 0 <= Char.digit c <= 9.
Proof.
  destruct c as [[] [] [] [] [] [] [] []]; vm_compute; intuition congruence.
Qed.

Lemma isdecimal_not_isalpha (s : string) : isdecimal s = true -> isalpha s = false.
Proof.
  destruct s as [|c s]; simpl; [reflexivity|].
  intros H. apply andb_true_iff in H as [Hc _].
  now rewrite (decimal_not_alpha c Hc).
Qed.

Lemma isalpha_nonempty (s : string) : isalpha s = true -> s <> "".
Proof. destruct s; simpl; congruence. Qed.

Lemma tokenize_eof : tokenize "" = Return (mkToken "" EOF).
Proof. reflexivity. Qed.

Lemma tokenize_alpha (s : string) :
  isalpha s = true -> tokenize s = Return (mkToken s ATOM).
Proof.
  intros H. unfold tokenize.
  destruct (String.eqb_spec s "") as [->|_]; [discriminate|].
  now rewrite H.
Qed.

Lemma tokenize_decimal (s : string) :
  isdecimal s = true -> tokenize s = Return (mkToken s FACTOR).
Proof.
  intros H. unfold tokenize.
  destruct (String.eqb_spec s "") as [->|_]; [discriminate|].
  now rewrite (isdecimal_not_isalpha s H), H.
Qed.

Lemma tokenize_opening (s : string) :
  s = "(" \/ s = "{" \/ s = "[" -> tokenize s = Return (mkToken s OPENING_BRACKET).
Proof. intros [->|[->| ->]]; reflexivity. Qed.

Lemma tokenize_closing (s : string) :
  s = ")" \/ s = "}" \/ s = "]" -> tokenize s = Return (mkToken s CLOSING_BRACKET).
Proof. intros [->|[->| ->]]; reflexivity. Qed.

Lemma tokenize_other (s : string) :
  s <> "" -> isalpha s = false -> isdecimal s = false ->
  ~ (s = "(" \/ s = "{" \/ s = "[") -> ~ (s = ")" \/ s = "}" \/ s = "]") ->
  tokenize s = Raise (TokenizerException s).
Proof.
  intros Hne Ha Hd Ho Hc. unfold tokenize.
  destruct (String.eqb_spec s "") as [?|_]; [contradiction|].
  rewrite Ha, Hd.
  destruct (String.eqb_spec s "("); [tauto|].
  destruct (String.eqb_spec s "{"); [tauto|].
  destruct (String.eqb_spec s "["); [tauto|].
  destruct (String.eqb_spec s ")"); [tauto|].
  destruct (String.eqb_spec s "}"); [tauto|].
  destruct (String.eqb_spec s "]"); [tauto|].
  reflexivity.
Qed.

(** What [tokenize] returns always carries the string it was given. *)
Lemma tokenize_value (s : string) (t : Token) :
  tokenize s = Return t -> value t = s.
Proof.
  unfold tokenize.
  repeat match goal with
         | |- context [if ?b then _ else _] => destruct b
         end; intros H; inversion H; reflexivity.
Qed.

(** C3: [tokenize] classifies the empty string as EOF, an alphabetic string
    as ATOM, a decimal string as FACTOR, one opening bracket character as
    OPENING_BRACKET, one closing bracket character as CLOSING_BRACKET, each
    time with the string itself as the token's value, and raises
    [TokenizerException] carrying the string on anything else. *)
Theorem tokenize_classification (s : string) :
  (s = "" -> tokenize s = Return (mkToken s EOF)) /\
  (isalpha s = true -> tokenize s = Return (mkToken s ATOM)) /\
  (isdecimal s = true -> tokenize s = Return (mkToken s FACTOR)) /\
  (s = "(" \/ s = "{" \/ s = "[" ->
   tokenize s = Return (mkToken s OPENING_BRACKET)) /\
  (s = ")" \/ s = "}" \/ s = "]" ->
   tokenize s = Return (mkToken s CLOSING_BRACKET)) /\
  (s <> "" -> isalpha s = false -> isdecimal s = false ->
   ~ (s = "(" \/ s = "{" \/ s = "[") -> ~ (s = ")" \/ s = "}" \/ s = "]") ->
   tokenize s = Raise (TokenizerException s)) /\
  (forall t, tokenize s = Return t -> value t = s).
Proof.
  repeat split.
  - intros ->. reflexivity.
  - apply tokenize_alpha.
  - apply tokenize_decimal.
  - apply tokenize_opening.
  - apply tokenize_closing.
  - apply tokenize_other.
  - apply tokenize_value.
Qed.

Lemma tokenize_classification_witness :
  tokenize "He" = Return (mkToken "He" ATOM) /\
  tokenize "+" = Raise (TokenizerException "+").
Proof.
  split.
  - destruct (tokenize_classification "He") as (_ & H & _). apply H. reflexivity.
  - destruct (tokenize_classification "+") as (_ & _ & _ & _ & _ & H & _).
    apply H; try reflexivity; try discriminate;
      intros [E|[E|E]]; discriminate E.
Defined.

(** ** The extraction pattern *)

Lemma span_decimal_spec (s ds rest : string) :
  Pattern.span_decimal s = (ds, rest) ->
  s = ds ++ rest /\ string_forallb Char.isdecimal ds = true /\
  match rest with
  | String c _ => Char.isdecimal c = false
  | EmptyString => True
  end.
Proof.
  revert ds rest. induction s as [|c s IH]; simpl; intros ds rest H.
  - inversion H; subst. auto.
  - destruct (Char.isdecimal c) eqn:Hc.
    + destruct (Pattern.span_decimal s) as [ds' r'] eqn:Hs.
      inversion H; subst. destruct (IH _ _ eq_refl) as (-> & Hall & Hr).
      simpl. rewrite Hc, Hall. auto.
    + inversion H; subst. simpl. auto.
Qed.

Lemma length_append (s t : string) :
  String.length (s ++ t) = (String.length s + String.length t)%nat.
Proof. induction s; simpl; congruence. Qed.

Lemma match_atom_Some (s tok rest : string) :
  Pattern.match_atom s = Some (tok, rest) ->
  is_atom_symbol tok = true /\ s = tok ++ rest.
Proof.
  destruct s as [|c [|d s]]; simpl; try discriminate;
    destruct (Char.is_upper c) eqn:Hc; try discriminate.
  - intros H; inversion H; subst. simpl. auto.
  - destruct (Char.is_lower d) eqn:Hd; intros H; inversion H; subst; simpl;
      rewrite ?Hc, ?Hd; auto.
Qed.

Lemma match_factor_Some (s tok rest : string) :
  Pattern.match_factor s = Some (tok, rest) ->
  isdecimal tok = true /\ s = tok ++ rest.
Proof.
  unfold Pattern.match_factor.
  destruct (Pattern.span_decimal s) as [ds r] eqn:Hs.
  destruct (span_decimal_spec _ _ _ Hs) as (-> & Hall & _).
  destruct ds as [|c ds]; [discriminate|].
  intros H; inversion H; subst. auto.
Qed.

Lemma match_bracket_Some (s tok rest : string) :
  Pattern.match_bracket s = Some (tok, rest) ->
  (is_opening_bracket tok || is_closing_bracket tok) = true /\ s = tok ++ rest.
Proof.
  destruct s as [|c s]; simpl; [discriminate|].
  destruct (Char.is_bracket c) eqn:Hc; [|discriminate].
  intros H; inversion H; subst. simpl. auto.
Qed.

Lemma match_here_Some (s tok rest : string) :
  Pattern.match_here s = Some (tok, rest) ->
  is_lexeme tok = true /\ s = tok ++ rest /\
  (String.length rest < String.length s)%nat.
Proof.
  unfold Pattern.match_here, is_lexeme. intros H.
  assert (Hshape : is_lexeme tok = true /\ s = tok ++ rest).
  { unfold is_lexeme.
    destruct (Pattern.match_atom s) as [[t r]|] eqn:Ha.
    - inversion H; subst. destruct (match_atom_Some _ _ _ Ha) as [-> ->]. auto.
    - destruct (Pattern.match_factor s) as [[t r]|] eqn:Hf.
      + inversion H; subst. destruct (match_factor_Some _ _ _ Hf) as [-> ->].
        rewrite orb_true_r. auto.
      + destruct (match_bracket_Some _ _ _ H) as [Hb ->]. split; [|reflexivity].
        rewrite <- orb_assoc, Hb. now rewrite !orb_true_r. }
  destruct Hshape as [Hl ->]. repeat split; trivial.
  rewrite length_append.
  destruct tok; [discriminate Hl|]. simpl. lia.
Qed.

Lemma findall_from_enough (n m : nat) (s : string) :
  (String.length s <= n)%nat -> (String.length s <= m)%nat ->
  Pattern.findall_from n s = Pattern.findall_from m s.
Proof.
  revert m s. induction n as [|n IH]; intros m s Hn Hm.
  - destruct s; [|simpl in Hn; lia]. destruct m; reflexivity.
  - destruct m as [|m].
    + destruct s; [reflexivity|simpl in Hm; lia].
    + simpl. destruct s as [|c s]; [reflexivity|].
      destruct (Pattern.match_here (String c s)) as [[tok rest]|] eqn:Hh.
      * apply match_here_Some in Hh as (_ & _ & Hlen). simpl in *.
        f_equal. apply IH; lia.
      * simpl in *. apply IH; lia.
Qed.

(** The scan, one place at a time. *)
Lemma findall_unfold (s : string) :
  Pattern.findall s =
  match s with
  | EmptyString => []
  | String _ s' =>
      match Pattern.match_here s with
      | Some (tok, rest) => tok :: Pattern.findall rest
      | None => Pattern.findall s'
      end
  end.
Proof.
  unfold Pattern.findall. destruct s as [|c s]; [reflexivity|].
  simpl String.length. cbn [Pattern.findall_from].
  destruct (Pattern.match_here (String c s)) as [[tok rest]|] eqn:Hh.
  - apply match_here_Some in Hh as (_ & _ & Hlen). simpl in Hlen.
    f_equal. apply findall_from_enough; lia.
  - reflexivity.
Qed.

Lemma findall_lexemes (s : string) :
  Forall (fun tok => is_lexeme tok = true) (Pattern.findall s).
Proof.
  unfold Pattern.findall. generalize (String.length s) as n.
  intros n. revert s. induction n as [|n IH]; intros s; simpl; [constructor|].
  destruct s as [|c s]; [constructor|].
  destruct (Pattern.match_here (String c s)) as [[tok rest]|] eqn:Hh.
  - constructor; [|apply IH]. now apply match_here_Some in Hh.
  - apply IH.
Qed.

Lemma atom_symbol_isalpha (s : string) : is_atom_symbol s = true -> isalpha s = true.
Proof.
  destruct s as [|c [|d [|e s]]]; simpl; try discriminate.
  - intros H. now rewrite (upper_is_alpha c H).
  - intros H. apply andb_true_iff in H as [Hc Hd].
    now rewrite (upper_is_alpha c Hc), (lower_is_alpha d Hd).
Qed.

Lemma opening_bracket_cases (s : string) :
  is_opening_bracket s = true -> s = "(" \/ s = "{" \/ s = "[".
Proof.
  destruct s as [|c [|d s]]; simpl; try discriminate.
  intros H. destruct (opening_cases c H) as [->|[->| ->]]; auto.
Qed.

Lemma closing_bracket_cases (s : string) :
  is_closing_bracket s = true -> s = ")" \/ s = "}" \/ s = "]".
Proof.
  destruct s as [|c [|d s]]; simpl; try discriminate.
  intros H. destruct (closing_cases c H) as [->|[->| ->]]; auto.
Qed.

Lemma tokenize_lexeme (s : string) :
  is_lexeme s = true -> tokenize s = Return (mkToken s (lexeme_type s)).
Proof.
  unfold is_lexeme, lexeme_type. intros H.
  destruct (is_atom_symbol s) eqn:Ha.
  { now apply tokenize_alpha, atom_symbol_isalpha. }
  destruct (isdecimal s) eqn:Hd.
  { now apply tokenize_decimal. }
  destruct (is_opening_bracket s) eqn:Ho.
  { now apply tokenize_opening, opening_bracket_cases. }
  simpl in H. now apply tokenize_closing, closing_bracket_cases.
Qed.

(** ** The lexer *)

Lemma peek_eq (l : Lexer) : peek l = Some (tokenize (raw_at l), l).
Proof.
  unfold peek, raw_at.
  destruct (list_getitem (_tokens l) (position l)); reflexivity.
Qed.

Lemma get_next_token_eq (l : Lexer) :
  get_next_token l =
  match tokenize (raw_at l) with
  | Return token => Some (Return token, advance l)
  | Raise e => Some (Raise e, l)
  end.
Proof.
  unfold get_next_token, bind. rewrite peek_eq.
  destruct (tokenize (raw_at l)); reflexivity.
Qed.

Lemma list_getitem_In {A : Type} (l : list A) (i : Z) (x : A) :
  list_getitem l i = Some x -> In x l.
Proof.
  unfold list_getitem.
  destruct (0 <=? i); [apply nth_error_In|].
  destruct (0 <=? _); [apply nth_error_In|discriminate].
Qed.

Lemma list_getitem_Some_lt {A : Type} (l : list A) (i : Z) (x : A) :
  list_getitem l i = Some x -> i < Z.of_nat (List.length l).
Proof.
  unfold list_getitem.
  destruct (Z.leb_spec 0 i) as [Hi|Hi].
  - intros H. assert (Hlt : (Z.to_nat i < List.length l)%nat).
    { apply nth_error_Some. congruence. }
    lia.
  - intros _. lia.
Qed.

Lemma list_getitem_in_range {A : Type} (l : list A) (i : Z) :
  0 <= i < Z.of_nat (List.length l) ->
  list_getitem l i = nth_error l (Z.to_nat i) /\ list_getitem l i <> None.
Proof.
  intros [Hlo Hhi]. unfold list_getitem.
  destruct (Z.leb_spec 0 i); [|lia]. split; [reflexivity|].
  apply nth_error_Some. lia.
Qed.

Lemma list_getitem_past_end {A : Type} (l : list A) (i : Z) :
  Z.of_nat (List.length l) <= i -> list_getitem l i = None.
Proof.
  intros H. unfold list_getitem.
  destruct (Z.leb_spec 0 i); [|lia]. apply nth_error_None. lia.
Qed.

(** C6: on a lexer built by [Lexer.__init__] from any formula, and at any
    cursor, [peek] returns a token and never raises: with the index in range
    it is the token [tokenize] gives for the substring at that index, out of
    range it is the token of the empty string, of type EOF; and the lexer,
    its cursor included, is as before.  The range is that of the list
    index: from 0 to the length for the cursors the lexer reaches. *)
Theorem peek_never_raises (formula : string) (pos : Z) :
  let self := {| _tokens := _tokens (Lexer_init formula); position := pos |} in
  exists token,
    peek self = Some (Return token, self) /\
    match list_getitem (_tokens self) (position self) with
    | Some raw =>
        tokenize raw = Return token /\ value token = raw /\
        token_type token = lexeme_type raw
    | None => token = mkToken "" EOF
    end /\
    (0 <= pos < Z.of_nat (List.length (_tokens self)) ->
     list_getitem (_tokens self) pos = nth_error (_tokens self) (Z.to_nat pos) /\
     list_getitem (_tokens self) pos <> None) /\
    (Z.of_nat (List.length (_tokens self)) <= pos ->
     list_getitem (_tokens self) pos = None).
Proof.
  intros self. rewrite peek_eq. unfold raw_at.
  assert (Hrange := list_getitem_in_range (_tokens self) pos).
  assert (Hpast := list_getitem_past_end (_tokens self) pos).
  destruct (list_getitem (_tokens self) (position self)) as [raw|] eqn:Hget.
  - assert (Hlex : is_lexeme raw = true).
    { apply list_getitem_In in Hget.
      pose proof (findall_lexemes formula) as Hall.
      rewrite Forall_forall in Hall. now apply Hall. }
    exists (mkToken raw (lexeme_type raw)).
    rewrite (tokenize_lexeme raw Hlex). auto.
  - exists (mkToken "" EOF). auto.
Qed.

Lemma peek_never_raises_witness :
  let self := {| _tokens := _tokens (Lexer_init "H2O"); position := 1 |} in
  peek self = Some (Return (mkToken "2" FACTOR), self).
Proof.
  intros self.
  destruct (peek_never_raises "H2O" 1) as (token & Hpeek & Hraw & _).
  simpl in Hraw. destruct Hraw as (Htok & _).
  vm_compute in Htok. inversion Htok; subst token. exact Hpeek.
Defined.

(** ** dict and Counter *)

Local Open Scope list_scope.

Lemma dict_get_None (d : dict) (k : string) :
  ~ In k (keys d) -> dict_get d k = None.
Proof.
  induction d as [|[k' v] d IH]; simpl; [reflexivity|]. intros H.
  destruct (String.eqb_spec k' k); [tauto|]. apply IH. tauto.
Qed.

Lemma dict_get_app_r (d1 d2 : dict) (k : string) :
  ~ In k (keys d1) -> dict_get (d1 ++ d2) k = dict_get d2 k.
Proof.
  induction d1 as [|[k' v] d1 IH]; simpl; [reflexivity|]. intros H.
  destruct (String.eqb_spec k' k); [tauto|]. apply IH. tauto.
Qed.

Lemma dict_setitem_app_r (d1 d2 : dict) (k : string) (v : Z) :
  ~ In k (keys d1) -> dict_setitem (d1 ++ d2) k v = d1 ++ dict_setitem d2 k v.
Proof.
  induction d1 as [|[k' w] d1 IH]; simpl; [reflexivity|]. intros H.
  destruct (String.eqb_spec k' k); [tauto|]. f_equal. apply IH. tauto.
Qed.

Lemma dict_setitem_new (d : dict) (k : string) (v : Z) :
  ~ In k (keys d) -> dict_setitem d k v = d ++ [(k, v)].
Proof.
  intros H. rewrite <- (app_nil_r d) at 1.
  now rewrite dict_setitem_app_r.
Qed.

Lemma keys_setitem_present (d : dict) (k : string) (v : Z) :
  In k (keys d) -> keys (dict_setitem d k v) = keys d.
Proof.
  induction d as [|[k' w] d IH]; simpl; [tauto|]. intros H.
  destruct (String.eqb_spec k' k); simpl; [reflexivity|].
  f_equal. apply IH. destruct H; [contradiction|assumption].
Qed.

Lemma keys_setitem (d : dict) (k : string) (v : Z) :
  keys (dict_setitem d k v) = keys d \/
  (~ In k (keys d) /\ keys (dict_setitem d k v) = keys d ++ [k]).
Proof.
  destruct (in_dec string_dec k (keys d)) as [Hin|Hout].
  - left. now apply keys_setitem_present.
  - right. split; [assumption|]. rewrite dict_setitem_new by assumption.
    unfold keys. now rewrite map_app.
Qed.

Lemma NoDup_snoc {A : Type} (l : list A) (x : A) :
  NoDup l -> ~ In x l -> NoDup (l ++ [x]).
Proof.
  intros Hl Hx. apply NoDup_app; [assumption|repeat constructor; auto|].
  intros a Ha [<-|[]]. contradiction.
Qed.

Lemma NoDup_keys_setitem (d : dict) (k : string) (v : Z) :
  NoDup (keys d) -> NoDup (keys (dict_setitem d k v)).
Proof.
  intros H. destruct (keys_setitem d k v) as [->|[Hout ->]]; [assumption|].
  now apply NoDup_snoc.
Qed.

Lemma In_keys_setitem (d : dict) (k k' : string) (v : Z) :
  In k' (keys (dict_setitem d k v)) -> In k' (keys d) \/ k' = k.
Proof.
  destruct (keys_setitem d k v) as [->|[_ ->]]; [auto|].
  rewrite in_app_iff. simpl. intuition.
Qed.

Lemma keys_filter_incl (f : string * Z -> bool) (d : dict) (k : string) :
  In k (keys (filter f d)) -> In k (keys d).
Proof.
  unfold keys. rewrite !in_map_iff. intros ([k' v] & <- & Hin).
  apply filter_In in Hin as [Hin _]. now exists (k', v).
Qed.

Lemma NoDup_keys_filter (f : string * Z -> bool) (d : dict) :
  NoDup (keys d) -> NoDup (keys (filter f d)).
Proof.
  induction d as [|[k v] d IH]; simpl; [auto|]. intros H.
  inversion H as [|? ? Hout Hd]; subst.
  destruct (f (k, v)); simpl; [|auto].
  constructor; [|auto]. intros Hin. apply Hout. eapply keys_filter_incl, Hin.
Qed.

Lemma fold_delitem_cons (ks : list string) (k : string) (v : Z) (d : dict) :
  ~ In k ks ->
  fold_left dict_delitem ks ((k, v) :: d) = (k, v) :: fold_left dict_delitem ks d.
Proof.
  revert d. induction ks as [|k' ks IH]; simpl; intros d H; [reflexivity|].
  destruct (String.eqb_spec k k'); [subst; tauto|]. apply IH. tauto.
Qed.

(** With distinct keys, [_keep_positive] keeps the items with a count above
    0, in their order. *)
Lemma keep_positive_filter (c : Counter) :
  NoDup (keys c) -> _keep_positive c = filter (fun kv => 0 <? snd kv) c.
Proof.
  unfold _keep_positive.
  induction c as [|[k v] c IH]; simpl; [reflexivity|]. intros H.
  inversion H as [|? ? Hout Hc]; subst.
  destruct (0 <? v); simpl.
  - rewrite fold_delitem_cons; [now rewrite IH|].
    intros Hin. apply Hout. eapply keys_filter_incl, Hin.
  - rewrite String.eqb_refl. now apply IH.
Qed.

Lemma NoDup_fold_add (other self : Counter) :
  NoDup (keys self) -> NoDup (keys (fold_left add_item other self)).
Proof.
  revert self. induction other as [|[k v] other IH]; simpl; intros self H; [assumption|].
  apply IH. now apply NoDup_keys_setitem.
Qed.

Lemma In_keys_fold_add (other self : Counter) (k : string) :
  In k (keys (fold_left add_item other self)) ->
  In k (keys self) \/ In k (keys other).
Proof.
  revert self. induction other as [|[k' v] other IH]; simpl; intros self H; [auto|].
  apply IH in H as [H|H]; [|auto].
  apply In_keys_setitem in H as [H| ->]; auto.
Qed.

Lemma Counter_iadd_eq (self other : Counter) :
  NoDup (keys self) ->
  Counter_iadd self other =
  filter (fun kv => 0 <? snd kv) (fold_left add_item other self).
Proof.
  intros H. unfold Counter_iadd.
  apply keep_positive_filter. now apply NoDup_fold_add.
Qed.

(** What [+=] leaves: distinct keys, taken from the two counters, and counts
    above 0. *)
Lemma Counter_iadd_invariant (self other : Counter) :
  NoDup (keys self) ->
  NoDup (keys (Counter_iadd self other)) /\
  Forall (fun kv => 0 < snd kv) (Counter_iadd self other) /\
  (forall k, In k (keys (Counter_iadd self other)) ->
             In k (keys self) \/ In k (keys other)).
Proof.
  intros H. rewrite Counter_iadd_eq by assumption. repeat split.
  - apply NoDup_keys_filter. now apply NoDup_fold_add.
  - apply Forall_forall. intros kv Hin. apply filter_In in Hin as [_ Hpos].
    now apply Z.ltb_lt.
  - intros k Hin. apply keys_filter_incl in Hin. now apply In_keys_fold_add.
Qed.

Lemma fold_add_fresh (other acc : Counter) :
  NoDup (keys (acc ++ other)) -> fold_left add_item other acc = acc ++ other.
Proof.
  revert acc. induction other as [|[k v] other IH]; simpl; intros acc H.
  - now rewrite app_nil_r.
  - assert (Hout : ~ In k (keys acc)).
    { unfold keys in *. rewrite map_app in H. simpl in H.
      apply NoDup_remove_2 in H. rewrite in_app_iff in H. tauto. }
    unfold counter_getitem.
    rewrite dict_get_None, dict_setitem_new by assumption. simpl.
    rewrite IH; rewrite <- app_assoc; [reflexivity|exact H].
Qed.

(** Adding into the empty counter keeps the items with a count above 0. *)
Lemma Counter_iadd_empty (other : Counter) :
  NoDup (keys other) ->
  Counter_iadd [] other = filter (fun kv => 0 <? snd kv) other.
Proof.
  intros H. rewrite Counter_iadd_eq by constructor.
  now rewrite fold_add_fresh.
Qed.

Lemma filter_positive_id (c : Counter) :
  Forall (fun kv => 0 < snd kv) c -> filter (fun kv => 0 <? snd kv) c = c.
Proof.
  induction 1 as [|kv c Hkv _ IH]; simpl; [reflexivity|].
  apply Z.ltb_lt in Hkv. now rewrite Hkv, IH.
Qed.

Lemma scale_in_place_fold (n : Z) (todo done : Counter) :
  NoDup (keys (done ++ todo)) ->
  fold_left (fun c key => dict_setitem c key (counter_getitem c key * n))
            (keys todo) (scale_values n done ++ todo)
  = scale_values n done ++ scale_values n todo.
Proof.
  revert done. induction todo as [|[k v] todo IH]; simpl; intros done H.
  - reflexivity.
  - assert (Hout : ~ In k (keys (scale_values n done))).
    { unfold keys, scale_values in *. rewrite map_map. simpl.
      rewrite map_app in H. simpl in H.
      apply NoDup_remove_2 in H. rewrite in_app_iff in H. tauto. }
    unfold counter_getitem.
    rewrite dict_get_app_r, dict_setitem_app_r by assumption. simpl.
    rewrite String.eqb_refl.
    specialize (IH (done ++ [(k, v)])).
    unfold scale_values in *. rewrite map_app in IH. simpl in IH.
    rewrite <- !app_assoc in IH. simpl in IH. apply IH. exact H.
Qed.

(** With distinct keys, the loop over the keys multiplies every count. *)
Lemma scale_in_place_eq (c : Counter) (n : Z) :
  NoDup (keys c) -> scale_in_place c n = scale_values n c.
Proof.
  intros H. unfold scale_in_place.
  exact (scale_in_place_fold n c [] H).
Qed.

Lemma keys_scale_values (n : Z) (c : dict) : keys (scale_values n c) = keys c.
Proof. unfold keys, scale_values. rewrite map_map. reflexivity. Qed.

(** ** The parser, one call at a time *)

Lemma consume_closing_bracket_eq (l : Lexer) :
  _consume_closing_bracket l =
  match tokenize (raw_at l) with
  | Raise e => Some (Raise e, l)
  | Return token =>
      match token_type token with
      | CLOSING_BRACKET => Some (Return tt, advance l)
      | _ => Some (Raise (ParsingException token (position l + 1)), advance l)
      end
  end.
Proof.
  unfold _consume_closing_bracket, bind. rewrite get_next_token_eq.
  destruct (tokenize (raw_at l)) as [token|e]; [|reflexivity].
  destruct (token_type token); reflexivity.
Qed.

Lemma parse_molecule_S (d : nat) (l : Lexer) :
  _parse_molecule (S d) l =
  match tokenize (raw_at l) with
  | Raise e => Some (Raise e, l)
  | Return token =>
      if starts_group token then
        match _parse_group d l with
        | None => None
        | Some (Raise e, l1) => Some (Raise e, l1)
        | Some (Return inner, l1) =>
            match tokenize (raw_at l1) with
            | Raise e => Some (Raise e, l1)
            | Return token1 =>
                if starts_group token1 then
                  match _parse_molecule d l1 with
                  | None => None
                  | Some (Raise e, l2) => Some (Raise e, l2)
                  | Some (Return inner2, l2) =>
                      Some (Return (Counter_iadd (Counter_iadd [] inner) inner2), l2)
                  end
                else Some (Return (Counter_iadd [] inner), l1)
            end
        end
      else Some (Raise (ParsingException token (position l)), l)
  end.
Proof.
  cbn [_parse_molecule]. unfold bind at 1. rewrite peek_eq.
  destruct (tokenize (raw_at l)) as [token|e]; [|reflexivity].
  unfold bind at 1.
  destruct (starts_group token); [|reflexivity].
  unfold bind at 1.
  destruct (_parse_group d l) as [[[inner|e] l1]|]; try reflexivity.
  unfold ret at 1. unfold bind at 1. rewrite peek_eq.
  destruct (tokenize (raw_at l1)) as [token1|e]; [|reflexivity].
  destruct (starts_group token1); [|reflexivity].
  unfold bind.
  destruct (_parse_molecule d l1) as [[[inner2|e] l2]|]; reflexivity.
Qed.

Lemma parse_group_S (d : nat) (l : Lexer) :
  _parse_group (S d) l =
  match tokenize (raw_at l) with
  | Raise e => Some (Raise e, l)
  | Return token =>
      match token_type token with
      | OPENING_BRACKET =>
          match _parse_molecule d (advance l) with
          | None => None
          | Some (Raise e, l1) => Some (Raise e, l1)
          | Some (Return counter, l1) =>
              match group_close counter l1 with
              | Some (Return counter, l2) => group_factor counter l2
              | other => other
              end
          end
      | ATOM => group_factor (Counter_singleton (value token)) (advance l)
      | _ => Some (Raise (ParsingException token (position l)), l)
      end
  end.
Proof.
  cbn [_parse_group]. unfold bind at 1. rewrite peek_eq.
  destruct (tokenize (raw_at l)) as [token|e] eqn:Htok; [|reflexivity].
  assert (Hfactor : forall counter l2,
    (token0 <- peek ;;
     match token_type token0 with
     | FACTOR =>
         factor <- _parse_factor ;;
         (if factor =? 1 then ret counter else ret (scale_in_place counter factor))
     | _ => ret counter
     end) l2 = group_factor counter l2).
  { intros counter l2. unfold bind at 1, group_factor. rewrite peek_eq.
    destruct (tokenize (raw_at l2)) as [tf|e] eqn:Htf; [|reflexivity].
    destruct (token_type tf); try reflexivity.
    unfold _parse_factor, bind. rewrite get_next_token_eq, Htf.
    destruct (int (value tf)) as [n|e]; [|reflexivity].
    unfold ret. destruct (n =? 1); reflexivity. }
  unfold bind at 1.
  destruct (token_type token); try reflexivity.
  - unfold _parse_atom, bind at 1. rewrite get_next_token_eq, Htok.
    unfold ret at 1. apply Hfactor.
  - unfold bind at 1, _consume_opening_bracket.
    unfold bind at 1. rewrite get_next_token_eq, Htok. unfold ret at 1.
    unfold bind at 1.
    destruct (_parse_molecule d (advance l)) as [[[counter|e] l1]|]; try reflexivity.
    unfold bind at 1. rewrite consume_closing_bracket_eq. unfold group_close.
    destruct (tokenize (raw_at l1)) as [tc|e]; [|reflexivity].
    destruct (token_type tc); try reflexivity.
    unfold ret at 1. apply Hfactor.
Qed.

(** ** The depth bound *)

Lemma parse_depth_mono (d : nat) :
  (forall l r d', _parse_molecule d l = Some r -> (d <= d')%nat ->
                  _parse_molecule d' l = Some r) /\
  (forall l r d', _parse_group d l = Some r -> (d <= d')%nat ->
                  _parse_group d' l = Some r).
Proof.
  induction d as [|d [IHm IHg]].
  - split; intros; discriminate.
  - split; intros l r d' H Hle; (destruct d' as [|d']; [lia|]).
    + rewrite parse_molecule_S in *.
      destruct (tokenize (raw_at l)) as [token|e]; [|assumption].
      destruct (starts_group token); [|assumption].
      destruct (_parse_group d l) as [[[inner|e] l1]|] eqn:Hg;
        [ | |discriminate]; rewrite (IHg _ _ d' Hg) by lia; [|assumption].
      destruct (tokenize (raw_at l1)) as [token1|e]; [|assumption].
      destruct (starts_group token1); [|assumption].
      destruct (_parse_molecule d l1) as [[[inner2|e] l2]|] eqn:Hm;
        [ | |discriminate]; rewrite (IHm _ _ d' Hm) by lia; assumption.
    + rewrite parse_group_S in *.
      destruct (tokenize (raw_at l)) as [token|e]; [|assumption].
      destruct (token_type token); try assumption.
      destruct (_parse_molecule d (advance l)) as [[[counter|e] l1]|] eqn:Hm;
        [ | |discriminate]; rewrite (IHm _ _ d' Hm) by lia; assumption.
Qed.

Lemma raw_at_nonempty (l : Lexer) :
  raw_at l <> "" -> position l < Z.of_nat (List.length (_tokens l)).
Proof.
  unfold raw_at.
  destruct (list_getitem (_tokens l) (position l)) as [raw|] eqn:H; [|congruence].
  intros _. eapply list_getitem_Some_lt, H.
Qed.

Lemma token_in_range (l : Lexer) (token : Token) :
  tokenize (raw_at l) = Return token -> token_type token <> EOF ->
  position l < Z.of_nat (List.length (_tokens l)).
Proof.
  intros H Hne. apply raw_at_nonempty. intros Hraw.
  rewrite Hraw in H. inversion H; subst. now apply Hne.
Qed.

Lemma remaining_advance_le (l : Lexer) : (remaining (advance l) <= remaining l)%nat.
Proof. unfold remaining, advance. simpl. lia. Qed.

Lemma remaining_advance_lt (l : Lexer) :
  position l < Z.of_nat (List.length (_tokens l)) ->
  (remaining (advance l) < remaining l)%nat.
Proof. unfold remaining, advance. simpl. lia. Qed.

Lemma consumed_refl (l : Lexer) : consumed false l l.
Proof. unfold consumed. repeat split; (lia || discriminate). Qed.

Lemma consumed_weaken (b : bool) (l l' : Lexer) : consumed b l l' -> consumed false l l'.
Proof. unfold consumed. intuition discriminate. Qed.

Lemma consumed_trans (b1 b2 : bool) (l1 l2 l3 : Lexer) :
  consumed b1 l1 l2 -> consumed b2 l2 l3 -> consumed (b1 || b2) l1 l3.
Proof.
  unfold consumed. intros (Ht1 & Hp1 & Hr1 & Hs1) (Ht2 & Hp2 & Hr2 & Hs2).
  repeat split; try congruence; try lia.
  intros H. apply orb_true_iff in H as [H|H]; [specialize (Hs1 H)|specialize (Hs2 H)]; lia.
Qed.

Lemma consumed_advance (l : Lexer) : consumed false l (advance l).
Proof.
  unfold consumed. repeat split; simpl; try lia; try discriminate.
  apply remaining_advance_le.
Qed.

Lemma consumed_advance_strict (l : Lexer) :
  position l < Z.of_nat (List.length (_tokens l)) -> consumed true l (advance l).
Proof.
  intros H. unfold consumed. repeat split; simpl; try lia.
  - apply remaining_advance_le.
  - intros _. now apply remaining_advance_lt.
Qed.

Lemma group_factor_consumed (counter : Counter) (l : Lexer) :
  exists r l', group_factor counter l = Some (r, l') /\ consumed false l l'.
Proof.
  unfold group_factor.
  destruct (tokenize (raw_at l)) as [token|e].
  - destruct (token_type token);
      try (eexists _, _; split; [reflexivity|apply consumed_refl]).
    destruct (int (value token));
      eexists _, _; (split; [reflexivity|apply consumed_advance]).
  - eexists _, _; split; [reflexivity|apply consumed_refl].
Qed.

Lemma group_close_consumed (counter : Counter) (l : Lexer) :
  exists r l', group_close counter l = Some (r, l') /\ consumed false l l'.
Proof.
  unfold group_close.
  destruct (tokenize (raw_at l)) as [token|e].
  - destruct (token_type token);
      eexists _, _; (split; [reflexivity|apply consumed_advance]).
  - eexists _, _; split; [reflexivity|apply consumed_refl].
Qed.

Lemma starts_group_not_eof (token : Token) :
  starts_group token = true -> token_type token <> EOF.
Proof. unfold starts_group. destruct (token_type token); congruence. Qed.

(** With the depth [recursion_bound] gives, or more, the two methods come to
    an end, having returned or raised. *)
Lemma parse_depth_enough (d : nat) :
  (forall l, (2 * remaining l + 1 <= d)%nat ->
     exists r l', _parse_molecule d l = Some (r, l') /\ consumed (returned r) l l') /\
  (forall l, (2 * remaining l <= d)%nat -> (1 <= d)%nat ->
     exists r l', _parse_group d l = Some (r, l') /\ consumed (returned r) l l').
Proof.
  induction d as [|d [IHm IHg]].
  - split; intros; lia.
  - split.
    + intros l Hd. rewrite parse_molecule_S.
      destruct (tokenize (raw_at l)) as [token|e] eqn:Htok;
        [|eexists _, _; split; [reflexivity|apply consumed_refl]].
      destruct (starts_group token) eqn:Hs;
        [|eexists _, _; split; [reflexivity|apply consumed_refl]].
      pose proof (token_in_range l token Htok (starts_group_not_eof _ Hs)) as Hin.
      assert (Hrem : (1 <= remaining l)%nat) by (unfold remaining; lia).
      destruct (IHg l) as (r & l1 & -> & Hc1); [lia|lia|].
      destruct r as [inner|e]; [|eexists _, _; split; [reflexivity|exact Hc1]].
      destruct (tokenize (raw_at l1)) as [token1|e] eqn:Htok1;
        [|eexists _, _; split; [reflexivity|eapply consumed_weaken, Hc1]].
      destruct (starts_group token1);
        [|eexists _, _; split; [reflexivity|exact Hc1]].
      assert (Hlt : (remaining l1 < remaining l)%nat) by (now apply Hc1).
      destruct (IHm l1) as (r & l2 & -> & Hc2); [lia|].
      pose proof (consumed_trans _ _ _ _ _ Hc1 Hc2) as Hc. simpl in Hc.
      destruct r as [inner2|e]; eexists _, _; (split; [reflexivity|]).
      * exact Hc.
      * eapply consumed_weaken, Hc.
    + intros l Hd Hd1. rewrite parse_group_S.
      destruct (tokenize (raw_at l)) as [token|e] eqn:Htok;
        [|eexists _, _; split; [reflexivity|apply consumed_refl]].
      destruct (token_type token) eqn:Hty;
        try (eexists _, _; split; [reflexivity|apply consumed_refl]).
      * assert (Hin : position l < Z.of_nat (List.length (_tokens l))).
        { apply (token_in_range l token Htok). congruence. }
        destruct (group_factor_consumed (Counter_singleton (value token)) (advance l))
          as (r & l' & -> & Hc).
        exists r, l'. split; [reflexivity|].
        pose proof (consumed_trans _ _ _ _ _ (consumed_advance_strict l Hin) Hc) as Hc'.
        simpl in Hc'. destruct r; [exact Hc'|eapply consumed_weaken, Hc'].
      * assert (Hin : position l < Z.of_nat (List.length (_tokens l))).
        { apply (token_in_range l token Htok). congruence. }
        pose proof (consumed_advance_strict l Hin) as Hc0.
        assert (Hlt : (remaining (advance l) < remaining l)%nat) by (now apply Hc0).
        destruct (IHm (advance l)) as (r & l1 & -> & Hc1); [lia|].
        pose proof (consumed_trans _ _ _ _ _ Hc0 Hc1) as Hc01. simpl in Hc01.
        destruct r as [counter|e];
          [|eexists _, _; split; [reflexivity|eapply consumed_weaken, Hc01]].
        destruct (group_close_consumed counter l1) as (r & l2 & -> & Hc2).
        pose proof (consumed_trans _ _ _ _ _ Hc01 Hc2) as Hc02. simpl in Hc02.
        destruct r as [counter'|e];
          [|eexists _, _; split; [reflexivity|eapply consumed_weaken, Hc02]].
        destruct (group_factor_consumed counter' l2) as (r & l3 & -> & Hc3).
        pose proof (consumed_trans _ _ _ _ _ Hc02 Hc3) as Hc03. simpl in Hc03.
        exists r, l3. split; [reflexivity|].
        destruct r; [exact Hc03|eapply consumed_weaken, Hc03].
Qed.

(** [parse_molecule] always comes to an end. *)
Lemma parse_molecule_total (l : Lexer) :
  exists r l', parse_molecule l = Some (r, l') /\ consumed (returned r) l l'.
Proof.
  unfold parse_molecule, recursion_bound.
  apply (proj1 (parse_depth_enough _)). lia.
Qed.

(** Whatever a call gives at some depth is what [parse_molecule] gives. *)
Lemma parse_molecule_at_depth (d : nat) (l : Lexer) (r : result Counter * Lexer) :
  _parse_molecule d l = Some r -> parse_molecule l = Some r.
Proof.
  intros H. destruct (parse_molecule_total l) as (r0 & l0 & H0 & _).
  unfold parse_molecule in *.
  destruct (Nat.le_ge_cases d (recursion_bound l)) as [Hle|Hle].
  - exact (proj1 (parse_depth_mono d) _ _ _ H Hle).
  - pose proof (proj1 (parse_depth_mono _) _ _ _ H0 Hle) as H1. congruence.
Qed.

Lemma parse_molecule_consumed (d : nat) (l l' : Lexer) (r : result Counter) :
  _parse_molecule d l = Some (r, l') -> consumed (returned r) l l'.
Proof.
  intros H.
  pose proof (proj1 (parse_depth_mono d) _ _ (Nat.max d (2 * remaining l + 1)) H
                (Nat.le_max_l _ _)) as H1.
  destruct (proj1 (parse_depth_enough (Nat.max d (2 * remaining l + 1))) l)
    as (r0 & l0 & H0 & Hc); [lia|].
  rewrite H1 in H0. now inversion H0; subst.
Qed.

Lemma parse_group_consumed (d : nat) (l l' : Lexer) (r : result Counter) :
  _parse_group d l = Some (r, l') -> consumed (returned r) l l'.
Proof.
  intros H.
  pose proof (proj2 (parse_depth_mono d) _ _ (Nat.max d (2 * remaining l + 1)) H
                (Nat.le_max_l _ _)) as H1.
  destruct (proj2 (parse_depth_enough (Nat.max d (2 * remaining l + 1))) l)
    as (r0 & l0 & H0 & Hc); [lia|lia|].
  rewrite H1 in H0. now inversion H0; subst.
Qed.

(** ** The counts a parse returns *)

Lemma tokenize_ATOM (s : string) (t : Token) :
  tokenize s = Return t -> token_type t = ATOM -> isalpha s = true /\ value t = s.
Proof.
  unfold tokenize.
  repeat match goal with
         | |- context [if ?b then _ else _] => destruct b eqn:?
         end; intros H; inversion H; subst; simpl; auto; discriminate.
Qed.

Lemma raw_at_In (l : Lexer) : raw_at l <> "" -> In (raw_at l) (_tokens l).
Proof.
  unfold raw_at.
  destruct (list_getitem (_tokens l) (position l)) as [raw|] eqn:H; [|congruence].
  intros _. eapply list_getitem_In, H.
Qed.

Lemma group_factor_keys (counter c : Counter) (l l' : Lexer) :
  NoDup (keys counter) ->
  group_factor counter l = Some (Return c, l') -> keys c = keys counter.
Proof.
  intros Hnd. unfold group_factor.
  destruct (tokenize (raw_at l)) as [token|e]; [|discriminate].
  destruct (token_type token);
    try (intros H; inversion H; subst; reflexivity).
  destruct (int (value token)) as [n|e]; [|discriminate].
  intros H; inversion H; subst.
  destruct (n =? 1); [reflexivity|].
  rewrite scale_in_place_eq by assumption. apply keys_scale_values.
Qed.

Lemma group_close_Return (counter c : Counter) (l l' : Lexer) :
  group_close counter l = Some (Return c, l') ->
  c = counter /\ l' = advance l /\
  exists token, tokenize (raw_at l) = Return token /\ token_type token = CLOSING_BRACKET.
Proof.
  unfold group_close.
  destruct (tokenize (raw_at l)) as [token|e]; [|discriminate].
  destruct (token_type token) eqn:Hty; try discriminate.
  intros H; inversion H; subst. eauto.
Qed.

Lemma parse_invariant (d : nat) :
  (forall l c l', _parse_molecule d l = Some (Return c, l') ->
     NoDup (keys c) /\ Forall (fun kv => 0 < snd kv) c /\ atom_keys (_tokens l) c) /\
  (forall l c l', _parse_group d l = Some (Return c, l') ->
     NoDup (keys c) /\ atom_keys (_tokens l) c).
Proof.
  induction d as [|d [IHm IHg]].
  - split; intros; discriminate.
  - split; intros l c l' H.
    + rewrite parse_molecule_S in H.
      destruct (tokenize (raw_at l)) as [token|e]; [|discriminate].
      destruct (starts_group token); [|discriminate].
      destruct (_parse_group d l) as [[[inner|e] l1]|] eqn:Hg; try discriminate.
      destruct (IHg _ _ _ Hg) as (Hnd1 & Hk1).
      destruct (Counter_iadd_invariant [] inner (NoDup_nil _)) as (Hnd & Hpos & Hin).
      assert (Hk : atom_keys (_tokens l) (Counter_iadd [] inner)).
      { intros k Hk. destruct (Hin k Hk) as [[]|Hk']. now apply Hk1. }
      destruct (tokenize (raw_at l1)) as [token1|e]; [|discriminate].
      destruct (starts_group token1).
      * destruct (_parse_molecule d l1) as [[[inner2|e] l2]|] eqn:Hm; try discriminate.
        inversion H; subst.
        destruct (IHm _ _ _ Hm) as (_ & _ & Hk2).
        apply parse_group_consumed in Hg as [Htoks _]. rewrite Htoks in Hk2.
        destruct (Counter_iadd_invariant (Counter_iadd [] inner) inner2 Hnd)
          as (Hnd' & Hpos' & Hin').
        split; [|split]; trivial.
        intros k Hk'. destruct (Hin' k Hk'); auto.
      * inversion H; subst. auto.
    + rewrite parse_group_S in H.
      destruct (tokenize (raw_at l)) as [token|e] eqn:Htok; [|discriminate].
      destruct (token_type token) eqn:Hty; try discriminate.
      * destruct (tokenize_ATOM _ _ Htok Hty) as [Halpha Hval].
        assert (Hnd : NoDup (keys (Counter_singleton (value token)))).
        { repeat constructor. simpl. tauto. }
        unfold atom_keys. rewrite (group_factor_keys _ _ _ _ Hnd H).
        split; [assumption|].
        intros key [<-|[]]. rewrite Hval. split; [|assumption].
        apply raw_at_In. now apply isalpha_nonempty.
      * destruct (_parse_molecule d (advance l)) as [[[counter|e] l1]|] eqn:Hm;
          try discriminate.
        destruct (IHm _ _ _ Hm) as (Hnd & _ & Hk).
        destruct (group_close counter l1) as [[[counter'|e] l2]|] eqn:Hc;
          try discriminate.
        apply group_close_Return in Hc as (-> & _ & _).
        unfold atom_keys. rewrite (group_factor_keys _ _ _ _ Hnd H).
        split; [assumption|].
        intros key Hin. exact (Hk key Hin).
Qed.

Lemma lexeme_alpha_atom (s : string) :
  is_lexeme s = true -> isalpha s = true -> is_atom_symbol s = true.
Proof.
  unfold is_lexeme. intros Hl Ha.
  destruct (is_atom_symbol s); [reflexivity|].
  destruct (isdecimal s) eqn:Hd.
  { apply isdecimal_not_isalpha in Hd. congruence. }
  destruct (is_opening_bracket s) eqn:Ho.
  { apply opening_bracket_cases in Ho as [->|[->| ->]]; discriminate. }
  simpl in Hl.
  apply closing_bracket_cases in Hl as [->|[->| ->]]; discriminate.
Qed.

(** ** parse_formula *)

Lemma parse_formula_fresh (self : Parser) :
  _result self = None ->
  parse_formula self =
  match parse_molecule (_lexer self) with
  | None => None
  | Some (Raise e, l) => Some (Raise e, {| _lexer := l; _result := None |})
  | Some (Return counter, l) =>
      let self' := {| _lexer := l; _result := Some (dict_of_Counter counter) |} in
      match tokenize (raw_at l) with
      | Raise e => Some (Raise e, self')
      | Return token =>
          match token_type token with
          | EOF => Some (Return (dict_of_Counter counter), self')
          | _ => Some (Raise (ParsingException token (position l)), self')
          end
      end
  end.
Proof.
  intros Hres. unfold parse_formula. rewrite Hres.
  unfold bind at 1, on_lexer at 1.
  destruct (parse_molecule (_lexer self)) as [[[counter|e] l]|]; [|now rewrite Hres|reflexivity].
  unfold bind at 1, set_result at 1. unfold bind at 1, on_lexer at 1.
  cbn [_lexer _result]. rewrite peek_eq.
  destruct (tokenize (raw_at l)) as [token|e]; [|reflexivity].
  destruct (token_type token); reflexivity.
Qed.

Lemma parse_formula_cached (self : Parser) (d : dict) :
  _result self = Some d -> parse_formula self = Some (Return d, self).
Proof. intros H. unfold parse_formula. now rewrite H. Qed.

(** Whatever [parse_formula] returns is stored in [_result]. *)
Lemma parse_formula_Return_stored (self self' : Parser) (d : dict) :
  parse_formula self = Some (Return d, self') -> _result self' = Some d.
Proof.
  destruct (_result self) as [d0|] eqn:Hres.
  - rewrite (parse_formula_cached _ _ Hres). intros H; inversion H; subst. assumption.
  - rewrite (parse_formula_fresh _ Hres).
    destruct (parse_molecule (_lexer self)) as [[[counter|e] l]|]; try discriminate.
    cbv zeta.
    destruct (tokenize (raw_at l)) as [token|e]; [|discriminate].
    destruct (token_type token); try discriminate.
    intros H; inversion H; subst. reflexivity.
Qed.

(** [parse_formula] always comes to an end: it returns or it raises. *)
Lemma parse_formula_total (self : Parser) :
  exists r self', parse_formula self = Some (r, self').
Proof.
  destruct (_result self) as [d|] eqn:Hres.
  - rewrite (parse_formula_cached _ _ Hres). eauto.
  - rewrite (parse_formula_fresh _ Hres).
    destruct (parse_molecule_total (_lexer self)) as (r & l & -> & _).
    destruct r as [counter|e]; [|eauto]. cbv zeta.
    destruct (tokenize (raw_at l)) as [token|e]; [|eauto].
    destruct (token_type token); eauto.
Qed.

(** What a fresh parser returns comes from [_parse_molecule] on the lexer of
    the formula, which it leaves at the end of the substrings. *)
Lemma parse_Return_inv (formula : string) (d : dict) (self' : Parser) :
  parse formula = Some (Return d, self') ->
  exists l token,
    parse_molecule (Lexer_init formula) = Some (Return d, l) /\
    tokenize (raw_at l) = Return token /\ token_type token = EOF /\
    self' = {| _lexer := l; _result := Some d |}.
Proof.
  unfold parse. rewrite parse_formula_fresh by reflexivity.
  cbn [_lexer Parser_init].
  destruct (parse_molecule (Lexer_init formula)) as [[[counter|e] l]|]; try discriminate.
  cbv zeta.
  destruct (tokenize (raw_at l)) as [token|e] eqn:Htok; [|discriminate].
  destruct (token_type token) eqn:Hty; try discriminate.
  intros H; inversion H; subst. exists l, token. auto.
Qed.

(** C4: on every formula that [parse_formula] accepts, the mapping returned
    has distinct keys, each of them an atom symbol (one capital, then at most
    one small letter), and every count is above 0. *)
Theorem parse_counts_positive (formula : string) (d : dict) (self' : Parser) :
  parse formula = Some (Return d, self') ->
  NoDup (keys d) /\
  Forall (fun kv => 0 < snd kv) d /\
  Forall (fun kv => is_atom_symbol (fst kv) = true) d.
Proof.
  intros H. apply parse_Return_inv in H as (l & token & Hm & _).
  unfold parse_molecule in Hm.
  destruct (proj1 (parse_invariant _) _ _ _ Hm) as (Hnd & Hpos & Hk).
  repeat split; trivial.
  apply Forall_forall. intros [k v] Hin. simpl.
  destruct (Hk k) as [Htok Halpha].
  { unfold keys. apply in_map_iff. now exists (k, v). }
  apply lexeme_alpha_atom; [|assumption].
  pose proof (findall_lexemes formula) as Hall.
  rewrite Forall_forall in Hall. now apply Hall.
Qed.

Lemma parse_counts_positive_witness :
  exists self',
    parse "H2O" = Some (Return [("H", 2); ("O", 1)], self') /\
    NoDup (keys [("H", 2); ("O", 1)]) /\
    Forall (fun kv => 0 < snd kv) [("H", 2); ("O", 1)] /\
    Forall (fun kv => is_atom_symbol (fst kv) = true) [("H", 2); ("O", 1)].
Proof.
  eexists. split; [vm_compute; reflexivity|].
  eapply (parse_counts_positive "H2O"). vm_compute. reflexivity.
Defined.

(** ** A molecule inside brackets

    A run of the parser that returns reads the substrings from its cursor
    on, and at most looks at the one after the last it consumed.  So the same
    run takes place when the sequence is put inside a longer one, provided
    that what follows it is a closing bracket. *)

Section Embedding.

Variables (before : list string) (closing : string) (after : list string).
Hypothesis closing_ok : is_closing_bracket closing = true.

Local Abbreviation inside := (embed before (closing :: after)).

Lemma tokenize_closing_ok :
  tokenize closing = Return (mkToken closing CLOSING_BRACKET).
Proof. now apply tokenize_closing, closing_bracket_cases. Qed.

Lemma inside_advance (l : Lexer) : inside (advance l) = advance (inside l).
Proof. unfold embed, advance. simpl. f_equal. lia. Qed.

Lemma raw_at_inside (l : Lexer) :
  0 <= position l < Z.of_nat (List.length (_tokens l)) ->
  raw_at (inside l) = raw_at l.
Proof.
  intros [Hlo Hhi]. unfold raw_at, list_getitem, embed. simpl.
  destruct (Z.leb_spec 0 (Z.of_nat (List.length before) + position l)); [|lia].
  destruct (Z.leb_spec 0 (position l)); [|lia].
  rewrite Z2Nat.inj_add, Nat2Z.id by lia.
  rewrite nth_error_app2 by lia.
  replace (List.length before + Z.to_nat (position l) - List.length before)%nat
    with (Z.to_nat (position l)) by lia.
  rewrite nth_error_app1 by lia. reflexivity.
Qed.

Lemma raw_at_inside_end (l : Lexer) :
  position l = Z.of_nat (List.length (_tokens l)) -> raw_at (inside l) = closing.
Proof.
  intros Hp. unfold raw_at, list_getitem, embed. simpl.
  destruct (Z.leb_spec 0 (Z.of_nat (List.length before) + position l)); [|lia].
  rewrite Z2Nat.inj_add, Nat2Z.id by lia.
  rewrite nth_error_app2 by lia.
  replace (List.length before + Z.to_nat (position l) - List.length before)%nat
    with (List.length (_tokens l) + 0)%nat by lia.
  rewrite nth_error_app2 by lia.
  replace (List.length (_tokens l) + 0 - List.length (_tokens l))%nat with 0%nat by lia.
  reflexivity.
Qed.

Lemma raw_at_end (l : Lexer) :
  position l = Z.of_nat (List.length (_tokens l)) -> raw_at l = "".
Proof.
  intros Hp. unfold raw_at, list_getitem.
  destruct (Z.leb_spec 0 (position l)); [|lia].
  replace (nth_error (_tokens l) (Z.to_nat (position l))) with (@None string);
    [reflexivity|].
  symmetry. apply nth_error_None. lia.
Qed.

(** The token under the cursor is the same inside, except at the end, where
    the end of input becomes the closing bracket. *)
Lemma peek_inside (l : Lexer) (token : Token) :
  in_bounds l -> tokenize (raw_at l) = Return token ->
  (position l < Z.of_nat (List.length (_tokens l)) /\
   tokenize (raw_at (inside l)) = Return token) \/
  (position l = Z.of_nat (List.length (_tokens l)) /\
   token_type token = EOF /\
   tokenize (raw_at (inside l)) = Return (mkToken closing CLOSING_BRACKET)).
Proof.
  intros [Hlo Hhi] Htok.
  destruct (Z.eq_dec (position l) (Z.of_nat (List.length (_tokens l)))) as [Heq|Hne].
  - right. rewrite (raw_at_end l Heq) in Htok. inversion Htok; subst.
    rewrite (raw_at_inside_end l Heq).
    split; [assumption|]. split; [reflexivity|apply tokenize_closing_ok].
  - left. split; [lia|]. rewrite raw_at_inside by lia. assumption.
Qed.

Lemma in_bounds_advance (l : Lexer) :
  in_bounds l -> position l < Z.of_nat (List.length (_tokens l)) ->
  in_bounds (advance l).
Proof. unfold in_bounds, advance. simpl. lia. Qed.

Lemma group_factor_inside (counter c : Counter) (l l' : Lexer) :
  in_bounds l -> group_factor counter l = Some (Return c, l') ->
  in_bounds l' /\ group_factor counter (inside l) = Some (Return c, inside l').
Proof.
  intros Hb. unfold group_factor.
  destruct (tokenize (raw_at l)) as [token|e] eqn:Htok; [|discriminate].
  destruct (peek_inside l token Hb Htok) as [[Hlt ->]|(Heq & Hty & ->)].
  - destruct (token_type token).
    2:{ destruct (int (value token)) as [n|e]; [|discriminate].
        intros H; inversion H; subst. rewrite inside_advance.
        split; [now apply in_bounds_advance|reflexivity]. }
    all: intros H; inversion H; subst; auto.
  - rewrite Hty. intros H; inversion H; subst. auto.
Qed.

Lemma group_close_inside (counter c : Counter) (l l' : Lexer) :
  in_bounds l -> group_close counter l = Some (Return c, l') ->
  in_bounds l' /\ group_close counter (inside l) = Some (Return c, inside l').
Proof.
  intros Hb. unfold group_close.
  destruct (tokenize (raw_at l)) as [token|e] eqn:Htok; [|discriminate].
  destruct (peek_inside l token Hb Htok) as [[Hlt ->]|(Heq & Hty & ->)].
  - destruct (token_type token); try discriminate.
    intros H; inversion H; subst. rewrite inside_advance.
    split; [now apply in_bounds_advance|reflexivity].
  - rewrite Hty. discriminate.
Qed.

Lemma parse_inside (d : nat) :
  (forall l c l', in_bounds l -> _parse_molecule d l = Some (Return c, l') ->
     in_bounds l' /\ _parse_molecule d (inside l) = Some (Return c, inside l')) /\
  (forall l c l', in_bounds l -> _parse_group d l = Some (Return c, l') ->
     in_bounds l' /\ _parse_group d (inside l) = Some (Return c, inside l')).
Proof.
  induction d as [|d [IHm IHg]].
  - split; intros; discriminate.
  - split; intros l c l' Hb H.
    + rewrite parse_molecule_S in *.
      destruct (tokenize (raw_at l)) as [token|e] eqn:Htok; [|discriminate].
      destruct (starts_group token) eqn:Hs; [|discriminate].
      destruct (peek_inside l token Hb Htok) as [[Hlt ->]|(_ & Hty & _)];
        [|apply starts_group_not_eof in Hs; contradiction].
      rewrite Hs.
      destruct (_parse_group d l) as [[[inner|e] l1]|] eqn:Hg; try discriminate.
      destruct (IHg _ _ _ Hb Hg) as [Hb1 ->].
      destruct (tokenize (raw_at l1)) as [token1|e] eqn:Htok1; [|discriminate].
      destruct (peek_inside l1 token1 Hb1 Htok1) as [[Hlt1 ->]|(_ & Hty1 & ->)].
      * destruct (starts_group token1).
        -- destruct (_parse_molecule d l1) as [[[inner2|e] l2]|] eqn:Hm;
             try discriminate.
           destruct (IHm _ _ _ Hb1 Hm) as [Hb2 ->].
           inversion H; subst. auto.
        -- inversion H; subst. auto.
      * unfold starts_group in H |- *. rewrite Hty1 in H. simpl.
        inversion H; subst. auto.
    + rewrite parse_group_S in *.
      destruct (tokenize (raw_at l)) as [token|e] eqn:Htok; [|discriminate].
      destruct (peek_inside l token Hb Htok) as [[Hlt ->]|(_ & Hty & _)];
        [|rewrite Hty in H; discriminate].
      destruct (token_type token); try discriminate.
      * rewrite <- inside_advance. apply group_factor_inside; [|assumption].
        now apply in_bounds_advance.
      * rewrite <- inside_advance.
        destruct (_parse_molecule d (advance l)) as [[[counter|e] l1]|] eqn:Hm;
          try discriminate.
        destruct (IHm _ _ _ (in_bounds_advance l Hb Hlt) Hm) as [Hb1 ->].
        destruct (group_close counter l1) as [[[counter'|e] l2]|] eqn:Hc;
          try discriminate.
        destruct (group_close_inside _ _ _ _ Hb1 Hc) as [Hb2 ->].
        now apply group_factor_inside.
Qed.

End Embedding.

(** ** The substrings of a bracketed formula *)

Local Open Scope string_scope.

Lemma decimal_not_upper (c : ascii) :
  Char.isdecimal c = true -> Char.is_upper c = false.
Proof. by_char c. Qed.

Lemma span_decimal_app (s t : string) (c : ascii) (ds r : string) :
  Char.isdecimal c = false ->
  Pattern.span_decimal s = (ds, r) ->
  Pattern.span_decimal (s ++ String c t) = (ds, r ++ String c t).
Proof.
  intros Hc. revert ds r. induction s as [|a s IH]; simpl; intros ds r H.
  - inversion H; subst. now rewrite Hc.
  - destruct (Char.isdecimal a).
    + destruct (Pattern.span_decimal s) as [ds' r'].
      rewrite (IH _ _ eq_refl). inversion H; subst. reflexivity.
    + inversion H; subst. reflexivity.
Qed.

Lemma match_here_app (s t : string) (c : ascii) :
  Char.is_bracket c = true -> s <> "" ->
  Pattern.match_here (s ++ String c t) =
  match Pattern.match_here s with
  | Some (tok, r) => Some (tok, r ++ String c t)
  | None => None
  end.
Proof.
  intros Hc Hs. destruct s as [|a s]; [congruence|].
  unfold Pattern.match_here.
  assert (Hatom : Pattern.match_atom (String a s ++ String c t) =
                  match Pattern.match_atom (String a s) with
                  | Some (tok, r) => Some (tok, r ++ String c t)
                  | None => None
                  end).
  { simpl. destruct (Char.is_upper a); [|reflexivity].
    destruct s as [|b s]; simpl.
    - now rewrite (bracket_not_lower c Hc).
    - destruct (Char.is_lower b); reflexivity. }
  rewrite Hatom.
  destruct (Pattern.match_atom (String a s)) as [[tok r]|]; [reflexivity|].
  unfold Pattern.match_factor.
  destruct (Pattern.span_decimal (String a s)) as [ds r] eqn:Hspan.
  rewrite (span_decimal_app _ t c _ _ (bracket_not_decimal c Hc) Hspan).
  destruct ds as [|b ds]; [|reflexivity].
  simpl. destruct (Char.is_bracket a); reflexivity.
Qed.

Lemma findall_bracket (c : ascii) (s : string) :
  Char.is_bracket c = true ->
  Pattern.findall (String c s) = (String c "" :: Pattern.findall s)%list.
Proof.
  intros Hc. rewrite findall_unfold.
  unfold Pattern.match_here. simpl.
  rewrite (bracket_not_upper c Hc).
  unfold Pattern.match_factor. simpl.
  now rewrite (bracket_not_decimal c Hc), Hc.
Qed.

Lemma findall_app_bracket (s t : string) (c : ascii) :
  Char.is_bracket c = true ->
  Pattern.findall (s ++ String c t) =
  (Pattern.findall s ++ Pattern.findall (String c t))%list.
Proof.
  intros Hc. remember (String.length s) as n eqn:Hn.
  revert s Hn. induction n as [n IH] using lt_wf_ind. intros s Hn.
  destruct s as [|a s]; [rewrite (findall_unfold ""); reflexivity|].
  rewrite (findall_unfold (String a s ++ String c t)), (findall_unfold (String a s)).
  rewrite match_here_app by (assumption || discriminate).
  change (String a s ++ String c t) with (String a (s ++ String c t)).
  destruct (Pattern.match_here (String a s)) as [[tok r]|] eqn:Hh.
  - apply match_here_Some in Hh as (_ & _ & Hlen).
    rewrite (IH (String.length r)); [reflexivity| |reflexivity].
    subst n. exact Hlen.
  - apply (IH (String.length s)); [|reflexivity]. subst n. simpl. lia.
Qed.

Lemma span_decimal_all (s : string) :
  string_forallb Char.isdecimal s = true -> Pattern.span_decimal s = (s, "").
Proof.
  induction s as [|c s IH]; simpl; [reflexivity|]. intros H.
  apply andb_true_iff in H as [Hc Hs]. now rewrite Hc, (IH Hs).
Qed.

Lemma findall_decimal (n : string) :
  isdecimal n = true -> Pattern.findall n = [n]%list.
Proof.
  intros H. destruct n as [|c n]; [discriminate|].
  simpl in H. pose proof H as Hall. apply andb_true_iff in H as [Hc _].
  rewrite findall_unfold. unfold Pattern.match_here. simpl Pattern.match_atom.
  rewrite (decimal_not_upper c Hc).
  unfold Pattern.match_factor.
  rewrite (span_decimal_all (String c n)) by exact Hall.
  reflexivity.
Qed.

(** The substrings of a formula in brackets, with what follows the closing
    bracket. *)
Lemma findall_bracketed (o c : ascii) (M n : string) :
  Char.is_opening o = true -> Char.is_closing c = true ->
  Pattern.findall (String o (M ++ String c n)) =
  (String o "" :: Pattern.findall M ++ String c "" :: Pattern.findall n)%list.
Proof.
  intros Ho Hc.
  assert (Hbo : Char.is_bracket o = true) by (unfold Char.is_bracket; now rewrite Ho).
  assert (Hbc : Char.is_bracket c = true)
    by (unfold Char.is_bracket; rewrite Hc; apply orb_true_r).
  rewrite (findall_bracket o _ Hbo), (findall_app_bracket M n c Hbc).
  now rewrite (findall_bracket c _ Hbc).
Qed.

(** ** int *)

Lemma decimal_value_nonneg (s : string) (acc : Z) :
  string_forallb Char.isdecimal s = true -> 0 <= acc -> 0 <= decimal_value acc s.
Proof.
  revert acc. induction s as [|c s IH]; cbn [decimal_value string_forallb];
    intros acc H Hacc; [assumption|].
  apply andb_true_iff in H as [Hc Hs].
  apply IH; [assumption|]. pose proof (digit_range c Hc) as Hd. lia.
Qed.

Lemma int_decimal (n : string) :
  isdecimal n = true -> int n = Return (decimal_value 0 n) /\ 0 <= decimal_value 0 n.
Proof.
  intros H. unfold int. rewrite H. split; [reflexivity|].
  apply decimal_value_nonneg; [|lia].
  destruct n; [discriminate|exact H].
Qed.

(** ** Parsing a bracketed formula *)

Local Open Scope list_scope.
Local Open Scope Z_scope.

Lemma raw_at_nth (l : Lexer) (xs ys : list string) (y : string) :
  _tokens l = xs ++ y :: ys -> position l = Z.of_nat (List.length xs) ->
  raw_at l = y.
Proof.
  intros Ht Hp. unfold raw_at, list_getitem. rewrite Ht, Hp.
  destruct (Z.leb_spec 0 (Z.of_nat (List.length xs))); [|lia].
  rewrite Nat2Z.id, nth_error_app2 by lia.
  now rewrite Nat.sub_diag.
Qed.

Lemma raw_at_in_range (l : Lexer) :
  0 <= position l < Z.of_nat (List.length (_tokens l)) -> In (raw_at l) (_tokens l).
Proof.
  intros [Hlo Hhi]. unfold raw_at, list_getitem.
  destruct (Z.leb_spec 0 (position l)); [|lia].
  destruct (nth_error (_tokens l) (Z.to_nat (position l))) as [raw|] eqn:Hn.
  - eapply nth_error_In, Hn.
  - apply nth_error_None in Hn. lia.
Qed.

Lemma lexeme_type_not_eof (s : string) : lexeme_type s <> EOF.
Proof.
  unfold lexeme_type.
  repeat match goal with
         | |- context [if ?b then _ else _] => destruct b
         end; discriminate.
Qed.

(** On the substrings of a formula, the end of input shows only at the end. *)
Lemma eof_at_end (l : Lexer) (token : Token) :
  Forall (fun tok => is_lexeme tok = true) (_tokens l) ->
  in_bounds l ->
  tokenize (raw_at l) = Return token -> token_type token = EOF ->
  position l = Z.of_nat (List.length (_tokens l)).
Proof.
  intros Hall [Hlo Hhi] Htok Hty.
  destruct (Z.eq_dec (position l) (Z.of_nat (List.length (_tokens l)))) as [|Hne];
    [assumption|exfalso].
  assert (Hin : In (raw_at l) (_tokens l)) by (apply raw_at_in_range; lia).
  rewrite Forall_forall in Hall.
  rewrite (tokenize_lexeme _ (Hall _ Hin)) in Htok.
  inversion Htok; subst. simpl in Hty. now apply lexeme_type_not_eof in Hty.
Qed.

Lemma tokenize_opening_char (o : ascii) :
  Char.is_opening o = true ->
  tokenize (String o "") = Return (mkToken (String o "") OPENING_BRACKET).
Proof.
  intros H. apply tokenize_opening.
  destruct (opening_cases o H) as [->|[->| ->]]; auto.
Qed.

(** The parse of [M] in brackets: the molecule of [M] is parsed inside, the
    closing bracket is consumed, and what follows is left to the factor part
    of the group. *)
Lemma parse_group_bracketed (o c : ascii) (M n : string) (C : dict) (self' : Parser) :
  Char.is_opening o = true -> Char.is_closing c = true ->
  parse M = Some (Return C, self') ->
  exists (d : nat) (l : Lexer),
    _tokens l = Pattern.findall M /\
    position l = Z.of_nat (List.length (Pattern.findall M)) /\
    _parse_group (S d) (Lexer_init (bracketed o M c n)) =
    group_factor C (advance (embed [String o ""%string]
                                   (String c ""%string :: Pattern.findall n) l)) /\
    NoDup (keys C) /\ Forall (fun kv => 0 < snd kv) C.
Proof.
  intros Ho Hc Hparse.
  apply parse_Return_inv in Hparse as (l & token & Hm & Htok & Hty & _).
  unfold parse_molecule in Hm.
  set (d := recursion_bound (Lexer_init M)) in Hm.
  assert (Hb0 : in_bounds (Lexer_init M)).
  { unfold in_bounds. simpl. lia. }
  destruct (proj1 (parse_invariant d) _ _ _ Hm) as (Hnd & Hpos & _).
  destruct (proj1 (parse_inside [String o ""%string] (String c ""%string)
                     (Pattern.findall n) Hc d) _ _ _ Hb0 Hm) as [Hb Hin].
  pose proof (parse_molecule_consumed _ _ _ _ Hm) as [Htoks _].
  simpl in Htoks.
  assert (Hend : position l = Z.of_nat (List.length (_tokens l))).
  { apply (eof_at_end l token); trivial. rewrite Htoks. apply findall_lexemes. }
  exists d, l. split; [assumption|]. split; [now rewrite <- Htoks|].
  split; [|auto].
  rewrite parse_group_S.
  assert (Hinit : Lexer_init (bracketed o M c n) =
                  {| _tokens := String o ""%string :: Pattern.findall M
                                ++ String c ""%string :: Pattern.findall n;
                     position := 0 |}).
  { unfold Lexer_init, bracketed. now rewrite findall_bracketed. }
  rewrite Hinit.
  change (raw_at {| _tokens := String o ""%string :: Pattern.findall M
                                ++ String c ""%string :: Pattern.findall n;
                     position := 0 |}) with (String o ""%string).
  rewrite (tokenize_opening_char o Ho). cbn [token_type].
  change (advance {| _tokens := String o ""%string :: Pattern.findall M
                                ++ String c ""%string :: Pattern.findall n;
                     position := 0 |})
    with (embed [String o ""%string] (String c ""%string :: Pattern.findall n)
                (Lexer_init M)).
  rewrite Hin. unfold group_close.
  rewrite (raw_at_inside_end _ _ _ l Hend).
  rewrite (tokenize_closing_ok (String c ""%string) Hc). reflexivity.
Qed.

Lemma raw_at_bracketed (o c : ascii) (M n : string) :
  Char.is_opening o = true ->
  raw_at (Lexer_init (bracketed o M c n)) = String o ""%string.
Proof.
  intros Ho. unfold Lexer_init, bracketed.
  rewrite findall_bracket; [reflexivity|].
  unfold Char.is_bracket. now rewrite Ho.
Qed.

(** A formula made of one group. *)
Lemma parse_single_group (L l3 : Lexer) (d : nat) (token token3 : Token) (X : Counter) :
  tokenize (raw_at L) = Return token -> starts_group token = true ->
  _parse_group d L = Some (Return X, l3) ->
  tokenize (raw_at l3) = Return token3 -> token_type token3 = EOF ->
  parse_formula (Parser_init L) =
  Some (Return (Counter_iadd [] X),
        {| _lexer := l3; _result := Some (Counter_iadd [] X) |}).
Proof.
  intros Htok Hs Hg Htok3 Hty3.
  rewrite parse_formula_fresh by reflexivity. cbn [_lexer Parser_init].
  assert (Hm : _parse_molecule (S d) L = Some (Return (Counter_iadd [] X), l3)).
  { rewrite parse_molecule_S, Htok, Hs, Hg, Htok3.
    unfold starts_group. now rewrite Hty3. }
  rewrite (parse_molecule_at_depth _ _ _ Hm). cbv zeta.
  now rewrite Htok3, Hty3.
Qed.

Lemma scale_values_one (c : dict) : scale_values 1 c = c.
Proof.
  unfold scale_values. induction c as [|[k v] c IH]; simpl; [reflexivity|].
  now rewrite IH, Z.mul_1_r.
Qed.

Lemma scale_values_positive (n : Z) (c : dict) :
  0 < n -> Forall (fun kv => 0 < snd kv) c ->
  Forall (fun kv => 0 < snd kv) (scale_values n c).
Proof.
  intros Hn H. unfold scale_values. apply Forall_map.
  eapply Forall_impl; [|exact H]. simpl. intros kv Hkv. lia.
Qed.

Lemma filter_scale_zero (c : dict) :
  filter (fun kv => 0 <? snd kv) (scale_values 0 c) = [].
Proof.
  unfold scale_values. induction c as [|[k v] c IH]; simpl; [reflexivity|].
  now rewrite Z.mul_0_r.
Qed.

(** What the molecule that holds one scaled group returns. *)
Lemma iadd_empty_scaled (C : Counter) (v : Z) :
  NoDup (keys C) -> Forall (fun kv => 0 < snd kv) C -> 0 <= v ->
  Counter_iadd [] (if v =? 1 then C else scale_in_place C v) =
  if v =? 0 then [] else scale_values v C.
Proof.
  intros Hnd Hpos Hv.
  destruct (Z.eqb_spec v 1) as [->|Hne1].
  - simpl. rewrite Counter_iadd_empty, filter_positive_id, scale_values_one; trivial.
  - rewrite scale_in_place_eq by assumption.
    rewrite Counter_iadd_empty by (now rewrite keys_scale_values).
    destruct (Z.eqb_spec v 0) as [->|Hne0].
    + apply filter_scale_zero.
    + apply filter_positive_id, scale_values_positive; [lia|assumption].
Qed.

(** C5 (amended): a formula that parses to the count map [C], put in
    brackets and followed by a factor literal of value [v], parses to [C]
    with every count multiplied by [v] when [v] is not 0, and to the empty
    map when [v] is 0. *)
Theorem bracketed_factor_multiplies
  (o c : ascii) (M n : string) (C : dict) (self' : Parser) :
  Char.is_opening o = true -> Char.is_closing c = true ->
  isdecimal n = true ->
  parse M = Some (Return C, self') ->
  exists v,
    int n = Return v /\
    outcome (parse (bracketed o M c n)) =
    Some (Return (if v =? 0 then [] else scale_values v C)).
Proof.
  intros Ho Hc Hn Hparse.
  destruct (int_decimal n Hn) as [Hint Hv].
  exists (decimal_value 0 n). split; [assumption|].
  destruct (parse_group_bracketed o c M n C self' Ho Hc Hparse)
    as (d & l & Htoks & Hpos & Hg & Hnd & Hpositive).
  rewrite (findall_decimal n Hn) in Hg.
  set (la := advance (embed [String o ""%string] [String c ""%string; n] l)) in Hg.
  assert (Hraw : raw_at la = n).
  { apply (raw_at_nth la ([String o ""%string] ++ _tokens l ++ [String c ""%string]) []).
    - subst la. cbn [advance embed _tokens app]. now rewrite <- app_assoc.
    - subst la. cbn [advance embed position _tokens app List.length].
      rewrite !length_app, Hpos, Htoks. cbn [List.length]. lia. }
  assert (Hfactor : group_factor C la =
                    Some (Return (if decimal_value 0 n =? 1 then C
                                  else scale_in_place C (decimal_value 0 n)),
                          advance la)).
  { unfold group_factor. rewrite Hraw, (tokenize_decimal n Hn).
    cbn [token_type value]. now rewrite Hint. }
  rewrite Hfactor in Hg.
  assert (Hend : raw_at (advance la) = ""%string).
  { apply raw_at_end. subst la. cbn [advance embed position _tokens app List.length].
    rewrite !length_app, Hpos, Htoks. cbn [List.length]. lia. }
  unfold parse.
  erewrite parse_single_group.
  - simpl. now rewrite iadd_empty_scaled.
  - rewrite (raw_at_bracketed o c M n Ho). apply tokenize_opening_char, Ho.
  - reflexivity.
  - exact Hg.
  - rewrite Hend. apply tokenize_eof.
  - reflexivity.
Qed.

(** ** Where a grammar error points *)

Lemma token_at_cursor (l : Lexer) (token : Token) :
  tokenize (raw_at l) = Return token -> token_at l (position l) token.
Proof. unfold token_at. now destruct l. Qed.

Lemma peek_Return (l l' : Lexer) (token : Token) :
  peek l = Some (Return token, l') -> tokenize (raw_at l) = Return token /\ l' = l.
Proof. rewrite peek_eq. intros H; inversion H; subst. auto. Qed.

Lemma group_factor_no_grammar_error (counter : Counter) (l l' : Lexer)
  (token : Token) (pos : Z) :
  group_factor counter l <> Some (Raise (ParsingException token pos), l').
Proof.
  unfold group_factor.
  destruct (tokenize (raw_at l)) as [tf|e] eqn:Htok.
  - destruct (token_type tf); try congruence.
    unfold int. destruct (isdecimal (value tf)); congruence.
  - revert Htok. unfold tokenize.
    repeat match goal with
           | |- context [if ?b then _ else _] => destruct b
           end; intros H; inversion H; subst; congruence.
Qed.

Lemma tokenize_no_grammar_error (s : string) (token : Token) (pos : Z) :
  tokenize s <> Raise (ParsingException token pos).
Proof.
  unfold tokenize.
  repeat match goal with
         | |- context [if ?b then _ else _] => destruct b
         end; congruence.
Qed.

Lemma group_close_error (counter : Counter) (l l' : Lexer) (token : Token) (pos : Z) :
  group_close counter l = Some (Raise (ParsingException token pos), l') ->
  error_points_at l' token pos.
Proof.
  unfold group_close.
  destruct (tokenize (raw_at l)) as [tc|e] eqn:Htok.
  - destruct (token_type tc) eqn:Hty; intros H; inversion H; subst;
      (split; [reflexivity|right]);
      (split; [|congruence]);
      unfold token_at; cbn [advance position _tokens];
      replace (position l + 1 - 1) with (position l) by lia;
      now destruct l.
  - intros H; inversion H; subst. now apply tokenize_no_grammar_error in Htok.
Qed.

Lemma parse_error_position (d : nat) :
  (forall l l' token pos,
     _parse_molecule d l = Some (Raise (ParsingException token pos), l') ->
     error_points_at l' token pos) /\
  (forall l l' token pos,
     _parse_group d l = Some (Raise (ParsingException token pos), l') ->
     error_points_at l' token pos).
Proof.
  induction d as [|d [IHm IHg]].
  - split; intros; discriminate.
  - split; intros l l' token pos H.
    + rewrite parse_molecule_S in H.
      destruct (tokenize (raw_at l)) as [t|e] eqn:Htok.
      2:{ inversion H; subst. now apply tokenize_no_grammar_error in Htok. }
      destruct (starts_group t).
      2:{ inversion H; subst. split; [reflexivity|left]. now apply token_at_cursor. }
      destruct (_parse_group d l) as [[[inner|e] l1]|] eqn:Hg; try discriminate.
      2:{ inversion H; subst. eapply IHg, Hg. }
      destruct (tokenize (raw_at l1)) as [t1|e] eqn:Htok1.
      2:{ inversion H; subst. now apply tokenize_no_grammar_error in Htok1. }
      destruct (starts_group t1); [|discriminate].
      destruct (_parse_molecule d l1) as [[[inner2|e] l2]|] eqn:Hm; try discriminate.
      inversion H; subst. eapply IHm, Hm.
    + rewrite parse_group_S in H.
      destruct (tokenize (raw_at l)) as [t|e] eqn:Htok.
      2:{ inversion H; subst. now apply tokenize_no_grammar_error in Htok. }
      destruct (token_type t);
        try (inversion H; subst; split; [reflexivity|left];
             now apply token_at_cursor).
      * now apply group_factor_no_grammar_error in H.
      * destruct (_parse_molecule d (advance l)) as [[[counter|e] l1]|] eqn:Hm;
          try discriminate.
        2:{ inversion H; subst. eapply IHm, Hm. }
        destruct (group_close counter l1) as [[[counter'|e] l2]|] eqn:Hc;
          try discriminate.
        -- now apply group_factor_no_grammar_error in H.
        -- inversion H; subst. eapply group_close_error, Hc.
Qed.

(** ** The claims on parse_formula *)

(** Once [parse_formula] has returned a mapping, a further call on the same
    parser returns that same mapping and leaves the parser, the cursor of its
    lexer included, as it is. *)
Lemma parse_formula_result_cached (self self' : Parser) (d : dict) :
  parse_formula self = Some (Return d, self') ->
  parse_formula self' = Some (Return d, self').
Proof.
  intros H. apply parse_formula_cached.
  eapply parse_formula_Return_stored, H.
Qed.

(** C1: a call of [parse_formula] that raised is not answered by the same
    error on the next call.  On "H2(OH))2" the first call raises the grammar
    error of the stray bracket after it has stored the mapping of the
    molecule before that bracket, and the second call returns this mapping,
    for a formula that is not of the grammar; on "(H2 3O" the first call
    raises inside the molecule, nothing is stored, and the second call parses
    what is left after the cursor and returns its mapping. *)
Theorem parse_formula_error_not_cached :
  (exists self',
     parse "H2(OH))2" =
     Some (Raise (ParsingException (mkToken ")" CLOSING_BRACKET) 6), self') /\
     _result self' = Some [("H", 3); ("O", 1)] /\
     parse_formula self' = Some (Return [("H", 3); ("O", 1)], self')) /\
  (exists self' self'',
     parse "(H2 3O" =
     Some (Raise (ParsingException (mkToken "3" FACTOR) 4), self') /\
     _result self' = None /\
     position (_lexer self') = 4 /\
     parse_formula self' = Some (Return [("O", 1)], self'') /\
     position (_lexer self'') = 5).
Proof.
  split.
  - eexists. split; [vm_compute; reflexivity|]. split; reflexivity.
  - eexists _, _. split; [vm_compute; reflexivity|].
    repeat split; vm_compute; reflexivity.
Qed.

(** C2: a lexer on "Mg2[CH4{NNi2(Li2O4)5}14]3", a parser on it, and
    [parse_formula] returns the mapping Mg 2, C 3, H 12, N 42, Ni 84, Li 420,
    O 840. *)
Theorem parse_complex_formula :
  outcome (parse_formula (Parser_init (Lexer_init "Mg2[CH4{NNi2(Li2O4)5}14]3"))) =
  Some (Return [("Mg", 2); ("C", 3); ("H", 12); ("N", 42);
                ("Ni", 84); ("Li", 420); ("O", 840)]).
Proof. vm_compute. reflexivity. Qed.

(** C5 as stated fails for the factor literal "0": "H" parses to H 1, and
    "(H)0" parses to the empty mapping, not to H 0. *)
Lemma bracketed_factor_zero :
  outcome (parse "H") = Some (Return [("H", 1)]) /\
  isdecimal "0" = true /\ int "0" = Return 0 /\
  outcome (parse (bracketed "(" "H" ")" "0")) = Some (Return []) /\
  outcome (parse (bracketed "(" "H" ")" "0")) <>
  Some (Return (scale_values 0 [("H", 1)])) /\
  dict_get (scale_values 0 [("H", 1)]) "H" = Some 0 /\
  dict_get [] "H" = None.
Proof. repeat split. discriminate. Qed.

Lemma bracketed_factor_multiplies_witness :
  exists v,
    int "3" = Return v /\
    outcome (parse (bracketed "[" "CH4" "]" "3")) =
    Some (Return (if v =? 0 then [] else scale_values v [("C", 1); ("H", 4)])).
Proof.
  eapply (bracketed_factor_multiplies "[" "]" "CH4" "3");
    [reflexivity|reflexivity|reflexivity|vm_compute; reflexivity].
Defined.

(** C7: a character at which no alternative of the pattern matches is
    skipped and gives no substring; the lexer holds only spans of the
    pattern; "H2 O" gives the substrings of "H2O", and both parse to H 2,
    O 1. *)
Theorem unmatched_characters_dropped :
  (forall c s, Pattern.match_here (String c s) = None ->
               Pattern.findall (String c s) = Pattern.findall s) /\
  (forall formula,
     Forall (fun tok => is_lexeme tok = true) (_tokens (Lexer_init formula))) /\
  Lexer_init "H2 O" = Lexer_init "H2O" /\
  _tokens (Lexer_init "H2 O") = ["H"; "2"; "O"]%string /\
  outcome (parse "H2 O") = outcome (parse "H2O") /\
  outcome (parse "H2 O") = Some (Return [("H", 2); ("O", 1)]).
Proof.
  split; [|split; [|repeat split]].
  - intros c s H. rewrite findall_unfold. now rewrite H.
  - intros formula. apply findall_lexemes.
Qed.

Lemma unmatched_characters_dropped_witness :
  Pattern.findall " O" = Pattern.findall "O".
Proof.
  destruct unmatched_characters_dropped as (H & _).
  apply (H " "%char "O"%string). reflexivity.
Defined.

(** C9: the parser runs [_parse_molecule] once and looks at the next token;
    on EOF it returns the counts, on any other token it raises the grammar
    error with that token and the cursor of the lexer, which stays on the
    token. *)
Theorem trailing_token_is_grammar_error
  (self : Parser) (counter : Counter) (l : Lexer) (token : Token) :
  _result self = None ->
  parse_molecule (_lexer self) = Some (Return counter, l) ->
  peek l = Some (Return token, l) ->
  (token_type token = EOF ->
   parse_formula self =
   Some (Return (dict_of_Counter counter),
         {| _lexer := l; _result := Some (dict_of_Counter counter) |})) /\
  (token_type token <> EOF ->
   parse_formula self =
   Some (Raise (ParsingException token (position l)),
         {| _lexer := l; _result := Some (dict_of_Counter counter) |})).
Proof.
  intros Hres Hm Hpeek. apply peek_Return in Hpeek as [Htok _].
  rewrite (parse_formula_fresh self Hres), Hm. cbv zeta. rewrite Htok.
  split; intros Hty.
  - now rewrite Hty.
  - destruct (token_type token); try reflexivity. contradiction.
Qed.

Lemma trailing_token_is_grammar_error_witness :
  parse "H2(OH))2" =
  Some (Raise (ParsingException (mkToken ")" CLOSING_BRACKET) 6),
        {| _lexer := {| _tokens := ["H"; "2"; "("; "O"; "H"; ")"; ")"; "2"]%string;
                        position := 6 |};
           _result := Some [("H", 3); ("O", 1)] |}).
Proof.
  apply (trailing_token_is_grammar_error
           (Parser_init (Lexer_init "H2(OH))2")) [("H", 3); ("O", 1)]
           {| _tokens := ["H"; "2"; "("; "O"; "H"; ")"; ")"; "2"]%string;
              position := 6 |}
           (mkToken ")" CLOSING_BRACKET));
    [reflexivity|vm_compute; reflexivity|reflexivity|discriminate].
Defined.

(** C10: [_consume_closing_bracket] consumes the token before it checks it,
    so its grammar error carries the index of the token plus one; the errors
    of [_parse_molecule], [_parse_group] and [parse_formula] are raised on a
    token that was only looked at, with its own index.  So the position of
    every grammar error of a parse is the cursor the lexer is left with, and
    its token is the one there or, not a closing bracket, the one before. *)
Theorem error_positions :
  (forall l token,
     peek l = Some (Return token, l) -> token_type token <> CLOSING_BRACKET ->
     _consume_closing_bracket l =
     Some (Raise (ParsingException token (position l + 1)), advance l)) /\
  (forall d l token,
     peek l = Some (Return token, l) -> starts_group token = false ->
     _parse_molecule (S d) l =
     Some (Raise (ParsingException token (position l)), l)) /\
  (forall d l token,
     peek l = Some (Return token, l) -> starts_group token = false ->
     _parse_group (S d) l =
     Some (Raise (ParsingException token (position l)), l)) /\
  (forall self counter l token,
     _result self = None ->
     parse_molecule (_lexer self) = Some (Return counter, l) ->
     peek l = Some (Return token, l) -> token_type token <> EOF ->
     exists self',
       parse_formula self =
       Some (Raise (ParsingException token (position l)), self') /\
       _lexer self' = l) /\
  (forall formula token pos self',
     parse formula = Some (Raise (ParsingException token pos), self') ->
     error_points_at (_lexer self') token pos) /\
  outcome (parse "H2(OH") = Some (Raise (ParsingException (mkToken "" EOF) 6)) /\
  List.length (_tokens (Lexer_init "H2(OH")) = 5%nat.
Proof.
  split; [|split; [|split; [|split; [|split; [|split; reflexivity]]]]].
  - intros l token Hpeek Hty. apply peek_Return in Hpeek as [Htok _].
    rewrite consume_closing_bracket_eq, Htok.
    destruct (token_type token); try reflexivity. contradiction.
  - intros d l token Hpeek Hs. apply peek_Return in Hpeek as [Htok _].
    now rewrite parse_molecule_S, Htok, Hs.
  - intros d l token Hpeek Hs. apply peek_Return in Hpeek as [Htok _].
    rewrite parse_group_S, Htok. unfold starts_group in Hs.
    destruct (token_type token); try reflexivity; discriminate.
  - intros self counter l token Hres Hm Hpeek Hty.
    apply peek_Return in Hpeek as [Htok _].
    rewrite (parse_formula_fresh self Hres), Hm. cbv zeta. rewrite Htok.
    destruct (token_type token); try (eexists; split; reflexivity).
    contradiction.
  - intros formula token pos self'. unfold parse.
    rewrite parse_formula_fresh by reflexivity. cbn [_lexer Parser_init].
    destruct (parse_molecule (Lexer_init formula)) as [[[counter|e] l]|] eqn:Hm;
      [| |discriminate].
    + cbv zeta. destruct (tokenize (raw_at l)) as [t|e] eqn:Htok.
      * destruct (token_type t); intros H; inversion H; subst;
          (split; [reflexivity|left]); now apply token_at_cursor.
      * intros H; inversion H; subst. now apply tokenize_no_grammar_error in Htok.
    + intros H; inversion H; subst. cbn [_lexer].
      unfold parse_molecule in Hm.
      eapply (proj1 (parse_error_position _)), Hm.
Qed.

Lemma error_positions_witness :
  _consume_closing_bracket
    {| _tokens := ["H"; "2"; "("; "O"; "H"]%string; position := 5 |} =
  Some (Raise (ParsingException (mkToken "" EOF) 6),
        {| _tokens := ["H"; "2"; "("; "O"; "H"]%string; position := 6 |}).
Proof.
  destruct error_positions as (H & _).
  apply (H {| _tokens := ["H"; "2"; "("; "O"; "H"]%string; position := 5 |}
           (mkToken "" EOF)); [reflexivity|discriminate].
Defined.

(** * Further properties *)

(** ** Reading a counter *)

Lemma dict_get_setitem (d : dict) (k k' : string) (v : Z) :
  dict_get (dict_setitem d k v) k' =
  if (k =? k')%string then Some v else dict_get d k'.
Proof.
  induction d as [|[k0 w] d IH]; simpl.
  - reflexivity.
  - destruct (String.eqb_spec k0 k) as [->|Hne]; simpl.
    + destruct (String.eqb_spec k k'); reflexivity.
    + rewrite IH. destruct (String.eqb_spec k0 k') as [->|Hne'];
        [|reflexivity].
      destruct (String.eqb_spec k k'); [congruence|reflexivity].
Qed.

Lemma getitem_fold_add (other self : Counter) (k : string) :
  NoDup (keys other) ->
  counter_getitem (fold_left add_item other self) k =
  counter_getitem self k + counter_getitem other k.
Proof.
  revert self. induction other as [|[k1 v1] other IH]; simpl; intros self Hnd.
  - unfold counter_getitem at 3. simpl. lia.
  - inversion Hnd as [|? ? Hout Hnd']; subst.
    rewrite (IH _ Hnd'). unfold counter_getitem at 1.
    rewrite dict_get_setitem. unfold counter_getitem at 4. simpl.
    destruct (String.eqb_spec k1 k) as [->|Hne].
    + unfold counter_getitem at 2. rewrite (dict_get_None other k Hout). lia.
    + fold (counter_getitem self k). fold (counter_getitem other k). lia.
Qed.

Lemma getitem_filter_positive (c : Counter) (k : string) :
  NoDup (keys c) ->
  counter_getitem (filter (fun kv => 0 <? snd kv) c) k =
  Z.max 0 (counter_getitem c k).
Proof.
  unfold counter_getitem.
  induction c as [|[k1 v1] c IH]; simpl; intros Hnd; [reflexivity|].
  inversion Hnd as [|? ? Hout Hnd']; subst.
  destruct (String.eqb_spec k1 k) as [->|Hne].
  - destruct (Z.ltb_spec 0 v1); simpl.
    + rewrite String.eqb_refl. lia.
    + rewrite dict_get_None; [lia|].
      intros Hin. apply Hout. eapply keys_filter_incl, Hin.
  - destruct (0 <? v1); simpl.
    + destruct (String.eqb_spec k1 k); [contradiction|]. now apply IH.
    + now apply IH.
Qed.

(** [+=] on counters, read at one key: the sum of the two counts, or 0 when
    the sum is not above 0. *)
Lemma getitem_iadd (self other : Counter) (k : string) :
  NoDup (keys self) -> NoDup (keys other) ->
  counter_getitem (Counter_iadd self other) k =
  Z.max 0 (counter_getitem self k + counter_getitem other k).
Proof.
  intros Hs Ho. rewrite Counter_iadd_eq by assumption.
  rewrite getitem_filter_positive by (now apply NoDup_fold_add).
  now rewrite getitem_fold_add.
Qed.

Lemma getitem_scale_values (n : Z) (c : dict) (k : string) :
  counter_getitem (scale_values n c) k = counter_getitem c k * n.
Proof.
  unfold counter_getitem, scale_values.
  induction c as [|[k1 v1] c IH]; simpl; [reflexivity|].
  destruct (k1 =? k)%string; [reflexivity|exact IH].
Qed.

Lemma getitem_singleton (a k : string) :
  counter_getitem (Counter_singleton a) k = one_atom a k.
Proof.
  unfold counter_getitem, Counter_singleton, one_atom. simpl.
  destruct (a =? k)%string; reflexivity.
Qed.

(** ** The lexer between what is consumed and what is ahead *)

Lemma raw_at_lexer_at (pre rest : list string) :
  raw_at (lexer_at pre rest) = hd ""%string rest.
Proof.
  destruct rest as [|x rest]; simpl.
  - apply raw_at_end. unfold lexer_at. simpl. now rewrite app_nil_r.
  - now apply (raw_at_nth (lexer_at pre (x :: rest)) pre rest).
Qed.

Lemma lexer_at_eq (pre pre' rest rest' : list string) :
  pre ++ rest = pre' ++ rest' -> List.length pre = List.length pre' ->
  lexer_at pre rest = lexer_at pre' rest'.
Proof. intros Ht Hl. unfold lexer_at. now rewrite Ht, Hl. Qed.

Lemma advance_lexer_at (pre rest : list string) (x : string) :
  advance (lexer_at pre (x :: rest)) = lexer_at (pre ++ [x]) rest.
Proof.
  unfold advance, lexer_at. cbn [_tokens position].
  rewrite <- app_assoc, length_app. cbn [app List.length]. f_equal. lia.
Qed.

Lemma Lexer_init_lexer_at (formula : string) :
  Lexer_init formula = lexer_at [] (Pattern.findall formula).
Proof. reflexivity. Qed.

Lemma lexeme_type_ATOM (s : string) :
  lexeme_type s = ATOM -> is_atom_symbol s = true.
Proof.
  unfold lexeme_type. destruct (is_atom_symbol s); [reflexivity|].
  destruct (isdecimal s); [discriminate|].
  destruct (is_opening_bracket s); discriminate.
Qed.

Lemma lexeme_type_FACTOR (s : string) :
  lexeme_type s = FACTOR -> isdecimal s = true.
Proof.
  unfold lexeme_type. destruct (is_atom_symbol s); [discriminate|].
  destruct (isdecimal s); [reflexivity|].
  destruct (is_opening_bracket s); discriminate.
Qed.

Lemma lexeme_type_OPENING (s : string) :
  lexeme_type s = OPENING_BRACKET -> is_opening_bracket s = true.
Proof.
  unfold lexeme_type. destruct (is_atom_symbol s); [discriminate|].
  destruct (isdecimal s); [discriminate|].
  destruct (is_opening_bracket s); [reflexivity|discriminate].
Qed.

Lemma lexeme_type_CLOSING (s : string) :
  is_lexeme s = true -> lexeme_type s = CLOSING_BRACKET ->
  is_closing_bracket s = true.
Proof.
  unfold lexeme_type, is_lexeme. destruct (is_atom_symbol s); [discriminate|].
  destruct (isdecimal s); [discriminate|].
  destruct (is_opening_bracket s); [discriminate|]. simpl. auto.
Qed.

(** A token that is not the end of input is the first substring ahead. *)
Lemma token_ahead (pre rest : list string) (t : Token) :
  Forall (fun tok => is_lexeme tok = true) rest ->
  tokenize (raw_at (lexer_at pre rest)) = Return t -> token_type t <> EOF ->
  exists x rest',
    rest = x :: rest' /\ is_lexeme x = true /\
    Forall (fun tok => is_lexeme tok = true) rest' /\
    t = mkToken x (lexeme_type x).
Proof.
  intros Hall Htok Hty. rewrite raw_at_lexer_at in Htok.
  destruct rest as [|x rest'].
  - simpl in Htok. inversion Htok; subst. now contradiction Hty.
  - inversion Hall as [|? ? Hx Hrest]; subst. simpl in Htok.
    rewrite (tokenize_lexeme x Hx) in Htok. inversion Htok; subst.
    exists x, rest'. auto.
Qed.

Lemma group_factor_ahead (pre rest : list string) (counter c : Counter) (l' : Lexer) :
  Forall (fun tok => is_lexeme tok = true) rest ->
  NoDup (keys counter) ->
  group_factor counter (lexer_at pre rest) = Some (Return c, l') ->
  (c = counter /\ l' = lexer_at pre rest) \/
  (exists n rest',
     rest = n :: rest' /\ isdecimal n = true /\
     Forall (fun tok => is_lexeme tok = true) rest' /\
     l' = lexer_at (pre ++ [n]) rest' /\
     forall k, counter_getitem c k = counter_getitem counter k * decimal_value 0 n).
Proof.
  intros Hall Hnd. unfold group_factor.
  destruct (tokenize (raw_at (lexer_at pre rest))) as [t|e] eqn:Htok; [|discriminate].
  destruct (token_type t) eqn:Hty;
    try (intros H; inversion H; subst; left; split; reflexivity).
  destruct (token_ahead pre rest t Hall Htok) as (n & rest' & -> & Hn & Hrest & ->);
    [congruence|].
  simpl in Hty. apply lexeme_type_FACTOR in Hty.
  cbn [value]. destruct (int_decimal n Hty) as [-> _].
  intros H; inversion H; subst. right. exists n, rest'.
  repeat split; trivial.
  - apply advance_lexer_at.
  - intros k. destruct (Z.eqb_spec (decimal_value 0 n) 1) as [->|_]; [lia|].
    rewrite scale_in_place_eq by assumption. apply getitem_scale_values.
Qed.

(** ** Every formula the parser accepts is a sentence of the grammar *)

Lemma derives_nonneg (r : Rule) (toks : list string) (f : string -> Z) :
  derives r toks f -> forall k, 0 <= f k.
Proof.
  induction 1; intros k.
  - unfold one_atom. destruct (a =? k)%string; lia.
  - destruct (int_decimal n H0) as [_ Hv].
    unfold one_atom. destruct (a =? k)%string; lia.
  - auto.
  - destruct (int_decimal n H1) as [_ Hv]. specialize (IHderives k). nia.
  - auto.
  - specialize (IHderives1 k). specialize (IHderives2 k). lia.
Qed.

Lemma agrees_iadd_empty (inner : Counter) (f : string -> Z) :
  NoDup (keys inner) -> agrees inner f -> (forall k, 0 <= f k) ->
  agrees (Counter_iadd [] inner) f.
Proof.
  intros Hnd Ha Hf k. rewrite getitem_iadd by (constructor || assumption).
  rewrite Ha. unfold counter_getitem at 1. simpl. specialize (Hf k). lia.
Qed.

Lemma agrees_iadd (c1 c2 : Counter) (f h : string -> Z) :
  NoDup (keys c1) -> NoDup (keys c2) ->
  agrees c1 f -> agrees c2 h ->
  (forall k, 0 <= f k) -> (forall k, 0 <= h k) ->
  agrees (Counter_iadd c1 c2) (fun k => f k + h k).
Proof.
  intros Hn1 Hn2 H1 H2 Hf Hh k. rewrite getitem_iadd by assumption.
  rewrite H1, H2. specialize (Hf k). specialize (Hh k). lia.
Qed.

Lemma parse_derives (d : nat) :
  (forall pre rest0 c l',
     Forall (fun tok => is_lexeme tok = true) rest0 ->
     _parse_molecule d (lexer_at pre rest0) = Some (Return c, l') ->
     exists seg rest f,
       rest0 = seg ++ rest /\ l' = lexer_at (pre ++ seg) rest /\
       Forall (fun tok => is_lexeme tok = true) rest /\
       derives MOLECULE seg f /\ agrees c f) /\
  (forall pre rest0 c l',
     Forall (fun tok => is_lexeme tok = true) rest0 ->
     _parse_group d (lexer_at pre rest0) = Some (Return c, l') ->
     exists seg rest f,
       rest0 = seg ++ rest /\ l' = lexer_at (pre ++ seg) rest /\
       Forall (fun tok => is_lexeme tok = true) rest /\
       derives GROUP seg f /\ agrees c f).
Proof.
  induction d as [|d [IHm IHg]].
  - split; intros; discriminate.
  - split; intros pre rest0 c l' Hall H.
    + rewrite parse_molecule_S in H.
      destruct (tokenize (raw_at (lexer_at pre rest0))) as [t|e]; [|discriminate].
      destruct (starts_group t); [|discriminate].
      destruct (_parse_group d (lexer_at pre rest0)) as [[[inner|e] l1]|] eqn:Hg;
        try discriminate.
      destruct (proj2 (parse_invariant d) _ _ _ Hg) as [Hnd1 _].
      destruct (IHg _ _ _ _ Hall Hg) as (seg1 & rest1 & f1 & -> & -> & Hall1 & Hd1 & Ha1).
      pose proof (derives_nonneg _ _ _ Hd1) as Hf1.
      destruct (tokenize (raw_at (lexer_at (pre ++ seg1) rest1))) as [t1|e];
        [|discriminate].
      destruct (starts_group t1).
      * destruct (_parse_molecule d (lexer_at (pre ++ seg1) rest1))
          as [[[inner2|e] l2]|] eqn:Hm; try discriminate.
        destruct (proj1 (parse_invariant d) _ _ _ Hm) as [Hnd2 _].
        destruct (IHm _ _ _ _ Hall1 Hm)
          as (seg2 & rest2 & f2 & -> & -> & Hall2 & Hd2 & Ha2).
        inversion H; subst.
        exists (seg1 ++ seg2), rest2, (fun k => f1 k + f2 k).
        split; [now rewrite app_assoc|]. split; [now rewrite app_assoc|].
        split; [assumption|]. split; [now apply molecule_more|].
        apply agrees_iadd; trivial.
        -- now destruct (Counter_iadd_invariant [] inner (NoDup_nil _)).
        -- now apply agrees_iadd_empty.
        -- exact (derives_nonneg _ _ _ Hd2).
      * inversion H; subst. exists seg1, rest1, f1.
        repeat split; trivial; [now apply molecule_group|].
        now apply agrees_iadd_empty.
    + rewrite parse_group_S in H.
      destruct (tokenize (raw_at (lexer_at pre rest0))) as [t|e] eqn:Htok;
        [|discriminate].
      destruct (token_type t) eqn:Hty; try discriminate.
      * destruct (token_ahead pre rest0 t Hall Htok)
          as (a & rest1 & -> & Ha & Hall1 & ->); [congruence|].
        simpl in Hty. apply lexeme_type_ATOM in Hty. cbn [value] in H.
        rewrite advance_lexer_at in H.
        assert (Hnd : NoDup (keys (Counter_singleton a))).
        { repeat constructor. simpl. tauto. }
        destruct (group_factor_ahead _ _ _ _ _ Hall1 Hnd H)
          as [[-> ->]|(n & rest2 & -> & Hn & Hall2 & -> & Hc)].
        -- exists [a], rest1, (one_atom a). repeat split; trivial.
           ++ now apply group_atom.
           ++ intros k. apply getitem_singleton.
        -- exists [a; n], rest2, (fun k => one_atom a k * decimal_value 0 n).
           split; [reflexivity|]. split; [now rewrite <- app_assoc|].
           split; [assumption|]. split; [now apply group_atom_factor|].
           intros k. now rewrite Hc, getitem_singleton.
      * destruct (token_ahead pre rest0 t Hall Htok)
          as (o & rest1 & -> & Ho & Hall1 & ->); [congruence|].
        simpl in Hty. apply lexeme_type_OPENING in Hty.
        rewrite advance_lexer_at in H.
        destruct (_parse_molecule d (lexer_at (pre ++ [o]) rest1))
          as [[[counter|e] l1]|] eqn:Hm; try discriminate.
        destruct (proj1 (parse_invariant d) _ _ _ Hm) as [Hnd _].
        destruct (IHm _ _ _ _ Hall1 Hm)
          as (m & rest2 & f & -> & -> & Hall2 & Hdm & Ham).
        destruct (group_close counter (lexer_at ((pre ++ [o]) ++ m) rest2))
          as [[[counter'|e] l2]|] eqn:Hc; try discriminate.
        apply group_close_Return in Hc as (-> & -> & tc & Htc & Htyc).
        destruct (token_ahead _ rest2 tc Hall2 Htc)
          as (cl & rest3 & -> & Hcl & Hall3 & ->); [congruence|].
        simpl in Htyc. apply (lexeme_type_CLOSING cl Hcl) in Htyc.
        rewrite advance_lexer_at in H.
        destruct (group_factor_ahead _ _ _ _ _ Hall3 Hnd H)
          as [[-> ->]|(n & rest4 & -> & Hn & Hall4 & -> & Hcn)].
        -- exists (o :: m ++ [cl]), rest3, f.
           split; [simpl; now rewrite <- app_assoc|].
           split; [apply lexer_at_eq; f_equal; now rewrite <- !app_assoc|].
           split; [assumption|]. split; [now apply group_bracket|assumption].
        -- exists (o :: m ++ [cl; n]), rest4, (fun k => f k * decimal_value 0 n).
           split; [simpl; now rewrite <- app_assoc|].
           split; [apply lexer_at_eq; f_equal; now rewrite <- !app_assoc|].
           split; [assumption|]. split; [now apply group_bracket_factor|].
           intros k. now rewrite Hcn, Ham.
Qed.

(** ** Every sentence of the grammar is accepted *)

Lemma tokenize_atom_symbol (a : string) :
  is_atom_symbol a = true -> tokenize a = Return (mkToken a ATOM).
Proof. intros H. now apply tokenize_alpha, atom_symbol_isalpha. Qed.

Lemma tokenize_opening_bracket (o : string) :
  is_opening_bracket o = true -> tokenize o = Return (mkToken o OPENING_BRACKET).
Proof. intros H. now apply tokenize_opening, opening_bracket_cases. Qed.

(** A sentence starts with an atom or an opening bracket. *)
Lemma derives_head (r : Rule) (toks : list string) (f : string -> Z) :
  derives r toks f ->
  exists x xs t,
    toks = x :: xs /\ tokenize x = Return t /\ starts_group t = true.
Proof.
  induction 1.
  - exists a, [], (mkToken a ATOM). auto using tokenize_atom_symbol.
  - exists a, [n], (mkToken a ATOM). auto using tokenize_atom_symbol.
  - exists o, (m ++ [c]), (mkToken o OPENING_BRACKET).
    auto using tokenize_opening_bracket.
  - exists o, (m ++ [c; n]), (mkToken o OPENING_BRACKET).
    auto using tokenize_opening_bracket.
  - assumption.
  - destruct IHderives1 as (x & xs & t & -> & Ht & Hs).
    exists x, (xs ++ m), t. auto.
Qed.

Lemma follows_weaken (r : Rule) (rest : list string) :
  follows MOLECULE rest -> follows r rest.
Proof.
  intros (t & Ht & Hf & Hs). exists t. split; [assumption|]. split; [assumption|].
  intros _. now apply Hs.
Qed.

Lemma follows_sentence (r : Rule) (m rest : list string) (f : string -> Z) :
  derives r m f -> follows GROUP (m ++ rest).
Proof.
  intros H. destruct (derives_head _ _ _ H) as (x & xs & t & -> & Ht & Hs).
  exists t. simpl. split; [assumption|]. split; [|discriminate].
  unfold starts_group in Hs. destruct (token_type t); discriminate.
Qed.

Lemma follows_closing (r : Rule) (c : string) (rest : list string) :
  is_closing_bracket c = true -> follows r (c :: rest).
Proof.
  intros Hc. exists (mkToken c CLOSING_BRACKET). simpl.
  split; [now apply tokenize_closing_ok|]. split; [discriminate|reflexivity].
Qed.

Lemma follows_nil (r : Rule) : follows r [].
Proof.
  exists (mkToken "" EOF). simpl. split; [reflexivity|].
  split; [discriminate|reflexivity].
Qed.

Lemma group_factor_follows (r : Rule) (pre rest : list string) (counter : Counter) :
  follows r rest ->
  group_factor counter (lexer_at pre rest) = Some (Return counter, lexer_at pre rest).
Proof.
  intros (t & Ht & Hf & _). unfold group_factor.
  rewrite raw_at_lexer_at, Ht. destruct (token_type t); try reflexivity.
  contradiction.
Qed.

Lemma group_factor_decimal (pre rest : list string) (n : string) (counter : Counter) :
  isdecimal n = true -> NoDup (keys counter) ->
  exists c,
    group_factor counter (lexer_at pre (n :: rest)) =
    Some (Return c, lexer_at (pre ++ [n]) rest) /\
    forall k, counter_getitem c k = counter_getitem counter k * decimal_value 0 n.
Proof.
  intros Hn Hnd. unfold group_factor.
  rewrite raw_at_lexer_at. cbn [hd]. rewrite (tokenize_decimal n Hn).
  cbn [token_type value]. destruct (int_decimal n Hn) as [-> _].
  rewrite advance_lexer_at. eexists. split; [reflexivity|].
  intros k. destruct (Z.eqb_spec (decimal_value 0 n) 1) as [->|_]; [lia|].
  rewrite scale_in_place_eq by assumption. apply getitem_scale_values.
Qed.

Lemma derives_run (r : Rule) (toks : list string) (f : string -> Z) :
  derives r toks f ->
  forall pre rest, follows r rest ->
  exists d c,
    run r d (lexer_at pre (toks ++ rest)) =
    Some (Return c, lexer_at (pre ++ toks) rest) /\
    agrees c f.
Proof.
  induction 1 as [a Ha|a n Ha Hn|o c m f Ho Hc Hm IH|o c n m f Ho Hc Hn Hm IH
                 |g f Hg IH|g m f h Hg IHg Hm IHm];
    intros pre rest Hfol; cbn [run] in *.
  - exists 1%nat, (Counter_singleton a).
    rewrite parse_group_S, raw_at_lexer_at. cbn [app hd].
    rewrite (tokenize_atom_symbol a Ha). cbn [token_type value].
    rewrite advance_lexer_at, (group_factor_follows _ _ _ _ Hfol).
    split; [reflexivity|]. intros k. apply getitem_singleton.
  - assert (Hnd : NoDup (keys (Counter_singleton a))).
    { repeat constructor. simpl. tauto. }
    destruct (group_factor_decimal (pre ++ [a]) rest n (Counter_singleton a) Hn Hnd)
      as (c & Hf & Hc).
    exists 1%nat, c.
    rewrite parse_group_S, raw_at_lexer_at. cbn [app hd].
    rewrite (tokenize_atom_symbol a Ha). cbn [token_type value].
    rewrite advance_lexer_at, Hf.
    split; [f_equal; f_equal; apply lexer_at_eq; f_equal;
            now rewrite <- !app_assoc|].
    intros k. now rewrite Hc, getitem_singleton.
  - destruct (IH (pre ++ [o]) (c :: rest) (follows_closing _ c rest Hc))
      as (d & counter & Hrun & Hag).
    exists (S d), counter.
    replace ((o :: m ++ [c]) ++ rest) with (o :: m ++ c :: rest)
      by (simpl; now rewrite <- app_assoc).
    rewrite parse_group_S, raw_at_lexer_at. cbn [hd].
    rewrite (tokenize_opening_bracket o Ho). cbn [token_type].
    rewrite advance_lexer_at, Hrun. unfold group_close.
    rewrite raw_at_lexer_at. cbn [hd].
    rewrite (tokenize_closing_ok c Hc). cbn [token_type].
    rewrite advance_lexer_at, (group_factor_follows _ _ _ _ Hfol).
    split; [f_equal; f_equal; apply lexer_at_eq; f_equal;
            now rewrite <- !app_assoc|assumption].
  - destruct (IH (pre ++ [o]) (c :: n :: rest) (follows_closing _ c _ Hc))
      as (d & counter & Hrun & Hag).
    destruct (proj1 (parse_invariant d) _ _ _ Hrun) as [Hnd _].
    destruct (group_factor_decimal (((pre ++ [o]) ++ m) ++ [c]) rest n counter Hn Hnd)
      as (c' & Hf & Hc').
    exists (S d), c'.
    replace ((o :: m ++ [c; n]) ++ rest) with (o :: m ++ c :: n :: rest)
      by (simpl; now rewrite <- app_assoc).
    rewrite parse_group_S, raw_at_lexer_at. cbn [hd].
    rewrite (tokenize_opening_bracket o Ho). cbn [token_type].
    rewrite advance_lexer_at, Hrun. unfold group_close.
    rewrite raw_at_lexer_at. cbn [hd].
    rewrite (tokenize_closing_ok c Hc). cbn [token_type].
    rewrite advance_lexer_at, Hf.
    split; [f_equal; f_equal; apply lexer_at_eq; f_equal;
            now rewrite <- !app_assoc|].
    intros k. now rewrite Hc', Hag.
  - destruct (IH pre rest (follows_weaken GROUP rest Hfol))
      as (d & inner & Hrun & Hag).
    destruct (proj2 (parse_invariant d) _ _ _ Hrun) as [Hnd _].
    destruct (derives_head _ _ _ Hg) as (x & xs & t & -> & Ht & Hs).
    destruct Hfol as (t' & Ht' & _ & Hs'). specialize (Hs' eq_refl).
    exists (S d), (Counter_iadd [] inner).
    rewrite parse_molecule_S, raw_at_lexer_at. cbn [app hd] in *.
    rewrite Ht, Hs, Hrun, raw_at_lexer_at, Ht', Hs'.
    split; [reflexivity|].
    apply agrees_iadd_empty; trivial. exact (derives_nonneg _ _ _ Hg).
  - destruct (IHg pre (m ++ rest) (follows_sentence _ m rest h Hm))
      as (d1 & inner & Hrun1 & Hag1).
    destruct (IHm (pre ++ g) rest Hfol) as (d2 & inner2 & Hrun2 & Hag2).
    destruct (proj2 (parse_invariant d1) _ _ _ Hrun1) as [Hnd1 _].
    destruct (proj1 (parse_invariant d2) _ _ _ Hrun2) as [Hnd2 _].
    apply (proj2 (parse_depth_mono d1) _ _ (Nat.max d1 d2)) in Hrun1; [|lia].
    apply (proj1 (parse_depth_mono d2) _ _ (Nat.max d1 d2)) in Hrun2; [|lia].
    destruct (derives_head _ _ _ Hg) as (x & xs & t & -> & Ht & Hs).
    destruct (derives_head _ _ _ Hm) as (y & ys & ty & -> & Hty & Hsy).
    exists (S (Nat.max d1 d2)), (Counter_iadd (Counter_iadd [] inner) inner2).
    rewrite <- app_assoc. rewrite <- app_assoc in Hrun2.
    rewrite parse_molecule_S, raw_at_lexer_at. cbn [app hd] in *.
    rewrite Ht, Hs, Hrun1, raw_at_lexer_at. cbn [app hd].
    rewrite Hty, Hsy, Hrun2.
    split; [f_equal; f_equal; apply lexer_at_eq; f_equal;
            now rewrite <- !app_assoc|].
    apply agrees_iadd; trivial.
    + now destruct (Counter_iadd_invariant [] inner (NoDup_nil _)).
    + apply agrees_iadd_empty; trivial. exact (derives_nonneg _ _ _ Hg).
    + exact (derives_nonneg _ _ _ Hg).
    + exact (derives_nonneg _ _ _ Hm).
Qed.

(** ** The formulas the parser accepts, and the counts it gives them *)

(** After a parse that returns, nothing is ahead of the cursor. *)
Lemma parse_Return_all_consumed (formula : string) (d : dict) (self' : Parser) :
  parse formula = Some (Return d, self') ->
  exists f,
    derives MOLECULE (Pattern.findall formula) f /\ agrees d f /\
    self' = {| _lexer := lexer_at (Pattern.findall formula) [];
               _result := Some d |}.
Proof.
  intros H. apply parse_Return_inv in H as (l & token & Hm & Htok & Hty & ->).
  unfold parse_molecule in Hm. rewrite Lexer_init_lexer_at in Hm.
  destruct (proj1 (parse_derives _) _ _ _ _ (findall_lexemes formula) Hm)
    as (seg & rest & f & Hsplit & -> & Hall & Hd & Ha).
  destruct rest as [|x rest].
  - rewrite app_nil_r in Hsplit. subst seg. exists f. auto.
  - exfalso. rewrite raw_at_lexer_at in Htok. simpl in Htok.
    inversion Hall as [|? ? Hx _]; subst.
    rewrite (tokenize_lexeme x Hx) in Htok. inversion Htok; subst.
    simpl in Hty. now apply lexeme_type_not_eof in Hty.
Qed.

Lemma parse_Return_derives (formula : string) (d : dict) (self' : Parser) :
  parse formula = Some (Return d, self') ->
  exists f, derives MOLECULE (Pattern.findall formula) f /\ agrees d f.
Proof.
  intros H. destruct (parse_Return_all_consumed _ _ _ H) as (f & Hd & Ha & _).
  eauto.
Qed.

(** X1: a formula that [parse_formula] accepts is a sentence of the grammar
    of the module, and the mapping returned gives every atom the number of
    its occurrences, each multiplied by the factors of the groups around
    it. *)
Theorem parse_sound (formula : string) (d : dict) (self' : Parser) :
  parse formula = Some (Return d, self') ->
  exists f, derives MOLECULE (Pattern.findall formula) f /\ agrees d f.
Proof.
  intros H. destruct (parse_Return_all_consumed _ _ _ H) as (f & Hd & Ha & _).
  exists f. split; assumption.
Qed.

Lemma parse_sound_witness :
  exists f,
    derives MOLECULE (Pattern.findall "H2(OH)3") f /\
    agrees [("H", 5); ("O", 3)]%string f.
Proof.
  eapply (parse_sound "H2(OH)3"). vm_compute. reflexivity.
Defined.

Lemma derives_parse_state (formula : string) (f : string -> Z) :
  derives MOLECULE (Pattern.findall formula) f ->
  exists d,
    parse formula =
    Some (Return d, {| _lexer := lexer_at (Pattern.findall formula) [];
                       _result := Some d |}) /\
    agrees d f.
Proof.
  intros H.
  destruct (derives_run _ _ _ H [] [] (follows_nil _)) as (depth & c & Hrun & Ha).
  cbn [run app] in Hrun. rewrite app_nil_r in Hrun.
  exists c. split; [|exact Ha].
  unfold parse. rewrite parse_formula_fresh by reflexivity.
  cbn [_lexer Parser_init]. rewrite Lexer_init_lexer_at.
  rewrite (parse_molecule_at_depth _ _ _ Hrun). cbv zeta.
  rewrite raw_at_lexer_at. reflexivity.
Qed.

Lemma derives_parse (formula : string) (f : string -> Z) :
  derives MOLECULE (Pattern.findall formula) f ->
  exists d self', parse formula = Some (Return d, self') /\ agrees d f.
Proof.
  intros H. destruct (derives_parse_state _ _ H) as (d & Hp & Ha). eauto.
Qed.

(** X2: every formula whose substrings form a sentence of the grammar is
    accepted, with the counts of the sentence. *)
Theorem parse_complete (formula : string) (f : string -> Z) :
  derives MOLECULE (Pattern.findall formula) f ->
  exists d self', parse formula = Some (Return d, self') /\ agrees d f.
Proof.
  intros H. destruct (derives_parse_state _ _ H) as (d & Hp & Ha).
  exists d. eexists. split; [exact Hp|exact Ha].
Qed.

Lemma parse_complete_witness :
  exists d self',
    parse "H2O" = Some (Return d, self') /\
    agrees d (fun k => one_atom "H" k * decimal_value 0 "2" + one_atom "O" k).
Proof.
  apply (parse_complete "H2O").
  change (Pattern.findall "H2O") with (["H"; "2"] ++ ["O"])%list.
  apply molecule_more.
  - apply group_atom_factor; reflexivity.
  - apply molecule_group, group_atom. reflexivity.
Defined.

(** X3: a parse that returns has consumed every substring: the cursor of the
    lexer is the number of substrings, the substrings are untouched, and the
    mapping is stored in the parser. *)
Theorem parse_consumes_everything (formula : string) (d : dict) (self' : Parser) :
  parse formula = Some (Return d, self') ->
  position (_lexer self') = Z.of_nat (List.length (Pattern.findall formula)) /\
  _tokens (_lexer self') = Pattern.findall formula /\
  _result self' = Some d /\
  peek (_lexer self') = Some (Return (mkToken "" EOF), _lexer self').
Proof.
  intros H. destruct (parse_Return_all_consumed _ _ _ H) as (f & _ & _ & ->).
  cbn [_lexer _result]. rewrite peek_eq, raw_at_lexer_at.
  unfold lexer_at. cbn [_tokens position]. rewrite app_nil_r. auto.
Qed.

Lemma parse_consumes_everything_witness :
  exists self',
    parse "Mg2[CH4]3" = Some (Return [("Mg", 2); ("C", 3); ("H", 12)]%string, self') /\
    position (_lexer self') = 8.
Proof.
  eexists. split; [vm_compute; reflexivity|].
  refine (proj1 (parse_consumes_everything "Mg2[CH4]3" _ _ _)).
  vm_compute. reflexivity.
Defined.

(** ** Lexing a concatenation *)

Local Open Scope string_scope.

Lemma span_decimal_boundary (s t ds r : string) :
  starts_decimal t = false ->
  Pattern.span_decimal s = (ds, r) ->
  Pattern.span_decimal (s ++ t) = (ds, r ++ t).
Proof.
  intros Ht. revert ds r. induction s as [|a s IH]; simpl; intros ds r H.
  - inversion H; subst. destruct t as [|c t]; [reflexivity|].
    simpl in Ht. simpl. now rewrite Ht.
  - destruct (Char.isdecimal a).
    + destruct (Pattern.span_decimal s) as [ds' r'].
      rewrite (IH _ _ eq_refl). inversion H; subst. reflexivity.
    + inversion H; subst. reflexivity.
Qed.

Lemma append_empty_r (s : string) : s ++ "" = s.
Proof. induction s as [|c s IH]; simpl; congruence. Qed.

Lemma append_assoc (s t u : string) : (s ++ t) ++ u = s ++ t ++ u.
Proof. induction s as [|c s IH]; simpl; congruence. Qed.

(** What matches at the head of [s] matches at the head of [s ++ t], with
    the same span, when [t] starts with neither a small letter nor a
    digit. *)
Lemma match_here_boundary (s t : string) :
  starts_lower t = false -> starts_decimal t = false -> s <> "" ->
  Pattern.match_here (s ++ t) =
  match Pattern.match_here s with
  | Some (tok, r) => Some (tok, r ++ t)
  | None => None
  end.
Proof.
  intros Hl Hd Hs. destruct s as [|a s]; [congruence|].
  unfold Pattern.match_here.
  assert (Hatom : Pattern.match_atom (String a s ++ t) =
                  match Pattern.match_atom (String a s) with
                  | Some (tok, r) => Some (tok, r ++ t)
                  | None => None
                  end).
  { simpl. destruct (Char.is_upper a); [|reflexivity].
    destruct s as [|b s]; simpl.
    - destruct t as [|c t]; [reflexivity|]. simpl in Hl. now rewrite Hl.
    - destruct (Char.is_lower b); reflexivity. }
  rewrite Hatom.
  destruct (Pattern.match_atom (String a s)) as [[tok r]|]; [reflexivity|].
  unfold Pattern.match_factor.
  destruct (Pattern.span_decimal (String a s)) as [ds r] eqn:Hspan.
  rewrite (span_decimal_boundary _ t _ _ Hd Hspan).
  destruct ds as [|b ds]; [|reflexivity].
  simpl. destruct (Char.is_bracket a); reflexivity.
Qed.

(** The substrings of [s ++ t] are those of [s], then those of [t], when [t]
    starts with neither a small letter nor a digit. *)
Lemma findall_boundary (s t : string) :
  starts_lower t = false -> starts_decimal t = false ->
  Pattern.findall (s ++ t) = (Pattern.findall s ++ Pattern.findall t)%list.
Proof.
  intros Hl Hd. remember (String.length s) as n eqn:Hn.
  revert s Hn. induction n as [n IH] using lt_wf_ind. intros s Hn.
  destruct s as [|a s]; [rewrite (findall_unfold ""); reflexivity|].
  rewrite (findall_unfold (String a s ++ t)), (findall_unfold (String a s)).
  rewrite match_here_boundary by (assumption || discriminate).
  change (String a s ++ t) with (String a (s ++ t)).
  destruct (Pattern.match_here (String a s)) as [[tok r]|] eqn:Hh.
  - apply match_here_Some in Hh as (_ & _ & Hlen).
    rewrite (IH (String.length r)); [reflexivity| |reflexivity].
    subst n. exact Hlen.
  - apply (IH (String.length s)); [|reflexivity]. subst n. simpl. lia.
Qed.

(** A formula that starts with a digit has a factor for first substring. *)
Lemma findall_starts_decimal (s : string) :
  starts_decimal s = true ->
  exists n rest, Pattern.findall s = (n :: rest)%list /\ isdecimal n = true.
Proof.
  destruct s as [|c s]; [discriminate|]. simpl. intros Hc.
  rewrite findall_unfold. unfold Pattern.match_here. simpl Pattern.match_atom.
  rewrite (decimal_not_upper c Hc).
  destruct (Pattern.match_factor (String c s)) as [[tok r]|] eqn:Hf.
  - apply match_factor_Some in Hf as [Htok _]. eauto.
  - exfalso. unfold Pattern.match_factor in Hf. simpl in Hf. rewrite Hc in Hf.
    destruct (Pattern.span_decimal s). discriminate.
Qed.

Local Open Scope list_scope.
Local Open Scope Z_scope.

(** ** Concatenation adds the counts *)

Lemma derives_molecule_app (r : Rule) (m m' : list string) (f h : string -> Z) :
  derives r m f -> r = MOLECULE -> derives MOLECULE m' h ->
  exists f', derives MOLECULE (m ++ m') f' /\ forall k, f' k = f k + h k.
Proof.
  induction 1 as [| | | |g f Hg _|g m f f1 Hg _ Hm IH]; try discriminate;
    intros _ Hm'.
  - exists (fun k => f k + h k). split; [now apply molecule_more|reflexivity].
  - destruct (IH eq_refl Hm') as (f' & Hd & Hf).
    exists (fun k => f k + f' k). rewrite <- app_assoc.
    split; [now apply molecule_more|]. intros k. rewrite Hf. lia.
Qed.

Lemma parse_not_starts_decimal (formula : string) (d : dict) (self' : Parser) :
  parse formula = Some (Return d, self') -> starts_decimal formula = false.
Proof.
  intros H. destruct (starts_decimal formula) eqn:Hs; [exfalso|reflexivity].
  destruct (parse_Return_derives _ _ _ H) as (f & Hd & _).
  destruct (derives_head _ _ _ Hd) as (x & xs & t & Hx & Ht & Hst).
  destruct (findall_starts_decimal _ Hs) as (n & rest & Hn & Hdec).
  rewrite Hn in Hx. inversion Hx; subst.
  rewrite (tokenize_decimal x Hdec) in Ht. inversion Ht; subst. discriminate.
Qed.

(** X4: when the formulas [A] and [B] are accepted and [B] does not start
    with a small letter, [A ++ B] is accepted and gives every atom the sum
    of its counts in [A] and in [B]. *)
Theorem concatenation_adds (A B : string) (dA dB : dict) (sA sB : Parser) :
  parse A = Some (Return dA, sA) ->
  parse B = Some (Return dB, sB) ->
  starts_lower B = false ->
  exists d s,
    parse (A ++ B) = Some (Return d, s) /\
    forall k, counter_getitem d k = counter_getitem dA k + counter_getitem dB k.
Proof.
  intros HA HB Hl.
  pose proof (parse_not_starts_decimal _ _ _ HB) as Hd.
  destruct (parse_Return_derives _ _ _ HA) as (fA & HdA & HaA).
  destruct (parse_Return_derives _ _ _ HB) as (fB & HdB & HaB).
  destruct (derives_molecule_app _ _ _ _ _ HdA eq_refl HdB) as (f & Hf & Hsum).
  rewrite <- (findall_boundary A B Hl Hd) in Hf.
  destruct (derives_parse _ _ Hf) as (d & s & Hparse & Ha).
  exists d, s. split; [assumption|].
  intros k. now rewrite Ha, Hsum, HaA, HaB.
Qed.

Lemma concatenation_adds_witness :
  exists d s,
    parse ("H2O" ++ "(OH)2") = Some (Return d, s) /\
    forall k,
      counter_getitem d k =
      counter_getitem [("H", 2); ("O", 1)] k + counter_getitem [("O", 2); ("H", 2)] k.
Proof.
  eapply (concatenation_adds "H2O" "(OH)2");
    [vm_compute; reflexivity|vm_compute; reflexivity|reflexivity].
Defined.

(** ** The errors of a parse *)

Lemma tokenize_raw_at_ok (l : Lexer) :
  Forall (fun tok => is_lexeme tok = true) (_tokens l) ->
  exists t, tokenize (raw_at l) = Return t.
Proof.
  intros Hall. unfold raw_at.
  destruct (list_getitem (_tokens l) (position l)) as [raw|] eqn:Hget.
  - apply list_getitem_In in Hget. rewrite Forall_forall in Hall.
    rewrite (tokenize_lexeme raw (Hall _ Hget)). eauto.
  - exists (mkToken "" EOF). reflexivity.
Qed.

Lemma tokenize_FACTOR (s : string) (t : Token) :
  tokenize s = Return t -> token_type t = FACTOR -> isdecimal (value t) = true.
Proof.
  unfold tokenize.
  repeat match goal with
         | |- context [if ?b then _ else _] => destruct b eqn:?
         end; intros H; inversion H; subst; simpl; auto; discriminate.
Qed.

Lemma group_factor_never_raises (counter : Counter) (l l' : Lexer) (e : Exception) :
  Forall (fun tok => is_lexeme tok = true) (_tokens l) ->
  group_factor counter l <> Some (Raise e, l').
Proof.
  intros Hall. unfold group_factor.
  destruct (tokenize_raw_at_ok l Hall) as (t & Ht). rewrite Ht.
  destruct (token_type t) eqn:Hty; try discriminate.
  unfold int. now rewrite (tokenize_FACTOR _ _ Ht Hty).
Qed.

Lemma group_close_raises (counter : Counter) (l l' : Lexer) (e : Exception) :
  Forall (fun tok => is_lexeme tok = true) (_tokens l) ->
  group_close counter l = Some (Raise e, l') ->
  exists t p, e = ParsingException t p.
Proof.
  intros Hall. unfold group_close.
  destruct (tokenize_raw_at_ok l Hall) as (t & Ht). rewrite Ht.
  destruct (token_type t); intros H; inversion H; subst; eauto.
Qed.

Lemma parse_raises_grammar_errors (d : nat) :
  (forall l e l',
     Forall (fun tok => is_lexeme tok = true) (_tokens l) ->
     _parse_molecule d l = Some (Raise e, l') ->
     exists t p, e = ParsingException t p) /\
  (forall l e l',
     Forall (fun tok => is_lexeme tok = true) (_tokens l) ->
     _parse_group d l = Some (Raise e, l') ->
     exists t p, e = ParsingException t p).
Proof.
  induction d as [|d [IHm IHg]].
  - split; intros; discriminate.
  - split; intros l e l' Hall H.
    + rewrite parse_molecule_S in H.
      destruct (tokenize_raw_at_ok l Hall) as (t & Ht). rewrite Ht in H.
      destruct (starts_group t); [|inversion H; subst; eauto].
      destruct (_parse_group d l) as [[[inner|e1] l1]|] eqn:Hg; try discriminate.
      2:{ inversion H; subst. eapply IHg; eauto. }
      assert (Hall1 : Forall (fun tok => is_lexeme tok = true) (_tokens l1)).
      { apply parse_group_consumed in Hg as [-> _]. assumption. }
      destruct (tokenize_raw_at_ok l1 Hall1) as (t1 & Ht1). rewrite Ht1 in H.
      destruct (starts_group t1); [|discriminate].
      destruct (_parse_molecule d l1) as [[[inner2|e2] l2]|] eqn:Hm;
        try discriminate.
      inversion H; subst. eapply IHm; eauto.
    + rewrite parse_group_S in H.
      destruct (tokenize_raw_at_ok l Hall) as (t & Ht). rewrite Ht in H.
      destruct (token_type t); try (inversion H; subst; eauto; fail).
      * now apply group_factor_never_raises in H.
      * destruct (_parse_molecule d (advance l)) as [[[counter|e1] l1]|] eqn:Hm;
          try discriminate.
        2:{ inversion H; subst. eapply (IHm (advance l)); eauto. }
        assert (Hall1 : Forall (fun tok => is_lexeme tok = true) (_tokens l1)).
        { apply parse_molecule_consumed in Hm as [-> _]. assumption. }
        destruct (group_close counter l1) as [[[counter'|e2] l2]|] eqn:Hc;
          try discriminate.
        -- apply group_close_Return in Hc as (-> & -> & _).
           now apply group_factor_never_raises in H.
        -- inversion H; subst. eapply group_close_raises; eauto.
Qed.

(** X5: on every formula [parse_formula] returns a mapping or raises
    [ParsingException]; it never raises [TokenizerException] or
    [ValueError], whatever the characters of the formula (the limits of
    the interpreter on the depth of the calls and on the digits of an
    integer set aside, as everywhere in this file). *)
Theorem parse_returns_or_grammar_error (formula : string) :
  (exists d self', parse formula = Some (Return d, self')) \/
  (exists t p self', parse formula = Some (Raise (ParsingException t p), self')).
Proof.
  unfold parse. rewrite parse_formula_fresh by reflexivity.
  cbn [_lexer Parser_init].
  destruct (parse_molecule_total (Lexer_init formula)) as (r & l & Hm & Hc).
  rewrite Hm. destruct r as [counter|e].
  - cbv zeta.
    assert (Hall : Forall (fun tok => is_lexeme tok = true) (_tokens l)).
    { destruct Hc as [-> _]. apply findall_lexemes. }
    destruct (tokenize_raw_at_ok l Hall) as (t & ->).
    destruct (token_type t); eauto 6.
  - right. unfold parse_molecule in Hm.
    destruct (proj1 (parse_raises_grammar_errors _) (Lexer_init formula) _ _
                (findall_lexemes formula) Hm) as (t & p & ->).
    eauto.
Qed.

Lemma parse_Return_in_bounds (d : nat) :
  (forall l c l', in_bounds l -> _parse_molecule d l = Some (Return c, l') ->
                  in_bounds l') /\
  (forall l c l', in_bounds l -> _parse_group d l = Some (Return c, l') ->
                  in_bounds l').
Proof.
  destruct (parse_inside [] ")"%string [] eq_refl d) as [Hm Hg].
  split; intros l c l' Hb H.
  - now destruct (Hm l c l' Hb H).
  - now destruct (Hg l c l' Hb H).
Qed.

Lemma group_factor_step (counter : Counter) (l l' : Lexer) (r : result Counter) :
  group_factor counter l = Some (r, l') -> position l' <= position l + 1.
Proof.
  unfold group_factor.
  destruct (tokenize (raw_at l)) as [t|e].
  - destruct (token_type t);
      try (intros H; inversion H; subst; lia).
    destruct (int (value t)); intros H; inversion H; subst; simpl; lia.
  - intros H; inversion H; subst; lia.
Qed.

Lemma group_close_step (counter : Counter) (l l' : Lexer) (r : result Counter) :
  group_close counter l = Some (r, l') -> position l' <= position l + 1.
Proof.
  unfold group_close.
  destruct (tokenize (raw_at l)) as [t|e].
  - destruct (token_type t); intros H; inversion H; subst; simpl; lia.
  - intros H; inversion H; subst; lia.
Qed.

Lemma parse_Raise_cursor (d : nat) :
  (forall l e l', in_bounds l -> _parse_molecule d l = Some (Raise e, l') ->
                  position l' <= Z.of_nat (List.length (_tokens l)) + 1) /\
  (forall l e l', in_bounds l -> _parse_group d l = Some (Raise e, l') ->
                  position l' <= Z.of_nat (List.length (_tokens l)) + 1).
Proof.
  induction d as [|d [IHm IHg]].
  - split; intros; discriminate.
  - split; intros l e l' Hb H; pose proof Hb as [Hlo Hhi].
    + rewrite parse_molecule_S in H.
      destruct (tokenize (raw_at l)) as [t|e0]; [|inversion H; subst; lia].
      destruct (starts_group t); [|inversion H; subst; lia].
      destruct (_parse_group d l) as [[[inner|e1] l1]|] eqn:Hg; try discriminate.
      2:{ inversion H; subst. eapply IHg; eauto. }
      pose proof (proj2 (parse_Return_in_bounds d) _ _ _ Hb Hg) as Hb1.
      pose proof (parse_group_consumed _ _ _ _ Hg) as [Ht1 _].
      destruct Hb1 as [Hlo1 Hhi1]. rewrite Ht1 in Hhi1.
      destruct (tokenize (raw_at l1)) as [t1|e0]; [|inversion H; subst; lia].
      destruct (starts_group t1); [|discriminate].
      destruct (_parse_molecule d l1) as [[[inner2|e2] l2]|] eqn:Hm;
        try discriminate.
      inversion H; subst. rewrite <- Ht1. eapply IHm; eauto.
      split; [assumption|]. now rewrite Ht1.
    + rewrite parse_group_S in H.
      destruct (tokenize (raw_at l)) as [t|e0] eqn:Htok; [|inversion H; subst; lia].
      destruct (token_type t) eqn:Hty; try (inversion H; subst; lia).
      * assert (Hlt : position l < Z.of_nat (List.length (_tokens l))).
        { apply (token_in_range l t Htok). congruence. }
        apply group_factor_step in H. simpl in H. lia.
      * assert (Hlt : position l < Z.of_nat (List.length (_tokens l))).
        { apply (token_in_range l t Htok). congruence. }
        pose proof (in_bounds_advance l Hb Hlt) as Hba.
        destruct (_parse_molecule d (advance l)) as [[[counter|e1] l1]|] eqn:Hm;
          try discriminate.
        2:{ inversion H; subst. exact (proj1 (conj (IHm _ _ _ Hba Hm) I)). }
        pose proof (proj1 (parse_Return_in_bounds d) _ _ _ Hba Hm) as [Hlo1 Hhi1].
        pose proof (parse_molecule_consumed _ _ _ _ Hm) as [Ht1 _].
        simpl in Ht1. rewrite Ht1 in Hhi1.
        destruct (group_close counter l1) as [[[counter'|e2] l2]|] eqn:Hc;
          try discriminate.
        -- pose proof Hc as Hc'.
           apply group_close_Return in Hc' as (-> & -> & tc & Htc & Htyc).
           assert (Hlt1 : position l1 < Z.of_nat (List.length (_tokens l1))).
           { apply (token_in_range l1 tc Htc). congruence. }
           rewrite Ht1 in Hlt1.
           apply group_factor_step in H. simpl in H. lia.
        -- inversion H; subst. apply group_close_step in Hc. lia.
Qed.

Lemma raw_at_past_end (l : Lexer) :
  Z.of_nat (List.length (_tokens l)) <= position l -> raw_at l = ""%string.
Proof.
  intros H. unfold raw_at. now rewrite list_getitem_past_end.
Qed.

Lemma parse_error_points_at (formula : string) (t : Token) (pos : Z) (self' : Parser) :
  parse formula = Some (Raise (ParsingException t pos), self') ->
  error_points_at (_lexer self') t pos /\
  _tokens (_lexer self') = Pattern.findall formula /\
  0 <= position (_lexer self') <= Z.of_nat (List.length (Pattern.findall formula)) + 1.
Proof.
  unfold parse. rewrite parse_formula_fresh by reflexivity.
  cbn [_lexer Parser_init].
  assert (Hb0 : in_bounds (Lexer_init formula)).
  { unfold in_bounds. simpl. lia. }
  destruct (parse_molecule (Lexer_init formula)) as [[[counter|e] l]|] eqn:Hm;
    [| |discriminate]; unfold parse_molecule in Hm;
    pose proof (parse_molecule_consumed _ _ _ _ Hm) as (Htoks & Hpos & _);
    simpl in Htoks, Hpos.
  - pose proof (proj1 (parse_Return_in_bounds _) _ _ _ Hb0 Hm) as [_ Hhi].
    rewrite Htoks in Hhi. cbv zeta.
    destruct (tokenize (raw_at l)) as [t0|e] eqn:Htok.
    + destruct (token_type t0); intros H; inversion H; subst; cbn [_lexer];
        (split; [split; [reflexivity|left; now apply token_at_cursor]|]);
        (split; [assumption|lia]).
    + intros H; inversion H; subst. now apply tokenize_no_grammar_error in Htok.
  - intros H; inversion H; subst. cbn [_lexer].
    split; [eapply (proj1 (parse_error_position _)), Hm|].
    split; [assumption|]. split; [lia|].
    exact (proj1 (parse_Raise_cursor _) _ _ _ Hb0 Hm).
Qed.

(** X6: the position a grammar error carries is the cursor the lexer is left
    with; it lies between 0 and the number of substrings plus one, and it is
    the number of substrings plus one only for the end of input consumed in
    place of a closing bracket. *)
Theorem grammar_error_position
  (formula : string) (t : Token) (pos : Z) (self' : Parser) :
  parse formula = Some (Raise (ParsingException t pos), self') ->
  pos = position (_lexer self') /\
  0 <= pos <= Z.of_nat (List.length (Pattern.findall formula)) + 1 /\
  (pos = Z.of_nat (List.length (Pattern.findall formula)) + 1 ->
   t = mkToken "" EOF).
Proof.
  intros H. destruct (parse_error_points_at _ _ _ _ H) as ([Hpos Hat] & Htoks & Hb).
  split; [assumption|]. split; [now rewrite Hpos|].
  intros Hend. unfold token_at in Hat. rewrite Htoks in Hat.
  destruct Hat as [Hat|[Hat _]];
    rewrite raw_at_past_end in Hat by (cbn [position _tokens]; lia);
    now inversion Hat.
Qed.

Lemma grammar_error_position_witness :
  exists self',
    parse "H2(OH" = Some (Raise (ParsingException (mkToken "" EOF) 6), self') /\
    6 = position (_lexer self') /\
    0 <= 6 <= Z.of_nat (List.length (Pattern.findall "H2(OH")) + 1.
Proof.
  eexists. split; [vm_compute; reflexivity|].
  pose proof (grammar_error_position "H2(OH" (mkToken "" EOF) 6 _ eq_refl) as H.
  destruct H as (H1 & H2 & _). split; [exact H1|exact H2].
Defined.

(** ** Brackets that do not match up *)

Lemma closing_is_bracket (c : ascii) :
  Char.is_closing c = true -> Char.is_bracket c = true.
Proof. intros H. unfold Char.is_bracket. rewrite H. apply orb_true_r. Qed.

Lemma opening_is_bracket (o : ascii) :
  Char.is_opening o = true -> Char.is_bracket o = true.
Proof. intros H. unfold Char.is_bracket. now rewrite H. Qed.

(** X7: an accepted formula followed by a closing bracket (and by anything
    after it) raises the grammar error of that bracket, at the index of the
    bracket; the cursor stays on the bracket, and the mapping of the formula
    is already stored in the parser. *)
Theorem stray_closing_bracket
  (M n : string) (c : ascii) (d : dict) (self' : Parser) :
  parse M = Some (Return d, self') ->
  Char.is_closing c = true ->
  parse (M ++ String c n) =
  Some (Raise (ParsingException
                 (mkToken (String c "") CLOSING_BRACKET)
                 (Z.of_nat (List.length (Pattern.findall M)))),
        {| _lexer := {| _tokens := Pattern.findall (M ++ String c n);
                        position := Z.of_nat (List.length (Pattern.findall M)) |};
           _result := Some d |}).
Proof.
  intros Hparse Hc.
  apply parse_Return_inv in Hparse as (l & token & Hm & Htok & Hty & _).
  unfold parse_molecule in Hm.
  assert (Hb0 : in_bounds (Lexer_init M)) by (unfold in_bounds; simpl; lia).
  destruct (proj1 (parse_inside [] (String c "") (Pattern.findall n) Hc _)
              _ _ _ Hb0 Hm) as [Hb Hin].
  pose proof (parse_molecule_consumed _ _ _ _ Hm) as [Htoks _]. simpl in Htoks.
  assert (Hend : position l = Z.of_nat (List.length (_tokens l))).
  { apply (eof_at_end l token); trivial. rewrite Htoks. apply findall_lexemes. }
  assert (Hlex : Pattern.findall (M ++ String c n) =
                 Pattern.findall M ++ String c ""%string :: Pattern.findall n).
  { rewrite (findall_app_bracket M n c (closing_is_bracket c Hc)).
    now rewrite (findall_bracket c n (closing_is_bracket c Hc)). }
  unfold parse. rewrite parse_formula_fresh by reflexivity.
  cbn [_lexer Parser_init].
  assert (Hinit : Lexer_init (M ++ String c n) =
                  embed [] (String c ""%string :: Pattern.findall n) (Lexer_init M)).
  { unfold Lexer_init, embed. cbn [_tokens position app List.length].
    now rewrite Hlex. }
  rewrite Hinit, (parse_molecule_at_depth _ _ _ Hin). cbv zeta.
  rewrite (raw_at_inside_end [] (String c "") (Pattern.findall n) l Hend).
  rewrite (tokenize_closing_ok (String c "") Hc). cbn [token_type].
  unfold embed. cbn [position _tokens app List.length].
  rewrite Hlex, Htoks, Hend, Htoks. reflexivity.
Qed.

Lemma stray_closing_bracket_witness :
  parse ("H2(OH)" ++ String ")" "2") =
  Some (Raise (ParsingException (mkToken ")" CLOSING_BRACKET) 6),
        {| _lexer := {| _tokens := ["H"; "2"; "("; "O"; "H"; ")"; ")"; "2"]%string;
                        position := 6 |};
           _result := Some [("H", 3); ("O", 1)]%string |}).
Proof.
  eapply (stray_closing_bracket "H2(OH)" "2" ")"); [vm_compute|]; reflexivity.
Defined.

(** A molecule that is followed by the start of a group goes on with what
    follows, and fails where that fails. *)
Lemma derives_then_raise (r : Rule) (P : list string) (f : string -> Z) :
  derives r P f -> r = MOLECULE ->
  forall pre rest t d e l',
    tokenize (hd ""%string rest) = Return t -> starts_group t = true ->
    _parse_molecule d (lexer_at (pre ++ P) rest) = Some (Raise e, l') ->
    exists d', _parse_molecule d' (lexer_at pre (P ++ rest)) = Some (Raise e, l').
Proof.
  induction 1 as [| | | |g f Hg _|g m f h Hg _ Hm IH]; try discriminate;
    intros _ pre rest t d e l' Ht Hs Hraise.
  - assert (Hfol : follows GROUP rest).
    { exists t. split; [assumption|]. split; [|discriminate].
      unfold starts_group in Hs. destruct (token_type t); discriminate. }
    destruct (derives_run _ _ _ Hg pre rest Hfol) as (d1 & inner & Hrun & _).
    cbn [run] in Hrun.
    apply (proj2 (parse_depth_mono d1) _ _ (Nat.max d1 d)) in Hrun; [|lia].
    apply (proj1 (parse_depth_mono d) _ _ (Nat.max d1 d)) in Hraise; [|lia].
    destruct (derives_head _ _ _ Hg) as (x & xs & tx & -> & Htx & Hsx).
    exists (S (Nat.max d1 d)).
    rewrite parse_molecule_S, raw_at_lexer_at. cbn [app hd] in *.
    now rewrite Htx, Hsx, Hrun, raw_at_lexer_at, Ht, Hs, Hraise.
  - rewrite app_assoc in Hraise.
    destruct (IH eq_refl (pre ++ g) rest t d e l' Ht Hs Hraise) as (d2 & Hraise2).
    destruct (derives_run _ _ _ Hg pre (m ++ rest) (follows_sentence _ m rest h Hm))
      as (d1 & inner & Hrun & _).
    cbn [run] in Hrun.
    apply (proj2 (parse_depth_mono d1) _ _ (Nat.max d1 d2)) in Hrun; [|lia].
    apply (proj1 (parse_depth_mono d2) _ _ (Nat.max d1 d2)) in Hraise2; [|lia].
    destruct (derives_head _ _ _ Hg) as (x & xs & tx & -> & Htx & Hsx).
    destruct (derives_head _ _ _ Hm) as (y & ys & ty & -> & Hty & Hsy).
    exists (S (Nat.max d1 d2)). rewrite <- app_assoc.
    rewrite parse_molecule_S, raw_at_lexer_at. cbn [app hd] in *.
    rewrite Htx, Hsx, Hrun, raw_at_lexer_at. cbn [hd].
    now rewrite Hty, Hsy, Hraise2.
Qed.

(** The group of an opening bracket and an accepted molecule, with nothing
    after it. *)
Lemma unclosed_group (pre : list string) (o : string) (M : list string)
  (f : string -> Z) :
  is_opening_bracket o = true -> derives MOLECULE M f ->
  exists d,
    _parse_molecule d (lexer_at pre (o :: M)) =
    Some (Raise (ParsingException (mkToken "" EOF)
                   (Z.of_nat (List.length (pre ++ o :: M)) + 1)),
          {| _tokens := pre ++ o :: M;
             position := Z.of_nat (List.length (pre ++ o :: M)) + 1 |}).
Proof.
  intros Ho Hd.
  destruct (derives_run _ _ _ Hd (pre ++ [o]) [] (follows_nil _))
    as (d & c & Hrun & _).
  cbn [run] in Hrun. rewrite app_nil_r in Hrun.
  exists (S (S d)).
  rewrite parse_molecule_S, raw_at_lexer_at. cbn [hd].
  rewrite (tokenize_opening_bracket o Ho).
  unfold starts_group at 1. cbn [token_type].
  rewrite parse_group_S, raw_at_lexer_at. cbn [hd].
  rewrite (tokenize_opening_bracket o Ho). cbn [token_type].
  rewrite advance_lexer_at, Hrun. unfold group_close.
  rewrite raw_at_lexer_at. cbn [hd tokenize token_type].
  change (tokenize "") with (Return (mkToken "" EOF)). cbn [token_type].
  unfold advance, lexer_at. cbn [_tokens position].
  rewrite app_nil_r, <- !app_assoc. cbn [app].
  rewrite !length_app. cbn [List.length].
  reflexivity.
Qed.

(** C8: the closing bracket of a group is checked by the kind of its token
    and by nothing else.  Where a group is to be closed, a token of the kind
    CLOSING_BRACKET is consumed and accepted, whatever its character, and a
    token of any other kind is consumed and raises the grammar error of that
    token at the cursor it leaves.  So a formula that parses, put between any
    opening and any closing bracket character, parses to the same counts, and
    put after an opening bracket with nothing behind it, it raises the
    grammar error of the end of input. *)
Theorem closing_bracket_type_only :
  (forall l token,
     tokenize (raw_at l) = Return token ->
     token_type token = CLOSING_BRACKET ->
     _consume_closing_bracket l = Some (Return tt, advance l)) /\
  (forall o c M C self',
     Char.is_opening o = true -> Char.is_closing c = true ->
     parse M = Some (Return C, self') ->
     outcome (parse (bracketed o M c "")) = Some (Return C)) /\
  outcome (parse "(OH]") = outcome (parse "(OH)") /\
  outcome (parse "(OH]") = Some (Return [("O", 1); ("H", 1)]) /\
  (forall l token,
     tokenize (raw_at l) = Return token ->
     token_type token <> CLOSING_BRACKET ->
     _consume_closing_bracket l =
     Some (Raise (ParsingException token (position l + 1)), advance l)) /\
  (forall l token,
     tokenize (raw_at l) = Return token ->
     (_consume_closing_bracket l = Some (Return tt, advance l) <->
      token_type token = CLOSING_BRACKET)) /\
  (forall o M C self',
     Char.is_opening o = true ->
     parse M = Some (Return C, self') ->
     outcome (parse (String o M)) =
     Some (Raise (ParsingException
                    (mkToken "" EOF)
                    (Z.of_nat (List.length (Pattern.findall (String o M))) + 1)))) /\
  outcome (parse "(OH") = Some (Raise (ParsingException (mkToken "" EOF) 4)) /\
  outcome (parse "H2(OH") = Some (Raise (ParsingException (mkToken "" EOF) 6)) /\
  outcome (parse "(H2 3)") = Some (Raise (ParsingException (mkToken "3" FACTOR) 4)).
Proof.
  assert (Hwrong : forall l token,
             tokenize (raw_at l) = Return token ->
             token_type token <> CLOSING_BRACKET ->
             _consume_closing_bracket l =
             Some (Raise (ParsingException token (position l + 1)), advance l)).
  { intros l token Htok Hty. rewrite consume_closing_bracket_eq, Htok.
    destruct (token_type token); try reflexivity. now contradiction Hty. }
  assert (Hright : forall l token,
             tokenize (raw_at l) = Return token ->
             token_type token = CLOSING_BRACKET ->
             _consume_closing_bracket l = Some (Return tt, advance l)).
  { intros l token Htok Hty. rewrite consume_closing_bracket_eq, Htok.
    now rewrite Hty. }
  split; [exact Hright|].
  split; [|split; [reflexivity|split; [reflexivity|]]].
  - intros o c M C self' Ho Hc Hparse.
    destruct (parse_group_bracketed o c M ""%string C self' Ho Hc Hparse)
      as (d & l & Htoks & Hpos & Hg & Hnd & Hpositive).
    change (Pattern.findall "") with (@nil string) in Hg.
    set (la := advance (embed [String o ""%string] [String c ""%string] l)) in Hg.
    assert (Hend : raw_at la = ""%string).
    { apply raw_at_end. subst la. cbn [advance embed position _tokens app List.length].
      rewrite !length_app, Hpos, Htoks. cbn [List.length]. lia. }
    assert (Hfactor : group_factor C la = Some (Return C, la)).
    { unfold group_factor. now rewrite Hend. }
    rewrite Hfactor in Hg.
    unfold parse. erewrite parse_single_group.
    + simpl. now rewrite Counter_iadd_empty, filter_positive_id.
    + rewrite (raw_at_bracketed o c M ""%string Ho). apply tokenize_opening_char, Ho.
    + reflexivity.
    + exact Hg.
    + rewrite Hend. apply tokenize_eof.
    + reflexivity.
  - split; [exact Hwrong|].
    split; [|split; [|repeat split; vm_compute; reflexivity]].
    + intros l token Htok. split.
      * intros Hret. rewrite consume_closing_bracket_eq, Htok in Hret.
        destruct (token_type token); try discriminate Hret. reflexivity.
      * apply Hright, Htok.
    + intros o M C self' Ho Hparse.
      destruct (parse_Return_derives _ _ _ Hparse) as (f & Hd & _).
      destruct (unclosed_group [] (String o "") _ _ Ho Hd) as (d & Hgroup).
      unfold parse. rewrite parse_formula_fresh by reflexivity.
      cbn [_lexer Parser_init].
      rewrite Lexer_init_lexer_at,
        (findall_bracket o M (opening_is_bracket o Ho)).
      now rewrite (parse_molecule_at_depth _ _ _ Hgroup).
Qed.

Lemma closing_bracket_type_only_witness :
  outcome (parse (bracketed "(" "OH" "]" "")) = Some (Return [("O", 1); ("H", 1)]).
Proof.
  destruct closing_bracket_type_only as (_ & H & _).
  eapply (H "("%char "]"%char "OH"%string);
    [reflexivity|reflexivity|vm_compute; reflexivity].
Defined.

(** X8: an opening bracket and an accepted formula with no closing bracket,
    alone or after an accepted formula, raise the grammar error of the end of
    input, consumed in place of the closing bracket: its position is the
    number of substrings plus one, and so is the cursor left. *)
Theorem unclosed_bracket
  (P M : string) (o : ascii) (dM : dict) (sM : Parser) :
  P = ""%string \/ (exists dP sP, parse P = Some (Return dP, sP)) ->
  parse M = Some (Return dM, sM) ->
  Char.is_opening o = true ->
  parse (P ++ String o M) =
  Some (Raise (ParsingException
                 (mkToken "" EOF)
                 (Z.of_nat (List.length (Pattern.findall (P ++ String o M))) + 1)),
        {| _lexer :=
             {| _tokens := Pattern.findall (P ++ String o M);
                position :=
                  Z.of_nat (List.length (Pattern.findall (P ++ String o M))) + 1 |};
           _result := None |}).
Proof.
  intros HP HM Ho.
  destruct (parse_Return_derives _ _ _ HM) as (fM & HdM & _).
  assert (Hlex : Pattern.findall (P ++ String o M) =
                 Pattern.findall P ++ String o ""%string :: Pattern.findall M).
  { rewrite (findall_app_bracket P M o (opening_is_bracket o Ho)).
    now rewrite (findall_bracket o M (opening_is_bracket o Ho)). }
  destruct (unclosed_group (Pattern.findall P) (String o "") _ _ Ho HdM)
    as (d & Hgroup).
  assert (Hmol : exists d',
             _parse_molecule d' (Lexer_init (P ++ String o M)) =
             Some (Raise (ParsingException (mkToken "" EOF)
                            (Z.of_nat (List.length (Pattern.findall (P ++ String o M))) + 1)),
                   {| _tokens := Pattern.findall (P ++ String o M);
                      position :=
                        Z.of_nat (List.length (Pattern.findall (P ++ String o M))) + 1 |})).
  { rewrite Lexer_init_lexer_at, Hlex.
    destruct HP as [->|(dP & sP & HP)].
    - exists d. exact Hgroup.
    - destruct (parse_Return_derives _ _ _ HP) as (fP & HdP & _).
      eapply (derives_then_raise _ _ _ HdP eq_refl []
                (String o ""%string :: Pattern.findall M)).
      + cbn [hd]. apply (tokenize_opening_bracket (String o "") Ho).
      + reflexivity.
      + exact Hgroup. }
  destruct Hmol as (d' & Hmol).
  unfold parse. rewrite parse_formula_fresh by reflexivity.
  cbn [_lexer Parser_init].
  now rewrite (parse_molecule_at_depth _ _ _ Hmol).
Qed.

Lemma unclosed_bracket_witness :
  parse ("H2" ++ String "(" "OH") =
  Some (Raise (ParsingException (mkToken "" EOF) 6),
        {| _lexer := {| _tokens := ["H"; "2"; "("; "O"; "H"]%string; position := 6 |};
           _result := None |}).
Proof.
  eapply (unclosed_bracket "H2" "OH" "(");
    [right; eexists _, _; vm_compute; reflexivity|vm_compute; reflexivity|reflexivity].
Defined.

(** ** Reading the lexer to its end *)

Lemma read_until_eof_lexer_at (rest pre : list string) :
  Forall (fun tok => is_lexeme tok = true) rest ->
  read_until_eof (S (List.length rest)) (lexer_at pre rest) =
  Some (Return (combine (map Z.of_nat (seq (List.length pre) (List.length rest))) rest),
        lexer_at (pre ++ rest) []).
Proof.
  revert pre. induction rest as [|x rest IH]; intros pre Hall.
  - cbn [List.length read_until_eof]. unfold bind. rewrite peek_eq, raw_at_lexer_at.
    cbn [hd]. rewrite app_nil_r. reflexivity.
  - inversion Hall as [|? ? Hx Hrest]; subst.
    cbn [List.length]. cbn [read_until_eof]. unfold bind at 1.
    rewrite peek_eq, raw_at_lexer_at. cbn [hd].
    rewrite (tokenize_lexeme x Hx). cbn [token_type].
    assert (Hstep :
      (pos <- get_position ;;
       token <- get_next_token ;;
       rest0 <- read_until_eof (S (List.length rest)) ;;
       ret ((pos, value token) :: rest0)) (lexer_at pre (x :: rest)) =
      Some (Return (combine (map Z.of_nat (seq (List.length pre)
                                              (S (List.length rest))))
                            (x :: rest)),
            lexer_at (pre ++ x :: rest) [])).
    { unfold bind at 1. unfold get_position at 1. unfold bind at 1.
      rewrite get_next_token_eq, raw_at_lexer_at. cbn [hd].
      rewrite (tokenize_lexeme x Hx), advance_lexer_at.
      unfold bind at 1. rewrite (IH (pre ++ [x]) Hrest).
      unfold ret. cbn [value position lexer_at seq map combine].
      rewrite length_app. cbn [List.length].
      replace (List.length pre + 1)%nat with (S (List.length pre)) by lia.
      do 2 f_equal. apply lexer_at_eq; f_equal; now rewrite <- app_assoc. }
    destruct (lexeme_type x) eqn:Hty; try exact Hstep.
    now apply lexeme_type_not_eof in Hty.
Qed.

(** X9: the loop of the lexer tests, on the lexer of any formula, ends after
    one turn for each substring; it sees the positions 0, 1, 2, ... and at
    each position the substring the pattern gave there, and leaves the cursor
    after the last substring. *)
Theorem read_until_eof_substrings (formula : string) :
  let expected := Pattern.findall formula in
  read_until_eof (S (List.length expected)) (Lexer_init formula) =
  Some (Return (combine (map Z.of_nat (seq 0 (List.length expected))) expected),
        {| _tokens := expected; position := Z.of_nat (List.length expected) |}).
Proof.
  intros expected. subst expected. rewrite Lexer_init_lexer_at.
  rewrite (read_until_eof_lexer_at _ [] (findall_lexemes formula)).
  unfold lexer_at. cbn [app List.length]. now rewrite app_nil_r.
Qed.

(** X10: past the last substring, every call of [get_next_token] returns the
    token of the end of input and moves the cursor by one, without end and
    without an error. *)
Theorem get_next_token_past_end (l : Lexer) (k : nat) :
  Z.of_nat (List.length (_tokens l)) <= position l ->
  get_next_tokens k l =
  Some (Return (repeat (mkToken "" EOF) k),
        {| _tokens := _tokens l; position := position l + Z.of_nat k |}).
Proof.
  revert l. induction k as [|k IH]; intros l Hl.
  - cbn [get_next_tokens repeat]. unfold ret. destruct l as [toks p].
    cbn [_tokens position]. do 3 f_equal. lia.
  - cbn [get_next_tokens repeat]. unfold bind at 1.
    rewrite get_next_token_eq, (raw_at_past_end l Hl).
    change (tokenize "") with (Return (mkToken "" EOF)).
    unfold bind at 1. rewrite IH by (cbn [advance _tokens position]; lia).
    unfold ret. cbn [advance _tokens position]. do 3 f_equal. lia.
Qed.

Lemma get_next_token_past_end_witness :
  get_next_tokens 3 {| _tokens := ["H"; "2"]%string; position := 2 |} =
  Some (Return [mkToken "" EOF; mkToken "" EOF; mkToken "" EOF],
        {| _tokens := ["H"; "2"]%string; position := 5 |}).
Proof.
  apply (get_next_token_past_end {| _tokens := ["H"; "2"]%string; position := 2 |} 3).
  simpl. lia.
Defined.

(** ** The substrings and the formula *)

Local Open Scope string_scope.

Lemma concat_cons (x : string) (xs : list string) :
  String.concat "" (x :: xs) = x ++ String.concat "" xs.
Proof.
  destruct xs as [|y ys]; simpl; [now rewrite append_empty_r|reflexivity].
Qed.

Lemma subsequence_empty (s : string) : subsequence "" s.
Proof. induction s; constructor; assumption. Qed.

Lemma subsequence_app (tok s t : string) :
  subsequence s t -> subsequence (tok ++ s) (tok ++ t).
Proof. intros H. induction tok; simpl; [assumption|now constructor]. Qed.

Lemma findall_from_subsequence (n : nat) (s : string) :
  subsequence (String.concat "" (Pattern.findall_from n s)) s /\
  (List.length (Pattern.findall_from n s) <= String.length s)%nat.
Proof.
  revert s. induction n as [|n IH]; intros s.
  - simpl. split; [apply subsequence_empty|lia].
  - cbn [Pattern.findall_from]. destruct s as [|c s].
    + simpl. split; [constructor|lia].
    + destruct (Pattern.match_here (String c s)) as [[tok rest]|] eqn:Hh.
      * destruct (match_here_Some _ _ _ Hh) as (_ & Hs & Hlen).
        destruct (IH rest) as [Hsub Hcount].
        rewrite concat_cons. split.
        -- rewrite Hs. now apply subsequence_app.
        -- cbn [List.length]. lia.
      * destruct (IH s) as [Hsub Hcount]. split.
        -- now constructor.
        -- simpl. lia.
Qed.

(** X11: the substrings of the lexer, put end to end, are the formula with
    some characters left out: the lexer neither adds a character nor changes
    the order; and there are no more substrings than characters. *)
Theorem substrings_in_order (formula : string) :
  subsequence (String.concat "" (_tokens (Lexer_init formula))) formula /\
  (List.length (_tokens (Lexer_init formula)) <= String.length formula)%nat.
Proof.
  unfold Lexer_init, Pattern.findall. cbn [_tokens].
  apply findall_from_subsequence.
Qed.

Lemma upper_not_lower (c : ascii) : Char.is_upper c = true -> Char.is_lower c = false.
Proof. by_char c. Qed.

Lemma decimal_not_lower (c : ascii) : Char.isdecimal c = true -> Char.is_lower c = false.
Proof. by_char c. Qed.

Lemma lexeme_head (t s : string) :
  is_lexeme t = true ->
  starts_lower (t ++ s) = false /\ starts_decimal (t ++ s) = isdecimal t.
Proof.
  unfold is_lexeme. intros H.
  destruct (is_atom_symbol t) eqn:Ha.
  { destruct t as [|c [|d [|e t]]]; simpl in Ha; try discriminate.
    - simpl. split; [now apply upper_not_lower|]. rewrite andb_true_r.
      destruct (Char.isdecimal c) eqn:Hd; [|reflexivity].
      now rewrite (decimal_not_upper c Hd) in Ha.
    - apply andb_true_iff in Ha as [Hc Hd]. simpl.
      split; [now apply upper_not_lower|].
      destruct (Char.isdecimal c) eqn:Hdc; [|reflexivity].
      now rewrite (decimal_not_upper c Hdc) in Hc. }
  destruct (isdecimal t) eqn:Hd.
  { destruct t as [|c t]; [discriminate|]. simpl in Hd.
    apply andb_true_iff in Hd as [Hc _]. simpl.
    split; [now apply decimal_not_lower|assumption]. }
  destruct (is_opening_bracket t) eqn:Ho.
  { destruct t as [|c [|d t]]; simpl in Ho; try discriminate.
    simpl. split; [apply bracket_not_lower|apply bracket_not_decimal];
      now apply opening_is_bracket. }
  simpl in H.
  destruct t as [|c [|d t]]; simpl in H; try discriminate.
  simpl. split; [apply bracket_not_lower|apply bracket_not_decimal];
    now apply closing_is_bracket.
Qed.

(** A span of the pattern at the head of a string is found again as it is,
    when what follows cannot make it longer. *)
Lemma match_here_lexeme (t s : string) :
  is_lexeme t = true ->
  starts_lower s = false ->
  (isdecimal t = true -> starts_decimal s = false) ->
  Pattern.match_here (t ++ s) = Some (t, s).
Proof.
  unfold is_lexeme. intros H Hl Hd.
  destruct (is_atom_symbol t) eqn:Ha.
  { destruct t as [|c [|d [|e t]]]; simpl in Ha; try discriminate.
    - unfold Pattern.match_here. simpl. rewrite Ha.
      destruct s as [|d s]; [reflexivity|]. simpl in Hl. now rewrite Hl.
    - apply andb_true_iff in Ha as [Hc Hd']. unfold Pattern.match_here. simpl.
      now rewrite Hc, Hd'. }
  destruct (isdecimal t) eqn:Hdec.
  { specialize (Hd eq_refl). destruct t as [|c t]; [discriminate|].
    pose proof Hdec as Hall. simpl in Hdec.
    apply andb_true_iff in Hdec as [Hc _].
    unfold Pattern.match_here. simpl Pattern.match_atom.
    rewrite (decimal_not_upper c Hc). unfold Pattern.match_factor.
    rewrite (span_decimal_boundary _ s _ _ Hd (span_decimal_all _ Hall)).
    reflexivity. }
  assert (Hb : exists c, t = String c "" /\ Char.is_bracket c = true).
  { destruct (is_opening_bracket t) eqn:Ho.
    - destruct t as [|c [|d t]]; simpl in Ho; try discriminate.
      exists c. split; [reflexivity|now apply opening_is_bracket].
    - simpl in H. destruct t as [|c [|d t]]; simpl in H; try discriminate.
      exists c. split; [reflexivity|now apply closing_is_bracket]. }
  destruct Hb as (c & -> & Hc).
  unfold Pattern.match_here. simpl.
  rewrite (bracket_not_upper c Hc). unfold Pattern.match_factor. simpl.
  now rewrite (bracket_not_decimal c Hc), Hc.
Qed.

Lemma findall_lexeme (t s : string) :
  is_lexeme t = true ->
  starts_lower s = false ->
  (isdecimal t = true -> starts_decimal s = false) ->
  Pattern.findall (t ++ s) = (t :: Pattern.findall s)%list.
Proof.
  intros Ht Hl Hd. rewrite findall_unfold.
  rewrite (match_here_lexeme t s Ht Hl Hd).
  destruct t; [discriminate|reflexivity].
Qed.

Lemma findall_space (s : string) :
  Pattern.findall (String " " s) = Pattern.findall s.
Proof. rewrite findall_unfold. reflexivity. Qed.

(** The substrings of a lexer, written out with a blank between them and
    lexed again, are the same substrings: this holds for every list of spans
    of the pattern. *)
Lemma findall_spaced (toks : list string) :
  Forall (fun tok => is_lexeme tok = true) toks ->
  Pattern.findall (String.concat " " toks) = toks.
Proof.
  induction 1 as [|t rest Ht Hrest IH]; [reflexivity|].
  destruct rest as [|u rest].
  - simpl. rewrite <- (append_empty_r t) at 1.
    rewrite findall_lexeme; [reflexivity|assumption|reflexivity|reflexivity].
  - change (String.concat " " (t :: u :: rest))
      with (t ++ String " " (String.concat " " (u :: rest))).
    rewrite findall_lexeme; [|assumption|reflexivity|reflexivity].
    now rewrite findall_space, IH.
Qed.

(** X12: the substrings of any formula, written out with a blank between
    them, make a formula with the same substrings, and so with the same
    parse, whether the formula is accepted or not. *)
Theorem spaced_formula (formula : string) :
  Lexer_init (String.concat " " (Pattern.findall formula)) = Lexer_init formula /\
  parse (String.concat " " (Pattern.findall formula)) = parse formula.
Proof.
  assert (H : Lexer_init (String.concat " " (Pattern.findall formula)) =
              Lexer_init formula).
  { unfold Lexer_init. f_equal. apply findall_spaced, findall_lexemes. }
  split; [assumption|]. unfold parse. now rewrite H.
Qed.

Lemma no_adjacent_factors_app (a b : list string) :
  no_adjacent_factors a = true -> no_adjacent_factors b = true ->
  isdecimal (hd "" b) = false ->
  no_adjacent_factors (a ++ b) = true.
Proof.
  intros Ha Hb Hh. induction a as [|x a IH]; [exact Hb|].
  destruct a as [|y a].
  - simpl. destruct b as [|z b]; [reflexivity|].
    simpl in Hh.
    change (no_adjacent_factors ([x] ++ z :: b))
      with (negb (isdecimal x && isdecimal z) && no_adjacent_factors (z :: b)).
    rewrite Hh, andb_false_r. exact Hb.
  - cbn [no_adjacent_factors app] in Ha |- *.
    apply andb_true_iff in Ha as [Hxy Ha]. rewrite Hxy. simpl. now apply IH.
Qed.

Lemma atom_symbol_not_decimal (a : string) :
  is_atom_symbol a = true -> isdecimal a = false.
Proof.
  intros H. apply atom_symbol_isalpha in H.
  destruct (isdecimal a) eqn:Hd; [|reflexivity].
  apply isdecimal_not_isalpha in Hd. congruence.
Qed.

Lemma opening_bracket_not_decimal (o : string) :
  is_opening_bracket o = true -> isdecimal o = false.
Proof.
  intros H. destruct (opening_bracket_cases o H) as [->|[->| ->]]; reflexivity.
Qed.

Lemma closing_bracket_not_decimal (c : string) :
  is_closing_bracket c = true -> isdecimal c = false.
Proof.
  intros H. destruct (closing_bracket_cases c H) as [->|[->| ->]]; reflexivity.
Qed.

(** In a sentence of the grammar no two factors stand side by side, and the
    first substring is no factor. *)
Lemma derives_no_adjacent_factors (r : Rule) (toks : list string) (f : string -> Z) :
  derives r toks f ->
  no_adjacent_factors toks = true /\ isdecimal (hd "" toks) = false.
Proof.
  induction 1 as [a Ha|a n Ha Hn|o c m f Ho Hc Hm [IH1 IH2]
                 |o c n m f Ho Hc Hn Hm [IH1 IH2]
                 |g f Hg IH|g m f h Hg [IHg1 IHg2] Hm [IHm1 IHm2]].
  - split; [reflexivity|now apply atom_symbol_not_decimal].
  - pose proof (atom_symbol_not_decimal a Ha) as Hd.
    split; [|exact Hd]. cbn [no_adjacent_factors]. now rewrite Hd.
  - pose proof (opening_bracket_not_decimal o Ho) as Hd.
    split; [|exact Hd].
    change (o :: m ++ [c])%list with ([o] ++ (m ++ [c]))%list.
    apply no_adjacent_factors_app; [reflexivity| |].
    + apply no_adjacent_factors_app; [assumption|reflexivity|].
      now apply closing_bracket_not_decimal.
    + destruct m; [now apply closing_bracket_not_decimal|exact IH2].
  - pose proof (opening_bracket_not_decimal o Ho) as Hd.
    pose proof (closing_bracket_not_decimal c Hc) as Hdc.
    split; [|exact Hd].
    change (o :: m ++ [c; n])%list with ([o] ++ (m ++ [c; n]))%list.
    apply no_adjacent_factors_app; [reflexivity| |].
    + apply no_adjacent_factors_app; [assumption| |exact Hdc].
      cbn [no_adjacent_factors]. now rewrite Hdc.
    + destruct m; [exact Hdc|exact IH2].
  - assumption.
  - split.
    + now apply no_adjacent_factors_app.
    + destruct g; [exact IHm2|exact IHg2].
Qed.

Lemma relex_concat (toks : list string) :
  Forall (fun tok => is_lexeme tok = true) toks ->
  no_adjacent_factors toks = true ->
  Pattern.findall (String.concat "" toks) = toks.
Proof.
  induction 1 as [|t rest Ht Hrest IH]; [reflexivity|]. intros Hno.
  rewrite concat_cons.
  destruct rest as [|u rest].
  - simpl. rewrite append_empty_r. rewrite <- (append_empty_r t) at 1.
    rewrite findall_lexeme; [reflexivity|assumption|reflexivity|reflexivity].
  - cbn [no_adjacent_factors] in Hno. apply andb_true_iff in Hno as [Htu Hno].
    inversion Hrest as [|? ? Hu _]; subst.
    rewrite concat_cons in *.
    destruct (lexeme_head u (String.concat "" rest) Hu) as [Hl Hd].
    rewrite findall_lexeme; [now rewrite IH|assumption|assumption|].
    intros Hdt. rewrite Hd. rewrite Hdt in Htu. simpl in Htu.
    now destruct (isdecimal u).
Qed.

Local Open Scope list_scope.
Local Open Scope Z_scope.

(** X13: an accepted formula, with every character the lexer drops taken
    out, is the concatenation of its substrings; that formula has the same
    substrings and is accepted with the same mapping. *)
Theorem canonical_formula (formula : string) (d : dict) (self' : Parser) :
  parse formula = Some (Return d, self') ->
  Lexer_init (String.concat "" (Pattern.findall formula)) = Lexer_init formula /\
  parse (String.concat "" (Pattern.findall formula)) = Some (Return d, self').
Proof.
  intros H. destruct (parse_Return_derives _ _ _ H) as (f & Hd & _).
  destruct (derives_no_adjacent_factors _ _ _ Hd) as [Hno _].
  assert (Hlex : Lexer_init (String.concat "" (Pattern.findall formula)) =
                 Lexer_init formula).
  { unfold Lexer_init. f_equal.
    apply relex_concat; [apply findall_lexemes|assumption]. }
  split; [assumption|]. unfold parse in *. now rewrite Hlex.
Qed.

Lemma canonical_formula_witness :
  exists self',
    parse "H2 (O h)3" = Some (Return [("H", 2); ("O", 3)]%string, self') /\
    parse (String.concat "" (Pattern.findall "H2 (O h)3")) =
    Some (Return [("H", 2); ("O", 3)]%string, self').
Proof.
  eexists. split; [vm_compute; reflexivity|].
  refine (proj2 (canonical_formula "H2 (O h)3" _ _ _)). vm_compute. reflexivity.
Defined.

(** ** A parser on a lexer that was read in part *)

Section Behind.

Variable before : list string.

Local Abbreviation moved := (embed before []).

Lemma raw_at_moved (l : Lexer) : 0 <= position l -> raw_at (moved l) = raw_at l.
Proof.
  intros Hlo. unfold raw_at, list_getitem, embed. cbn [_tokens position].
  destruct (Z.leb_spec 0 (Z.of_nat (List.length before) + position l)); [|lia].
  destruct (Z.leb_spec 0 (position l)); [|lia].
  rewrite Z2Nat.inj_add, Nat2Z.id by lia.
  rewrite nth_error_app2 by lia.
  replace (List.length before + Z.to_nat (position l) - List.length before)%nat
    with (Z.to_nat (position l)) by lia.
  now rewrite app_nil_r.
Qed.

Lemma moved_advance (l : Lexer) : moved (advance l) = advance (moved l).
Proof. unfold embed, advance. simpl. f_equal. lia. Qed.

Lemma group_factor_moved (counter : Counter) (l : Lexer) :
  0 <= position l ->
  group_factor counter (moved l) = shift_outcome before (group_factor counter l).
Proof.
  intros Hlo. unfold group_factor. rewrite (raw_at_moved l Hlo).
  destruct (tokenize (raw_at l)) as [t|e] eqn:Htok.
  - destruct (token_type t); try reflexivity.
    unfold int. destruct (isdecimal (value t));
      cbn [shift_outcome shift_exception]; now rewrite moved_advance.
  - cbn [shift_outcome]. destruct e; try reflexivity.
    now apply tokenize_no_grammar_error in Htok.
Qed.

Lemma group_close_moved (counter : Counter) (l : Lexer) :
  0 <= position l ->
  group_close counter (moved l) = shift_outcome before (group_close counter l).
Proof.
  intros Hlo. unfold group_close. rewrite (raw_at_moved l Hlo).
  destruct (tokenize (raw_at l)) as [t|e] eqn:Htok.
  - destruct (token_type t); cbn [shift_outcome shift_exception];
      rewrite moved_advance; cbn [embed position]; do 4 f_equal; lia.
  - cbn [shift_outcome]. destruct e; try reflexivity.
    now apply tokenize_no_grammar_error in Htok.
Qed.

Lemma parse_moved (d : nat) :
  (forall l, 0 <= position l ->
     _parse_molecule d (moved l) = shift_outcome before (_parse_molecule d l)) /\
  (forall l, 0 <= position l ->
     _parse_group d (moved l) = shift_outcome before (_parse_group d l)).
Proof.
  induction d as [|d [IHm IHg]].
  - split; reflexivity.
  - split; intros l Hlo.
    + rewrite !parse_molecule_S, (raw_at_moved l Hlo).
      destruct (tokenize (raw_at l)) as [t|e] eqn:Htok.
      2:{ cbn [shift_outcome]. destruct e; try reflexivity.
          now apply tokenize_no_grammar_error in Htok. }
      destruct (starts_group t); [|reflexivity].
      rewrite (IHg l Hlo).
      destruct (_parse_group d l) as [[[inner|e] l1]|] eqn:Hg; try reflexivity.
      cbn [shift_outcome].
      assert (Hlo1 : 0 <= position l1).
      { apply parse_group_consumed in Hg as (_ & Hp & _). lia. }
      rewrite (raw_at_moved l1 Hlo1).
      destruct (tokenize (raw_at l1)) as [t1|e] eqn:Htok1.
      2:{ cbn [shift_outcome]. destruct e; try reflexivity.
          now apply tokenize_no_grammar_error in Htok1. }
      destruct (starts_group t1); [|reflexivity].
      rewrite (IHm l1 Hlo1).
      destruct (_parse_molecule d l1) as [[[inner2|e] l2]|]; reflexivity.
    + rewrite !parse_group_S, (raw_at_moved l Hlo).
      destruct (tokenize (raw_at l)) as [t|e] eqn:Htok.
      2:{ cbn [shift_outcome]. destruct e; try reflexivity.
          now apply tokenize_no_grammar_error in Htok. }
      assert (Hloa : 0 <= position (advance l)) by (simpl; lia).
      destruct (token_type t); try reflexivity.
      * rewrite <- moved_advance. now apply group_factor_moved.
      * rewrite <- moved_advance, (IHm (advance l) Hloa).
        destruct (_parse_molecule d (advance l)) as [[[counter|e] l1]|] eqn:Hm;
          try reflexivity.
        cbn [shift_outcome].
        assert (Hlo1 : 0 <= position l1).
        { apply parse_molecule_consumed in Hm as (_ & Hp & _). simpl in Hp. lia. }
        rewrite (group_close_moved counter l1 Hlo1).
        destruct (group_close counter l1) as [[[counter'|e] l2]|] eqn:Hc;
          try reflexivity.
        cbn [shift_outcome].
        apply group_factor_moved.
        apply group_close_Return in Hc as (_ & -> & _). simpl. lia.
Qed.

End Behind.

(** X14: the parser never looks behind the cursor.  On a lexer of which the
    substrings [before] were read already, [parse_formula] gives what it
    gives on a fresh lexer of the substrings that are left: the same mapping,
    or the same error with its position moved by the number of substrings
    read. *)
Theorem parse_formula_after_reading (before rest : list string) :
  outcome (parse_formula (Parser_init (lexer_at before rest))) =
  match outcome (parse_formula (Parser_init (lexer_at [] rest))) with
  | Some (Return d) => Some (Return d)
  | Some (Raise e) =>
      Some (Raise (shift_exception (Z.of_nat (List.length before)) e))
  | None => None
  end.
Proof.
  assert (Hl : lexer_at before rest = embed before [] (lexer_at [] rest)).
  { unfold lexer_at, embed. cbn [_tokens position app List.length].
    rewrite app_nil_r. f_equal. lia. }
  rewrite !parse_formula_fresh by reflexivity. cbn [_lexer Parser_init].
  destruct (parse_molecule_total (lexer_at [] rest)) as (r & l & Hm & Hc).
  rewrite Hm. unfold parse_molecule in Hm.
  pose proof (proj1 (parse_moved before (recursion_bound (lexer_at [] rest)))
                (lexer_at [] rest) (Z.le_refl 0)) as Hmoved.
  rewrite Hm, <- Hl in Hmoved.
  destruct r as [counter|e]; cbn [shift_outcome] in Hmoved;
    rewrite (parse_molecule_at_depth _ _ _ Hmoved); [|reflexivity].
  cbv zeta.
  assert (Hlo : 0 <= position l) by (destruct Hc as (_ & Hp & _); simpl in Hp; lia).
  rewrite (raw_at_moved before l Hlo).
  destruct (tokenize (raw_at l)) as [t|e] eqn:Htok.
  - destruct (token_type t); cbn [outcome shift_exception embed position];
      reflexivity.
  - cbn [outcome]. destruct e; try reflexivity.
    now apply tokenize_no_grammar_error in Htok.
Qed.

(** ** Which bracket character stands for a bracket *)

Lemma same_kind_atom (a a' : string) :
  is_atom_symbol a = true -> same_kind a a' -> a' = a.
Proof.
  intros Ha [H|[[Ho _]|[Hc _]]]; [now subst| |]; exfalso.
  - apply opening_bracket_cases in Ho as [->|[->| ->]]; discriminate.
  - apply closing_bracket_cases in Hc as [->|[->| ->]]; discriminate.
Qed.

Lemma same_kind_decimal (n n' : string) :
  isdecimal n = true -> same_kind n n' -> n' = n.
Proof.
  intros Hn [H|[[Ho _]|[Hc _]]]; [now subst| |]; exfalso.
  - apply opening_bracket_cases in Ho as [->|[->| ->]]; discriminate.
  - apply closing_bracket_cases in Hc as [->|[->| ->]]; discriminate.
Qed.

Lemma same_kind_opening (o o' : string) :
  is_opening_bracket o = true -> same_kind o o' -> is_opening_bracket o' = true.
Proof.
  intros Ho [H|[[_ H]|[Hc _]]]; [now subst|assumption|exfalso].
  apply opening_bracket_cases in Ho as [->|[->| ->]]; discriminate.
Qed.

Lemma same_kind_closing (c c' : string) :
  is_closing_bracket c = true -> same_kind c c' -> is_closing_bracket c' = true.
Proof.
  intros Hc [H|[[Ho _]|[_ H]]]; [now subst|exfalso|assumption].
  apply closing_bracket_cases in Hc as [->|[->| ->]]; discriminate.
Qed.

Lemma same_kind_sym (t t' : string) : same_kind t t' -> same_kind t' t.
Proof. unfold same_kind. intuition. Qed.

(** The sentences of the grammar do not depend on the bracket characters. *)
Lemma derives_same_kind (r : Rule) (toks : list string) (f : string -> Z) :
  derives r toks f ->
  forall toks', Forall2 same_kind toks toks' -> derives r toks' f.
Proof.
  induction 1 as [a Ha|a n Ha Hn|o c m f Ho Hc Hm IH|o c n m f Ho Hc Hn Hm IH
                 |g f Hg IH|g m f h Hg IHg Hm IHm];
    intros toks' H2.
  - inversion H2 as [|? a' ? ? Ha' Hnil]; subst. inversion Hnil; subst.
    rewrite (same_kind_atom a a' Ha Ha'). now apply group_atom.
  - inversion H2 as [|? a' ? ? Ha' H2']; subst.
    inversion H2' as [|? n' ? ? Hn' Hnil]; subst. inversion Hnil; subst.
    rewrite (same_kind_atom a a' Ha Ha'), (same_kind_decimal n n' Hn Hn').
    now apply group_atom_factor.
  - inversion H2 as [|? o' ? rest' Ho' H2']; subst.
    apply Forall2_app_inv_l in H2' as (m' & cs' & Hm' & Hcs & ->).
    inversion Hcs as [|? c' ? ? Hc' Hnil]; subst. inversion Hnil; subst.
    apply group_bracket; eauto using same_kind_opening, same_kind_closing.
  - inversion H2 as [|? o' ? rest' Ho' H2']; subst.
    apply Forall2_app_inv_l in H2' as (m' & cs' & Hm' & Hcs & ->).
    inversion Hcs as [|? c' ? ? Hc' Hcs']; subst.
    inversion Hcs' as [|? n' ? ? Hn' Hnil]; subst. inversion Hnil; subst.
    rewrite (same_kind_decimal n n' Hn Hn').
    apply group_bracket_factor; eauto using same_kind_opening, same_kind_closing.
  - apply molecule_group. now apply IH.
  - apply Forall2_app_inv_l in H2 as (g' & m' & Hg' & Hm' & ->).
    apply molecule_more; auto.
Qed.

Local Open Scope string_scope.

Lemma round_bracket_upper (c : ascii) :
  Char.is_upper (round_bracket c) = Char.is_upper c.
Proof. by_char c. Qed.

Lemma round_bracket_lower (c : ascii) :
  Char.is_lower (round_bracket c) = Char.is_lower c.
Proof. by_char c. Qed.

Lemma round_bracket_decimal (c : ascii) :
  Char.isdecimal (round_bracket c) = Char.isdecimal c.
Proof. by_char c. Qed.

Lemma round_bracket_bracket (c : ascii) :
  Char.is_bracket (round_bracket c) = Char.is_bracket c.
Proof. by_char c. Qed.

Lemma round_bracket_opening (c : ascii) :
  Char.is_opening (round_bracket c) = Char.is_opening c.
Proof. by_char c. Qed.

Lemma round_bracket_closing (c : ascii) :
  Char.is_closing (round_bracket c) = Char.is_closing c.
Proof. by_char c. Qed.

Lemma round_bracket_other (c : ascii) :
  Char.is_bracket c = false -> round_bracket c = c.
Proof.
  unfold Char.is_bracket, round_bracket. intros H.
  apply orb_false_iff in H as [-> ->]. reflexivity.
Qed.

Lemma round_brackets_length (s : string) :
  String.length (round_brackets s) = String.length s.
Proof. induction s as [|c s IH]; simpl; congruence. Qed.

Lemma span_decimal_round (s : string) :
  Pattern.span_decimal (round_brackets s) =
  (round_brackets (fst (Pattern.span_decimal s)),
   round_brackets (snd (Pattern.span_decimal s))).
Proof.
  induction s as [|c s IH]; [reflexivity|].
  cbn [round_brackets Pattern.span_decimal]. rewrite round_bracket_decimal.
  destruct (Char.isdecimal c).
  - rewrite IH. destruct (Pattern.span_decimal s) as [ds r]. reflexivity.
  - reflexivity.
Qed.

Lemma match_here_round (s : string) :
  Pattern.match_here (round_brackets s) = round_span (Pattern.match_here s).
Proof.
  unfold Pattern.match_here.
  assert (Ha : Pattern.match_atom (round_brackets s) =
               round_span (Pattern.match_atom s)).
  { destruct s as [|c [|d s]]; cbn [round_brackets Pattern.match_atom];
      rewrite ?round_bracket_upper, ?round_bracket_lower;
      try reflexivity.
    - destruct (Char.is_upper c); reflexivity.
    - destruct (Char.is_upper c); [|reflexivity].
      destruct (Char.is_lower d); reflexivity. }
  rewrite Ha. destruct (Pattern.match_atom s) as [[tok r]|]; [reflexivity|].
  cbn [round_span].
  assert (Hf : Pattern.match_factor (round_brackets s) =
               round_span (Pattern.match_factor s)).
  { unfold Pattern.match_factor. rewrite span_decimal_round.
    destruct (Pattern.span_decimal s) as [[|c ds] r]; reflexivity. }
  rewrite Hf. destruct (Pattern.match_factor s) as [[tok r]|]; [reflexivity|].
  cbn [round_span].
  destruct s as [|c s]; [reflexivity|].
  cbn [round_brackets Pattern.match_bracket]. rewrite round_bracket_bracket.
  destruct (Char.is_bracket c); reflexivity.
Qed.

Lemma findall_from_round (n : nat) (s : string) :
  Pattern.findall_from n (round_brackets s) =
  map round_brackets (Pattern.findall_from n s).
Proof.
  revert s. induction n as [|n IH]; intros s; [reflexivity|].
  destruct s as [|c s]; [reflexivity|].
  cbn [Pattern.findall_from].
  change (String (round_bracket c) (round_brackets s))
    with (round_brackets (String c s)).
  rewrite match_here_round.
  destruct (Pattern.match_here (String c s)) as [[tok r]|]; cbn [round_span map].
  - now rewrite IH.
  - cbn [round_brackets]. apply IH.
Qed.

Lemma findall_round (s : string) :
  Pattern.findall (round_brackets s) = map round_brackets (Pattern.findall s).
Proof.
  unfold Pattern.findall. rewrite round_brackets_length. apply findall_from_round.
Qed.

Lemma round_brackets_decimal (s : string) :
  string_forallb Char.isdecimal s = true -> round_brackets s = s.
Proof.
  induction s as [|x s IH]; [reflexivity|]. simpl. intros H.
  apply andb_true_iff in H as [Hx Hs]. rewrite (IH Hs).
  rewrite round_bracket_other; [reflexivity|].
  destruct (Char.is_bracket x) eqn:Hb; [|reflexivity].
  now rewrite (bracket_not_decimal x Hb) in Hx.
Qed.

Lemma lexeme_round_same_kind (t : string) :
  is_lexeme t = true -> same_kind t (round_brackets t).
Proof.
  unfold is_lexeme, same_kind. intros H.
  destruct (is_atom_symbol t) eqn:Ha.
  { left. destruct t as [|c [|d [|e t]]]; simpl in Ha; try discriminate.
    - cbn [round_brackets]. rewrite round_bracket_other; [reflexivity|].
      destruct (Char.is_bracket c) eqn:Hb; [|reflexivity].
      now rewrite (bracket_not_upper c Hb) in Ha.
    - apply andb_true_iff in Ha as [Hc Hd]. cbn [round_brackets].
      rewrite !round_bracket_other; [reflexivity| |].
      + destruct (Char.is_bracket d) eqn:Hb; [|reflexivity].
        now rewrite (bracket_not_lower d Hb) in Hd.
      + destruct (Char.is_bracket c) eqn:Hb; [|reflexivity].
        now rewrite (bracket_not_upper c Hb) in Hc. }
  destruct (isdecimal t) eqn:Hd.
  { left. destruct t as [|c t]; [discriminate|].
    symmetry. now apply round_brackets_decimal. }
  destruct (is_opening_bracket t) eqn:Ho.
  { right. left. split; [reflexivity|].
    destruct t as [|c [|d t]]; simpl in Ho; try discriminate.
    simpl. now rewrite round_bracket_opening. }
  simpl in H. right. right. split; [assumption|].
  destruct t as [|c [|d t]]; simpl in H; try discriminate.
  simpl. now rewrite round_bracket_closing.
Qed.

Local Open Scope list_scope.
Local Open Scope Z_scope.

Lemma findall_round_same_kind (formula : string) :
  Forall2 same_kind (Pattern.findall formula)
          (Pattern.findall (round_brackets formula)).
Proof.
  rewrite findall_round.
  pose proof (findall_lexemes formula) as Hall.
  induction Hall as [|t rest Ht _ IH]; constructor;
    [now apply lexeme_round_same_kind|assumption].
Qed.

Lemma Forall2_same_kind_sym (a b : list string) :
  Forall2 same_kind a b -> Forall2 same_kind b a.
Proof. induction 1; constructor; auto using same_kind_sym. Qed.

(** X15: the parser does not tell the bracket characters of one kind apart,
    at any depth: a formula is accepted exactly when the formula with every
    bracket made round is accepted, and both give every atom the same
    count. *)
Theorem bracket_characters_do_not_matter (formula : string) :
  (forall d s,
     parse formula = Some (Return d, s) ->
     exists d' s',
       parse (round_brackets formula) = Some (Return d', s') /\
       forall k, counter_getitem d' k = counter_getitem d k) /\
  (forall d' s',
     parse (round_brackets formula) = Some (Return d', s') ->
     exists d s,
       parse formula = Some (Return d, s) /\
       forall k, counter_getitem d k = counter_getitem d' k).
Proof.
  split.
  - intros d s H. destruct (parse_Return_derives _ _ _ H) as (f & Hd & Ha).
    pose proof (derives_same_kind _ _ _ Hd _ (findall_round_same_kind formula))
      as Hd'.
    destruct (derives_parse _ _ Hd') as (d' & s' & Hp & Ha').
    exists d', s'. split; [assumption|]. intros k. now rewrite Ha', Ha.
  - intros d' s' H. destruct (parse_Return_derives _ _ _ H) as (f & Hd & Ha).
    pose proof (derives_same_kind _ _ _ Hd _
                  (Forall2_same_kind_sym _ _ (findall_round_same_kind formula)))
      as Hd'.
    destruct (derives_parse _ _ Hd') as (d & s & Hp & Ha').
    exists d, s. split; [assumption|]. intros k. now rewrite Ha', Ha.
Qed.

Lemma bracket_characters_do_not_matter_witness :
  exists d' s',
    parse "Mg2(CH4(NNi2)14)3" = Some (Return d', s') /\
    forall k,
      counter_getitem d' k =
      counter_getitem [("Mg", 2); ("C", 3); ("H", 12); ("N", 42); ("Ni", 84)] k.
Proof.
  destruct (bracket_characters_do_not_matter "Mg2[CH4{NNi2]14)3") as [H _].
  eapply H. vm_compute. reflexivity.
Defined.

(** ** The keys of the mapping *)

Lemma dict_get_In (d : dict) (k : string) (v : Z) :
  dict_get d k = Some v -> In (k, v) d.
Proof.
  induction d as [|[k1 v1] d IH]; simpl; [discriminate|].
  destruct (String.eqb_spec k1 k) as [->|_].
  - intros H; inversion H; subst. now left.
  - intros H. right. now apply IH.
Qed.

Lemma dict_get_key (d : dict) (k : string) :
  In k (keys d) -> exists v, dict_get d k = Some v.
Proof.
  induction d as [|[k1 v1] d IH]; simpl; [tauto|].
  destruct (String.eqb_spec k1 k) as [->|Hne]; [eauto|].
  intros [H|H]; [contradiction|now apply IH].
Qed.

(** X16: every key of the mapping of an accepted formula is one of the
    substrings of the formula, and a string is a key exactly when its count
    ([d.get(k, 0)]) is above 0. *)
Theorem keys_of_mapping (formula : string) (d : dict) (self' : Parser) :
  parse formula = Some (Return d, self') ->
  forall k,
    (In k (keys d) -> In k (Pattern.findall formula)) /\
    (In k (keys d) <-> 0 < counter_getitem d k).
Proof.
  intros H k. apply parse_Return_inv in H as (l & token & Hm & _).
  unfold parse_molecule in Hm.
  destruct (proj1 (parse_invariant _) _ _ _ Hm) as (Hnd & Hpos & Hk).
  rewrite Forall_forall in Hpos.
  split; [intros Hkey; now apply Hk|].
  unfold counter_getitem. split.
  - intros Hkey. destruct (dict_get_key d k Hkey) as (v & Hv). rewrite Hv.
    exact (Hpos _ (dict_get_In _ _ _ Hv)).
  - destruct (dict_get d k) as [v|] eqn:Hv; [|lia]. intros _.
    apply dict_get_In in Hv. unfold keys. apply in_map_iff.
    now exists (k, v).
Qed.

Lemma keys_of_mapping_witness :
  exists self',
    parse "H2O" = Some (Return [("H", 2); ("O", 1)]%string, self') /\
    (In "H"%string (keys [("H", 2); ("O", 1)]%string) ->
     In "H"%string (Pattern.findall "H2O")).
Proof.
  eexists. split; [vm_compute; reflexivity|].
  refine (proj1 (keys_of_mapping "H2O" _ _ _ "H"%string)).
  vm_compute. reflexivity.
Defined.
